(** * SPIFpy: the SEA M200/M300 reader ([src/spifpy/input/sea.py])

    A shallow embedding of the directory-driven buffer scanner
    ([SEAFile._raw_buffers]), the type-dispatched dataset decoder
    ([SEAFile._read_dataset], [SEAFile.iter_buffers]), the time codec
    ([datetime_from_seatime]) and the [Buffer] container, followed by the
    properties of the specification that were checked against them.

    Python integers are unbounded, so they are modelled by [Z]; file
    contents are [list byte]; dictionaries keyed by integers are [gmap Z];
    the filter dictionary, whose iteration order and size matter, is an
    association list.  Exceptions are values of [exn].  Where the
    behaviour depends on the interpreter (the wording of [struct.error],
    the attributes every object has, the argument parsing of
    [datetime.datetime]) it is that of CPython 3.11. *)

From Stdlib Require Import ZArith Lia.
From Stdlib Require Import Ascii String DecimalString DecimalPos.
From Stdlib.Strings Require Import Byte.
From stdpp Require Import base option list strings gmap.

Local Open Scope Z_scope.

(** ** Bytes and little-endian integers *)

Definition byte_val (b : byte) : Z := Z.of_N (Byte.to_N b).

Definition byte_of_Z (z : Z) : byte :=
  match Byte.of_N (Z.to_N (z mod 256)) with
  | Some b => b
  | None => x00
  end.

(** [struct] codes with the ['<'] prefix: little-endian, no padding. *)
Fixpoint le_unsigned (bs : list byte) : Z :=
  match bs with
  | [] => 0
  | b :: rest => byte_val b + 256 * le_unsigned rest
  end.

Definition le_signed (bs : list byte) : Z :=
  let u := le_unsigned bs in
  let m := 2 ^ (8 * Z.of_nat (length bs)) in
  if u <? m / 2 then u else u - m.

(** [len(x)] *)
Definition len {A} (l : list A) : Z := Z.of_nat (length l).

(** [x[a:]] and [x[a:b]] for non-negative [a], [b] (Python clamps both to
    the length). *)
Definition slice_from (l : list byte) (a : Z) : list byte := drop (Z.to_nat a) l.
Definition slice (l : list byte) (a b : Z) : list byte :=
  drop (Z.to_nat a) (take (Z.to_nat b) l).

(** ** Tag numbers and exceptions *)

Definition TIME_TAG : Z := 0.
Definition NEXT_TAG : Z := 999.
Definition RESERVED_TAG_LOW_END : Z := 65000.
Definition RESERVED_TAG_HIGH_END : Z := 65529.
Definition FILENAME_TAG : Z := 65530.
Definition FILEDATA_TAG : Z := 65531.
Definition COMMAND_TAG : Z := 65532.
Definition ERROR_TAG : Z := 65533.
Definition SAME_TAG : Z := 65534.
Definition LAST_TAG : Z := 65535.

Inductive exn :=
| UnexpectedEndOfFileException
| ValueError
| StructError
| RuntimeError
| ZeroDivisionError
| KeyError
| OverflowError
| IncompleteDirectoryEntryException.

Inductive warning :=
| WarnRemovedFilter (attr_name : string)
| WarnReservedTag (tag : Z)
| WarnGreySampleSize (bytes_per_sample : Z)
| WarnUnknownType (typ : Z)
| WarnFewerBytes (number_of_bytes expected_size : Z)
| WarnPastEndOfBuffer (expected_end buffer_len : Z).

(** ** Numbers in strings *)

(** ['{:d}'.format(n)], and [%zd] in the messages of the interpreter. *)
Definition format_d (n : Z) : string := NilZero.string_of_int (Z.to_int n).

(** The message of the [struct.error] that [unpack_from] raises when
    fewer than [size] bytes are left at [offset >= 0] of a buffer of
    [buflen] bytes. *)
Definition short_buffer_message (size offset buflen : Z) : string :=
  String.append
    (String.append "unpack_from requires a buffer of at least "
       (String.append (format_d (size + offset))
          (String.append " bytes for unpacking "
             (String.append (format_d size)
                (String.append " bytes at offset "
                   (String.append (format_d offset)
                      (String.append " (actual buffer size is "
                         (format_d buflen))))))))
    ")".

(** ** DirectoryEntry *)

Record DirectoryEntry := mkDirectoryEntry {
  tag_number : Z;
  data_offset : Z;
  number_of_bytes : Z;
  samples : Z;
  bytes_per_sample : Z;
  typ : Z;
  parameter1 : Z;
  parameter2 : Z;
  parameter3 : Z;
  address : Z
}.

Definition SIZE : Z := 16.

(** [DirectoryEntry.new_from_raw_data]: [struct.Struct('<HHHHHBBBBH')
    .unpack_from(file_contents, start)] for [0 <= start].  [None] stands
    for the exception raised when fewer than 16 bytes are left at
    [start]; [new_from_raw_data_error] below tells which one it is. *)
Definition new_from_raw_data (file_contents : list byte) (start : Z)
  : option DirectoryEntry :=
  if len file_contents - start <? SIZE then None
  else
    match drop (Z.to_nat start) file_contents with
    | b0 :: b1 :: b2 :: b3 :: b4 :: b5 :: b6 :: b7 :: b8 :: b9 :: b10 :: b11
        :: b12 :: b13 :: b14 :: b15 :: _ =>
        Some {| tag_number := le_unsigned [b0; b1];
                data_offset := le_unsigned [b2; b3];
                number_of_bytes := le_unsigned [b4; b5];
                samples := le_unsigned [b6; b7];
                bytes_per_sample := le_unsigned [b8; b9];
                typ := byte_val b10;
                parameter1 := byte_val b11;
                parameter2 := byte_val b12;
                parameter3 := byte_val b13;
                address := le_unsigned [b14; b15] |}
    | _ => None
    end.

(** The exception that leaves [new_from_raw_data] when the read fails:
    [except struct.error as se: if str(se) == 'unpack_from requires a
    buffer of at least 16 bytes': raise IncompleteDirectoryEntryException
    else: raise se]. *)
Definition new_from_raw_data_error (file_contents : list byte) (start : Z)
  : exn :=
  if String.eqb (short_buffer_message SIZE start (len file_contents))
                "unpack_from requires a buffer of at least 16 bytes"
  then IncompleteDirectoryEntryException
  else StructError.

(** The inverse packing, used to lay out synthetic files. *)
Definition pack_u16 (z : Z) : list byte := [byte_of_Z z; byte_of_Z (z / 256)].

Definition pack_entry (e : DirectoryEntry) : list byte :=
  pack_u16 (tag_number e) ++ pack_u16 (data_offset e)
  ++ pack_u16 (number_of_bytes e) ++ pack_u16 (samples e)
  ++ pack_u16 (bytes_per_sample e)
  ++ [byte_of_Z (typ e); byte_of_Z (parameter1 e); byte_of_Z (parameter2 e);
      byte_of_Z (parameter3 e)]
  ++ pack_u16 (address e).

(** ** Filters *)

(** [filters]: a dict from attribute names to collections of accepted
    values, in insertion order. *)
Abbreviation filter_dict := (list (string * list Z)).

Definition instance_attributes : list string :=
  ["tag_number"; "data_offset"; "number_of_bytes"; "samples";
   "bytes_per_sample"; "typ"; "parameter1"; "parameter2"; "parameter3";
   "address"]%string.

Definition class_attributes : list string :=
  ["struct"; "SIZE"; "new_from_raw_data"; "__init__"; "__repr__"]%string.

(** Names every object answers to (CPython 3.11, which added
    [__getstate__]). *)
Definition object_attributes : list string :=
  ["__class__"; "__delattr__"; "__dict__"; "__dir__"; "__doc__"; "__eq__";
   "__format__"; "__ge__"; "__getattribute__"; "__getstate__"; "__gt__";
   "__hash__"; "__init_subclass__"; "__le__"; "__lt__"; "__module__";
   "__ne__"; "__new__"; "__reduce__"; "__reduce_ex__"; "__setattr__";
   "__sizeof__"; "__str__"; "__subclasshook__"; "__weakref__"]%string.

(** [hasattr(dummy_dir_entry, attr_name)] *)
Definition hasattr (attr_name : string) : bool :=
  bool_decide (attr_name ∈ instance_attributes ++ class_attributes
                           ++ object_attributes).

(** [getattr(dir_entry, attr)] when the value is an integer; [None] for an
    attribute whose value is not a number (a method, the struct object). *)
Definition getattr (e : DirectoryEntry) (attr : string) : option Z :=
  if String.eqb attr "tag_number" then Some (tag_number e)
  else if String.eqb attr "data_offset" then Some (data_offset e)
  else if String.eqb attr "number_of_bytes" then Some (number_of_bytes e)
  else if String.eqb attr "samples" then Some (samples e)
  else if String.eqb attr "bytes_per_sample" then Some (bytes_per_sample e)
  else if String.eqb attr "typ" then Some (typ e)
  else if String.eqb attr "parameter1" then Some (parameter1 e)
  else if String.eqb attr "parameter2" then Some (parameter2 e)
  else if String.eqb attr "parameter3" then Some (parameter3 e)
  else if String.eqb attr "address" then Some (address e)
  else if String.eqb attr "SIZE" then Some SIZE
  else None.

(** [getattr(dir_entry, attr) in filters[attr]] *)
Definition attr_in (e : DirectoryEntry) (attr : string) (accepted : list Z) : bool :=
  match getattr e attr with
  | Some v => bool_decide (v ∈ accepted)
  | None => false
  end.

(** The loop [for attr in filters.keys(): if getattr(...) in filters[attr]:
    ...; break]: does any constraint accept the entry? *)
Definition filter_match (filters : filter_dict) (e : DirectoryEntry) : bool :=
  existsb (fun kv => attr_in e kv.1 kv.2) filters.

(** [if filters:] *)
Definition nonempty (filters : filter_dict) : bool :=
  match filters with [] => false | _ => true end.

(** [if filters: for attr in filters.keys(): if ... in filters[attr]:
    drop_buffer = False; break]: the value of [drop_buffer] afterwards. *)
Definition filter_check (filters : filter_dict) (drop : bool)
    (e : DirectoryEntry) : bool :=
  if nonempty filters && filter_match filters e then false else drop.

(** ... and after that check on each of several entries in turn. *)
Definition drop_after (filters : filter_dict) (drop : bool)
    (es : list DirectoryEntry) : bool :=
  foldl (filter_check filters) drop es.

(** [del filters[attr_name]] *)
Definition dict_del (attr_name : string) (filters : filter_dict) : filter_dict :=
  filter (fun kv => kv.1 ≠ attr_name) filters.

(** The loop that removes invalid filter criteria,
    [for attr_name in filters.keys(): ... del filters[attr_name]].
    [keys] is what the key iterator has still to visit and [used] the size
    of the dictionary when the iterator was created: each step of a
    Python 3 dictionary iterator, the one that finds the iterator
    exhausted included, first compares the current size with [used] and
    raises [RuntimeError] when they differ. *)
Fixpoint remove_invalid_loop (used : nat) (keys : list string)
    (filters : filter_dict) (warns : list warning)
  : list warning * filter_dict * option exn :=
  if negb (Nat.eqb (length filters) used) then (warns, filters, Some RuntimeError)
  else
    match keys with
    | [] => (warns, filters, None)
    | attr_name :: rest =>
        if negb (hasattr attr_name) then
          remove_invalid_loop used rest (dict_del attr_name filters)
                              (warns ++ [WarnRemovedFilter attr_name])
        else remove_invalid_loop used rest filters warns
    end.

(** The warnings issued, the dictionary as the loop left it, and the
    exception raised, if any. *)
Definition remove_invalid_filters (filters : filter_dict)
  : list warning * filter_dict * option exn :=
  remove_invalid_loop (length filters) (map fst filters) filters [].

(** ** The scanner: [SEAFile._raw_buffers] *)

Record scan_state := mkScan {
  cursor : Z;
  search_time : Z;
  dir_base : Z;
  dir_entries : list DirectoryEntry;
  drop_buffer : bool;
  reached_end : bool;
  first_tag : bool
}.

(** One yielded pair [(dir_entries, raw bytes)]. *)
Definition raw_buffer : Type := list DirectoryEntry * list byte.

Definition initial_state (filters : filter_dict) : scan_state :=
  {| cursor := 0; search_time := 0; dir_base := 0; dir_entries := [];
     drop_buffer := nonempty filters; reached_end := false;
     first_tag := true |}.

(** The test on the first record of a buffer. *)
Definition is_time_signature (e : DirectoryEntry) : bool :=
  (tag_number e =? TIME_TAG) && (number_of_bytes e =? 36)
  && (samples e =? 2) && (bytes_per_sample e =? 18).

(** The [if first_tag: ... else: ...] part of the loop body, after
    [dir_entries.append(dir_entry)].  Returns the new state and what was
    yielded. *)
Definition classify (contents : list byte) (filters : filter_dict)
    (st : scan_state) (e : DirectoryEntry) : scan_state * list raw_buffer :=
  let entries := dir_entries st ++ [e] in
  if first_tag st then
    if is_time_signature e then
      ({| cursor := cursor st; search_time := search_time st;
          dir_base := dir_base st; dir_entries := entries;
          drop_buffer := drop_buffer st; reached_end := reached_end st;
          first_tag := false |}, [])
    else
      ({| cursor := cursor st + 1; search_time := search_time st + 1;
          dir_base := cursor st + 1; dir_entries := [];
          drop_buffer := drop_buffer st; reached_end := reached_end st;
          first_tag := first_tag st |}, [])
  else
    (* the cascade on tag_number *)
    let '(st1, ys) :=
      if tag_number e =? TIME_TAG then
        (mkScan (cursor st) (search_time st) (dir_base st) entries
                (drop_buffer st) (reached_end st) (first_tag st), [])
      else if tag_number e =? NEXT_TAG then
        let c := dir_base st + data_offset e in
        (mkScan c (search_time st) c [] (nonempty filters) (reached_end st) true,
         if drop_buffer st then [] else [(entries, slice contents (dir_base st) c)])
      else if (RESERVED_TAG_LOW_END <=? tag_number e)
              && (tag_number e <=? RESERVED_TAG_HIGH_END) then
        (mkScan (cursor st) (search_time st) (dir_base st) entries
                (drop_buffer st) (reached_end st) (first_tag st), [])
      else if tag_number e =? FILENAME_TAG then
        (mkScan (cursor st) (search_time st) (dir_base st) entries
                (drop_buffer st) (reached_end st) (first_tag st), [])
      else if tag_number e =? FILEDATA_TAG then
        (mkScan (cursor st) (search_time st) (dir_base st) entries
                (drop_buffer st) (reached_end st) (first_tag st), [])
      else if tag_number e =? LAST_TAG then
        (mkScan (cursor st) (search_time st) (dir_base st) entries
                (drop_buffer st) true (first_tag st),
         [(entries, slice_from contents (dir_base st))])
      else
        (mkScan (cursor st) (search_time st) (dir_base st) entries
                (drop_buffer st) (reached_end st) (first_tag st), [])
    in
    (* if filters: for attr in filters.keys(): ... drop_buffer = False *)
    let drop := filter_check filters (drop_buffer st1) e in
    (* if dir_entry.tag_number != NEXT_TAG: cursor += DirectoryEntry.SIZE *)
    let c := if negb (tag_number e =? NEXT_TAG) then cursor st1 + SIZE
             else cursor st1 in
    (mkScan c (search_time st1) (dir_base st1) (dir_entries st1) drop
            (reached_end st1) (first_tag st1), ys).

(** One pass through the body of [while not reached_end]. *)
Definition loop_body (contents : list byte) (filters : filter_dict)
    (st : scan_state) : exn + (scan_state * list raw_buffer) :=
  match new_from_raw_data contents (cursor st) with
  | None =>
      (* except IncompleteDirectoryEntryException:
             raise UnexpectedEndOfFileException(...) *)
      inl (match new_from_raw_data_error contents (cursor st) with
           | IncompleteDirectoryEntryException => UnexpectedEndOfFileException
           | ex => ex
           end)
  | Some e =>
      let '(st1, ys) := classify contents filters st e in
      (* if cursor >= len(contents) - dir_entry.SIZE: yield ...; reached_end = True *)
      if len contents - SIZE <=? cursor st1 then
        inr (mkScan (cursor st1) (search_time st1) (dir_base st1)
                    (dir_entries st1) (drop_buffer st1) true (first_tag st1),
             ys ++ [(dir_entries st1, slice_from contents (dir_base st1))])
      else inr (st1, ys)
  end.

(** How a run of the generator stands after a number of passes. *)
Inductive outcome :=
| Exhausted                      (* the loop was left: StopIteration *)
| Raised (e : exn)
| Running (st : scan_state).     (* still inside the loop *)

(** [fuel] passes of the [while] loop from [st]: the buffers yielded so
    far, in order, and the outcome. *)
Fixpoint raw_buffers_loop (fuel : nat) (contents : list byte)
    (filters : filter_dict) (st : scan_state) : list raw_buffer * outcome :=
  if reached_end st then ([], Exhausted)
  else
    match fuel with
    | O => ([], Running st)
    | S fuel' =>
        match loop_body contents filters st with
        | inl e => ([], Raised e)
        | inr (st', ys) =>
            let '(zs, o) := raw_buffers_loop fuel' contents filters st' in
            (ys ++ zs, o)
        end
    end.

(** [SEAFile._raw_buffers(filters)] iterated for at most [fuel] passes of
    its loop: warnings, yielded buffers, outcome and the filter dictionary
    as the method left it (the caller's dictionary is the same object). *)
Definition _raw_buffers (fuel : nat) (contents : list byte) (filters : filter_dict)
  : list warning * list raw_buffer * outcome * filter_dict :=
  match remove_invalid_filters filters with
  | (warns, filters', Some e) => (warns, [], Raised e, filters')
  | (warns, filters', None) =>
      let '(ys, o) := raw_buffers_loop fuel contents filters' (initial_state filters') in
      (warns, ys, o, filters')
  end.

(** ** Floating-point true division

    [a / b] on Python 3 integers is the correctly rounded binary64
    quotient.  For [0 <= a], [0 < b] and a quotient that is zero or lies in
    [[2^-1022, 2^52)], the result is [mant / 2^scale] with a 53-bit
    [mant] and [0 <= scale]; every quotient of two values read from 16-bit
    fields, also after scaling by a million, is in that range. *)

Record float := mkFloat { mant : Z; scale : Z }.

(** The integer nearest to [n / d] ([0 < d]), ties to even. *)
Definition round_half_even (n d : Z) : Z :=
  let q := n / d in
  let r := n mod d in
  if 2 * r <? d then q
  else if d <? 2 * r then q + 1
  else if Z.even q then q else q + 1.

Definition truediv (a b : Z) : float :=
  if a =? 0 then mkFloat 0 0
  else
    let k0 := 52 - (Z.log2 a - Z.log2 b) in
    let k := if a * 2 ^ k0 <? b * 2 ^ 52 then k0 + 1 else k0 in
    mkFloat (round_half_even (a * 2 ^ k) b) k.

(** [int(x)] and [math.ceil(x)] on a non-negative float. *)
Definition int_of_float (x : float) : Z := mant x / 2 ^ scale x.
Definition ceil_of_float (x : float) : Z := - ((- mant x) / 2 ^ scale x).

(** ** Time records *)

Record SEATime := mkSEATime {
  year : Z;
  month : Z;
  day : Z;
  hour : Z;
  minute : Z;
  second : Z;
  fraction_of_second : Z;
  max_sys_freq : Z;
  buffer_life_span : Z
}.

(** A naive [datetime.datetime]. *)
Record datetime := mkDatetime {
  dt_year : Z;
  dt_month : Z;
  dt_day : Z;
  dt_hour : Z;
  dt_minute : Z;
  dt_second : Z;
  dt_microsecond : Z
}.

Definition is_leap (y : Z) : bool :=
  (y mod 4 =? 0) && (negb (y mod 100 =? 0) || (y mod 400 =? 0)).

Definition days_in_month (y m : Z) : Z :=
  if m =? 2 then (if is_leap y then 29 else 28)
  else if (m =? 4) || (m =? 6) || (m =? 9) || (m =? 11) then 30
  else 31.

(** An argument of the constructor is converted to a C [int] first. *)
Definition fits_c_int (z : Z) : bool :=
  (-2147483648 <=? z) && (z <=? 2147483647).

(** The constructor [datetime.datetime(year, month, day, hour, minute,
    second, microsecond)]: [OverflowError] when an argument does not fit
    a C [int], [ValueError] on a field out of range. *)
Definition datetime_new (y mo d h mi s us : Z) : exn + datetime :=
  if negb (forallb fits_c_int [y; mo; d; h; mi; s; us]) then inl OverflowError
  else
  if (1 <=? y) && (y <=? 9999) && (1 <=? mo) && (mo <=? 12)
     && (1 <=? d) && (d <=? days_in_month y mo)
     && (0 <=? h) && (h <=? 23) && (0 <=? mi) && (mi <=? 59)
     && (0 <=? s) && (s <=? 59) && (0 <=? us) && (us <=? 999999)
  then inr (mkDatetime y mo d h mi s us)
  else inl ValueError.

(** [datetime_from_seatime] *)
Definition datetime_from_seatime (seatime : SEATime) : exn + datetime :=
  if max_sys_freq seatime =? 0 then inl ZeroDivisionError
  else
    let microsecond :=
      int_of_float (truediv (1000000 * fraction_of_second seatime)
                            (max_sys_freq seatime)) in
    datetime_new (year seatime) (month seatime) (day seatime)
                 (hour seatime) (minute seatime) (second seatime) microsecond.

(** The date and time-of-day fields of a time record are ones the
    [datetime] constructor accepts. *)
Definition calendar_valid (t : SEATime) : bool :=
  match datetime_new (year t) (month t) (day t) (hour t) (minute t) (second t) 0 with
  | inr _ => true
  | inl _ => false
  end.

(** [SEA_TIME_STRUCT.unpack_from(data, offset)] made into a [SEATime]:
    nine ['H']. *)
Definition unpack_seatime (data : list byte) (offset : Z) : exn + SEATime :=
  if len data - offset <? 18 then inl StructError
  else
    match drop (Z.to_nat offset) data with
    | a0 :: a1 :: b0 :: b1 :: c0 :: c1 :: d0 :: d1 :: e0 :: e1 :: f0 :: f1
        :: g0 :: g1 :: h0 :: h1 :: i0 :: i1 :: _ =>
        inr (mkSEATime (le_unsigned [a0; a1]) (le_unsigned [b0; b1])
               (le_unsigned [c0; c1]) (le_unsigned [d0; d1])
               (le_unsigned [e0; e1]) (le_unsigned [f0; f1])
               (le_unsigned [g0; g1]) (le_unsigned [h0; h1])
               (le_unsigned [i0; i1]))
    | _ => inl StructError
    end.

(** The inverse packing of a time record. *)
Definition pack_seatime (t : SEATime) : list byte :=
  pack_u16 (year t) ++ pack_u16 (month t) ++ pack_u16 (day t)
  ++ pack_u16 (hour t) ++ pack_u16 (minute t) ++ pack_u16 (second t)
  ++ pack_u16 (fraction_of_second t) ++ pack_u16 (max_sys_freq t)
  ++ pack_u16 (buffer_life_span t).

(** [datetime_from_raw_seatime] *)
Definition datetime_from_raw_seatime (sea_file_data : list byte) (offset : Z)
  : exn + datetime :=
  match unpack_seatime sea_file_data offset with
  | inl e => inl e
  | inr seatime => datetime_from_seatime seatime
  end.

(** ** The dataset decoder: [SEAFile._read_dataset] *)

(** The [struct] format characters the decoder uses. *)
Inductive fmt := Fb | FB | Fh | FH | FI | FQ.

Definition fmt_size (f : fmt) : Z :=
  match f with
  | Fb | FB => 1
  | Fh | FH => 2
  | FI => 4
  | FQ => 8
  end.

Definition fmt_decode (f : fmt) (bs : list byte) : Z :=
  match f with
  | Fb | Fh => le_signed bs
  | FB | FH | FI | FQ => le_unsigned bs
  end.

(** [struct.calcsize('<' + s)] *)
Definition calcsize (s : list fmt) : Z :=
  foldr (fun f acc => fmt_size f + acc) 0 s.

Fixpoint unpack (s : list fmt) (bs : list byte) : list Z :=
  match s with
  | [] => []
  | f :: s' =>
      let n := Z.to_nat (fmt_size f) in
      fmt_decode f (take n bs) :: unpack s' (drop n bs)
  end.

(** [struct.unpack_from('<' + s, buffer, offset)] for [0 <= offset]. *)
Definition unpack_from (s : list fmt) (buffer : list byte) (offset : Z)
  : exn + list Z :=
  if len buffer - offset <? calcsize s then inl StructError
  else inr (unpack s (drop (Z.to_nat offset) buffer)).

(** [x * n] on a string: [n] copies, none when [n <= 0]. *)
Definition str_mul {A} (x : list A) (n : Z) : list A :=
  concat (replicate (Z.to_nat n) x).

(** The cascade on [dir_entry.typ]: the per-sample format and the warnings
    issued, or [None] for an unknown acquisition type.  For type 66,
    [num_slices] is a float on Python 3, so ['QQ' * num_slices] always
    raises [TypeError] and the handler's [math.ceil] gives the count. *)
Definition sample_string (e : DirectoryEntry) : option (list warning * list fmt) :=
  if typ e =? 1 then Some ([], [Fh])
  else if typ e =? 2 then Some ([], str_mul [FH] 20 ++ [Fb; Fb])
  else if typ e =? 5 then Some ([], str_mul [FI] 1024)
  else if typ e =? 6 then Some ([], [FH; FH])
  else if typ e =? 7 then Some ([], [FI])
  else if typ e =? 8 then Some ([], [FI])
  else if typ e =? 9 then Some ([], [FH])
  else if typ e =? 10 then Some ([], [FH])
  else if typ e =? 11 then Some ([], str_mul [FH] 8)
  else if typ e =? 35 then Some ([], [Fh])
  else if typ e =? 66 then
    let warns := if negb (bytes_per_sample e mod 16 =? 0)
                 then [WarnGreySampleSize (bytes_per_sample e)] else [] in
    let num_slices := truediv (bytes_per_sample e) 16 in
    Some (warns, str_mul [FQ; FQ] (ceil_of_float num_slices))
  else if typ e =? 78 then Some ([], str_mul [FB] 4096 ++ [FH])
  else if typ e =? 85 then Some ([], str_mul [FB] (bytes_per_sample e))
  else if typ e =? 255 then Some ([], str_mul [FB] (bytes_per_sample e))
  else None.

(** [_read_dataset_raw] *)
Definition _read_dataset_raw (e : DirectoryEntry) (raw_buffer : list byte)
    (dataset_string : list fmt) : exn + list Z :=
  unpack_from dataset_string raw_buffer (data_offset e).

(** [_read_dataset]: the warnings issued and the decoded tuple or the
    exception raised. *)
Definition _read_dataset (e : DirectoryEntry) (raw_buffer : list byte)
  : list warning * (exn + list Z) :=
  match sample_string e with
  | None =>
      ([WarnUnknownType (typ e)],
       _read_dataset_raw e raw_buffer (str_mul [FB] (number_of_bytes e)))
  | Some (warns, s) =>
      let expected_size := samples e * bytes_per_sample e in
      if number_of_bytes e <? expected_size then
        (warns ++ [WarnFewerBytes (number_of_bytes e) expected_size],
         _read_dataset_raw e raw_buffer (str_mul s (samples e)))
      else if len raw_buffer <? data_offset e + expected_size then
        (warns ++ [WarnPastEndOfBuffer (data_offset e + expected_size)
                                        (len raw_buffer)],
         inl ValueError)
      else
        (warns, _read_dataset_raw e raw_buffer (str_mul s (samples e)))
  end.

(** ** Byte strings: [SEAFile._unpack_string_data]

    The format string is built as text and handed to [struct], so the
    model builds the text and parses it. *)

(** [s * n] on a string. *)
Definition string_mul (s : string) (n : Z) : string :=
  Nat.iter (Z.to_nat n) (String.append s) EmptyString.

(** The value of a decimal digit. *)
Definition digit_of_ascii (c : ascii) : option Z :=
  Z.of_nat <$> Ascii.is_nat c.

(** The items of a [struct] format after its first character: an optional
    repeat count in decimal and a format character.  Of the format
    characters only [s] is modelled (a byte string of [count] bytes), the
    one that the format strings built here can hold besides digits, ['<']
    and ['-']; on every other character the parse fails, as [struct] does
    on a character that is no format character ("bad char in struct
    format"), and as it does when a count ends the string.  The result
    is the list of the byte counts of the items. *)
Fixpoint struct_items (fmt : string) (count : option Z) : option (list Z) :=
  match fmt with
  | EmptyString =>
      match count with
      | None => Some []
      | Some _ => None
      end
  | String c rest =>
      match digit_of_ascii c with
      | Some v => struct_items rest (Some (10 * default 0 count + v))
      | None =>
          if Ascii.eqb c "s"
          then cons (default 1 count) <$> struct_items rest None
          else None
      end
  end.

(** A byte-order mark is looked for in the first character only. *)
Definition is_byte_order (c : ascii) : bool :=
  existsb (Ascii.eqb c) ["<"; ">"; "!"; "="; "@"]%char.

Definition struct_parse (fmt : string) : option (list Z) :=
  match fmt with
  | EmptyString => Some []
  | String c rest =>
      if is_byte_order c then struct_items rest None
      else struct_items fmt None
  end.

(** One byte string per item, taken off the front of [data]. *)
Fixpoint unpack_strings (counts : list Z) (data : list byte)
  : list (list byte) :=
  match counts with
  | [] => []
  | n :: rest =>
      take (Z.to_nat n) data :: unpack_strings rest (drop (Z.to_nat n) data)
  end.

(** [_unpack_string_data]: [struct.unpack_from] with the format
    ['<{:d}s'.format(bytes_per_sample) * samples] at [data_offset >= 0]. *)
Definition _unpack_string_data (raw_buffer : list byte) (e : DirectoryEntry)
  : exn + list (list byte) :=
  let format_string :=
    string_mul (String "<" (String.append (format_d (bytes_per_sample e)) "s"))
               (samples e) in
  match struct_parse format_string with
  | None => inl StructError
  | Some counts =>
      if len raw_buffer - data_offset e <? foldr Z.add 0 counts
      then inl StructError
      else inr (unpack_strings counts
                  (drop (Z.to_nat (data_offset e)) raw_buffer))
  end.

(** ** The [Buffer] container *)

Inductive dataset :=
| DInts (values : list Z)                (* a tuple from [_read_dataset] *)
| DTime (t : SEATime)                    (* a [SEATime] *)
| DStrings (strings : list (list byte)). (* a tuple of byte strings *)

Record Buffer := mkBuffer {
  dir_entries_by_tag_number : gmap Z DirectoryEntry;
  dir_entries_by_typ : gmap Z (list DirectoryEntry);
  datasets_by_tag_number : gmap Z dataset;
  datasets_by_typ : gmap Z (list dataset)
}.

(** [Buffer()] *)
Definition Buffer_new : Buffer := mkBuffer ∅ ∅ ∅ ∅.

(** [try: d[k].append(x)  except KeyError: d[k] = [x]] *)
Definition append_at {A} (k : Z) (x : A) (d : gmap Z (list A)) : gmap Z (list A) :=
  match d !! k with
  | Some l => <[k := l ++ [x]]> d
  | None => <[k := [x]]> d
  end.

(** [Buffer.add_dataset] *)
Definition add_dataset (b : Buffer) (e : DirectoryEntry) (ds : dataset) : Buffer :=
  let by_tag := <[tag_number e := e]> (dir_entries_by_tag_number b) in
  let ds_by_tag := <[tag_number e := ds]> (datasets_by_tag_number b) in
  if negb (tag_number e =? TIME_TAG) then
    mkBuffer by_tag (append_at (typ e) e (dir_entries_by_typ b))
             ds_by_tag (append_at (typ e) ds (datasets_by_typ b))
  else
    mkBuffer by_tag (dir_entries_by_typ b) ds_by_tag (datasets_by_typ b).

(** The getters index a dict, which raises [KeyError] on a missing key. *)
Definition index {A} (d : gmap Z A) (k : Z) : exn + A :=
  match d !! k with
  | Some x => inr x
  | None => inl KeyError
  end.

Definition get_dir_entry_by_tag_number (b : Buffer) (n : Z) : exn + DirectoryEntry :=
  index (dir_entries_by_tag_number b) n.
Definition get_dir_entries_by_typ (b : Buffer) (t : Z) : exn + list DirectoryEntry :=
  index (dir_entries_by_typ b) t.
Definition get_dataset_by_tag_number (b : Buffer) (n : Z) : exn + dataset :=
  index (datasets_by_tag_number b) n.
Definition get_datasets_by_typ (b : Buffer) (t : Z) : exn + list dataset :=
  index (datasets_by_typ b) t.

(** A sequence of [add_dataset] calls on one buffer. *)
Definition add_datasets (b : Buffer) (calls : list (DirectoryEntry * dataset)) : Buffer :=
  foldl (fun acc call => add_dataset acc call.1 call.2) b calls.

(** The calls that carry a given tag number, and the calls that are not
    time records and carry a given acquisition type, in call order. *)
Definition with_tag (n : Z) (calls : list (DirectoryEntry * dataset))
  : list (DirectoryEntry * dataset) :=
  filter (fun call => tag_number call.1 = n) calls.

Definition non_time_of_typ (t : Z) (calls : list (DirectoryEntry * dataset))
  : list (DirectoryEntry * dataset) :=
  filter (fun call => tag_number call.1 ≠ TIME_TAG ∧ typ call.1 = t) calls.

(** A dict slot holding a list: absent when nothing was ever appended. *)
Definition slot {A} (l : list A) : option (list A) :=
  match l with
  | [] => None
  | _ => Some l
  end.

(** ** The buffer decoder: [SEAFile.iter_buffers] *)

(** How the body of [for dir_entry in dir_entries] ends for one entry. *)
Inductive flow :=
| Continue (new_buffer : Buffer) (discard_buffer : bool)
| Break (yielded : list Buffer)
| Return
| Raise (e : exn).

(** The branch [elif filters: for attr in filters.keys(): ...]: the entry
    is read and added once for every constraint that accepts it. *)
Fixpoint decode_matching (remaining : filter_dict) (raw_buffer : list byte)
    (e : DirectoryEntry) (b : Buffer) (discard : bool) : list warning * flow :=
  match remaining with
  | [] => ([], Continue b discard)
  | (attr, accepted) :: rest =>
      if attr_in e attr accepted then
        match _read_dataset e raw_buffer with
        | (w, inl ex) => (w, Raise ex)
        | (w, inr values) =>
            let '(w', r) := decode_matching rest raw_buffer e
                              (add_dataset b e (DInts values)) false in
            (w ++ w', r)
        end
      else decode_matching rest raw_buffer e b discard
  end.

(** The cascade on [dir_entry.tag_number] in [iter_buffers]. *)
Definition decode_entry (filters : filter_dict) (secondary_tags : gset Z)
    (raw_buffer : list byte) (b : Buffer) (discard : bool) (e : DirectoryEntry)
  : list warning * flow :=
  if tag_number e =? TIME_TAG then
    match unpack_seatime raw_buffer (data_offset e) with
    | inl ex => ([], Raise ex)
    | inr t => ([], Continue (add_dataset b e (DTime t)) discard)
    end
  else if tag_number e =? NEXT_TAG then
    ([], Break (if discard then [] else [b]))
  else if (RESERVED_TAG_LOW_END <=? tag_number e)
          && (tag_number e <=? RESERVED_TAG_HIGH_END) then
    ([WarnReservedTag (tag_number e)], Continue b discard)
  else if (tag_number e =? FILENAME_TAG) || (tag_number e =? FILEDATA_TAG) then
    match _unpack_string_data raw_buffer e with
    | inl ex => ([], Raise ex)
    | inr ss => ([], Continue (add_dataset b e (DStrings ss)) discard)
    end
  else if (tag_number e =? COMMAND_TAG) || (tag_number e =? ERROR_TAG)
          || (tag_number e =? SAME_TAG) then
    ([], Continue b true)
  else if tag_number e =? LAST_TAG then ([], Return)
  else if bool_decide (tag_number e ∈ secondary_tags) then ([], Continue b true)
  else if nonempty filters then decode_matching filters raw_buffer e b discard
  else
    match _read_dataset e raw_buffer with
    | (w, inl ex) => (w, Raise ex)
    | (w, inr values) => (w, Continue (add_dataset b e (DInts values)) discard)
    end.

(** An entry that reaches the last two branches of that cascade: an
    ordinary data record. *)
Definition ordinary_record (secondary_tags : gset Z) (e : DirectoryEntry) : bool :=
  negb (tag_number e =? TIME_TAG) && negb (tag_number e =? NEXT_TAG)
  && negb ((RESERVED_TAG_LOW_END <=? tag_number e)
           && (tag_number e <=? RESERVED_TAG_HIGH_END))
  && negb ((tag_number e =? FILENAME_TAG) || (tag_number e =? FILEDATA_TAG))
  && negb ((tag_number e =? COMMAND_TAG) || (tag_number e =? ERROR_TAG)
           || (tag_number e =? SAME_TAG))
  && negb (tag_number e =? LAST_TAG)
  && negb (bool_decide (tag_number e ∈ secondary_tags)).

(** [for dir_entry in dir_entries: ...] on one raw buffer; running off the
    end of the list yields nothing and goes on to the next raw buffer. *)
Fixpoint decode_entries (filters : filter_dict) (secondary_tags : gset Z)
    (raw_buffer : list byte) (es : list DirectoryEntry) (b : Buffer)
    (discard : bool) : list warning * flow :=
  match es with
  | [] => ([], Break [])
  | e :: rest =>
      match decode_entry filters secondary_tags raw_buffer b discard e with
      | (w, Continue b' discard') =>
          let '(w', r) := decode_entries filters secondary_tags raw_buffer
                            rest b' discard' in
          (w ++ w', r)
      | r => r
      end
  end.

(** The outer loop of [iter_buffers] over what [_raw_buffers] yields:
    warnings, the buffers yielded, and [Some Return], [Some (Raise e)] or
    [None] when all raw buffers given were consumed. *)
Fixpoint decode_buffers (filters : filter_dict) (secondary_tags : gset Z)
    (raws : list raw_buffer) : list warning * list Buffer * option flow :=
  match raws with
  | [] => ([], [], None)
  | (es, raw_buffer) :: rest =>
      match decode_entries filters secondary_tags raw_buffer es Buffer_new
                           (nonempty filters) with
      | (w, Break ys) =>
          let '(w', zs, r) := decode_buffers filters secondary_tags rest in
          (w ++ w', ys ++ zs, r)
      | (w, r) => (w, [], Some r)
      end
  end.

(** [SEAFile.iter_buffers(filters)] driven for at most [fuel] passes of the
    scanner's loop: warnings, decoded buffers and the outcome. *)
Definition iter_buffers (fuel : nat) (contents : list byte)
    (secondary_tags : gset Z) (filters : filter_dict)
  : list warning * list Buffer * outcome :=
  let '(w, raws, o, filters') := _raw_buffers fuel contents filters in
  match decode_buffers filters' secondary_tags raws with
  | (w', bs, Some (Raise ex)) => (w ++ w', bs, Raised ex)
  | (w', bs, Some _) => (w ++ w', bs, Exhausted)
  | (w', bs, None) => (w ++ w', bs, o)
  end.

(** ** Synthetic files *)

(** A buffer as it lies in a file: its directory (first record, further
    records, terminating record) followed by payload bytes. *)
Record segment := mkSegment {
  seg_first : DirectoryEntry;
  seg_records : list DirectoryEntry;
  seg_term : DirectoryEntry;
  seg_payload : list byte
}.

Definition segment_bytes (s : segment) : list byte :=
  pack_entry (seg_first s) ++ flat_map pack_entry (seg_records s)
  ++ pack_entry (seg_term s) ++ seg_payload s.

Definition synthetic_file (nexts : list segment) (last : segment) : list byte :=
  flat_map segment_bytes nexts ++ segment_bytes last.

Definition u8 (z : Z) : bool := (0 <=? z) && (z <? 256).
Definition u16 (z : Z) : bool := (0 <=? z) && (z <? 65536).

(** The fields fit the record layout, so packing loses nothing. *)
Definition wf_entry (e : DirectoryEntry) : bool :=
  u16 (tag_number e) && u16 (data_offset e) && u16 (number_of_bytes e)
  && u16 (samples e) && u16 (bytes_per_sample e) && u8 (typ e)
  && u8 (parameter1 e) && u8 (parameter2 e) && u8 (parameter3 e)
  && u16 (address e).

(** A record that ends no buffer. *)
Definition plain_record (e : DirectoryEntry) : bool :=
  wf_entry e && negb (tag_number e =? NEXT_TAG) && negb (tag_number e =? LAST_TAG).

Definition segment_ok (s : segment) : bool :=
  wf_entry (seg_first s) && is_time_signature (seg_first s)
  && forallb plain_record (seg_records s) && wf_entry (seg_term s).

(** A NEXT-terminated segment whose NEXT record points at its end. *)
Definition next_segment_ok (s : segment) : bool :=
  segment_ok s && (tag_number (seg_term s) =? NEXT_TAG)
  && (data_offset (seg_term s) =? len (segment_bytes s)).

(** A LAST-terminated segment with more than one record's worth of
    payload after its directory. *)
Definition last_segment_ok (s : segment) : bool :=
  segment_ok s && (tag_number (seg_term s) =? LAST_TAG)
  && (SIZE <? len (seg_payload s)).

(** What the scanner hands out for a segment: the first record is read
    twice, once by the signature test and once by the cascade. *)
Definition segment_entries (s : segment) : list DirectoryEntry :=
  seg_first s :: seg_first s :: seg_records s ++ [seg_term s].

Definition emitted (s : segment) : raw_buffer :=
  (segment_entries s, segment_bytes s).

(** What the scanner yields for a run of NEXT-terminated segments when it
    enters the first with [drop_buffer = drop], and the value of
    [drop_buffer] with which it enters what follows. *)
Fixpoint scanned (filters : filter_dict) (drop : bool) (nexts : list segment)
  : list raw_buffer * bool :=
  match nexts with
  | [] => ([], drop)
  | s :: rest =>
      let '(ys, d) := scanned filters
                        (filter_check filters (nonempty filters) (seg_term s))
                        rest in
      ((if drop_after filters drop (seg_first s :: seg_records s) then []
        else [emitted s]) ++ ys, d)
  end.

(** Passes of the loop spent on a segment. *)
Definition segment_passes (s : segment) : nat := 3 + length (seg_records s).

(** [runs contents filters k st ys st']: from [st], [k] passes of the loop
    yield [ys] and lead to [st'], whatever follows. *)
Definition runs (contents : list byte) (filters : filter_dict) (k : nat)
    (st : scan_state) (ys : list raw_buffer) (st' : scan_state) : Prop :=
  forall fuel,
    raw_buffers_loop (k + fuel) contents filters st
    = let '(zs, o) := raw_buffers_loop fuel contents filters st' in (ys ++ zs, o).

(** Sample records and files used in the examples. *)
Definition time_record (offset : Z) : DirectoryEntry :=
  mkDirectoryEntry TIME_TAG offset 36 2 18 0 0 0 0 43605.
Definition next_record (offset : Z) : DirectoryEntry :=
  mkDirectoryEntry NEXT_TAG offset 0 0 0 0 0 0 0 0.
Definition last_record : DirectoryEntry :=
  mkDirectoryEntry LAST_TAG 0 0 0 0 0 0 0 0 0.
Definition data_record (tag offset nbytes n bps t : Z) : DirectoryEntry :=
  mkDirectoryEntry tag offset nbytes n bps t 0 0 0 0.
Definition zeros (n : nat) : list byte := replicate n x00.
(** A buffer with a time record only, ended by NEXT; a NEXT-terminated
    stretch that starts with a data record instead of a time record; a
    final buffer; a final buffer with a single byte after its directory. *)
Definition first_segment : segment :=
  mkSegment (time_record 32) [] (next_record 68) (zeros 36).
Definition untimed_segment : segment :=
  mkSegment (data_record 7 32 2 1 2 1) [] (next_record 34) (zeros 2).
Definition final_segment : segment :=
  mkSegment (time_record 32) [] last_record (zeros 36).
Definition short_final_segment : segment :=
  mkSegment (time_record 32) [] last_record (zeros 1).

(** A buffer with a time record and two data records of type 1, tags 7
    and 8. *)
Definition two_record_segment : segment :=
  mkSegment (time_record 64)
            [data_record 7 100 2 1 2 1; data_record 8 102 2 1 2 1]
            (next_record 104) (zeros 40).

(** A file whose NEXT record points back at the base of its own buffer. *)
Definition looping_file : list byte :=
  pack_entry (time_record 32) ++ pack_entry (next_record 0) ++ zeros 1.

(** A first buffer, five stray bytes, a final buffer. *)
Definition gapped_file : list byte :=
  segment_bytes first_segment ++ zeros 5 ++ segment_bytes final_segment.

(** ** The file-type check: [SEAFile._filetype_check] *)

Definition _TIME_DATASET_BYTES_PER_SAMPLE : Z := 18.
Definition _TIME_DATASET_ADDRESS : Z := 43605.   (* 0xAA55 *)

(** [true] when the check passes; otherwise an exception leaves
    [SEAFile.__init__]: [InvalidSEAFileException], or the error of the
    failed read of the first record. *)
Definition _filetype_check (contents : list byte) : bool :=
  match new_from_raw_data contents 0 with
  | None => false
  | Some dir_entry =>
      negb (negb (tag_number dir_entry =? TIME_TAG)
            || negb (bytes_per_sample dir_entry =? _TIME_DATASET_BYTES_PER_SAMPLE)
            || negb (address dir_entry =? _TIME_DATASET_ADDRESS))
  end.

(** The nine fields of a time record fit their 16-bit slots. *)
Definition wf_seatime (t : SEATime) : bool :=
  u16 (year t) && u16 (month t) && u16 (day t) && u16 (hour t)
  && u16 (minute t) && u16 (second t) && u16 (fraction_of_second t)
  && u16 (max_sys_freq t) && u16 (buffer_life_span t).

(** The NEXT-terminated segments the scanner passes on under a non-empty
    filter: a segment is kept when one of the records ahead of its NEXT
    record matches a constraint, or when the NEXT record of the segment
    before it did ([carry]). *)
Fixpoint kept_segments (filters : filter_dict) (carry : bool)
    (nexts : list segment) : list segment :=
  match nexts with
  | [] => []
  | s :: rest =>
      (if carry || existsb (filter_match filters) (seg_first s :: seg_records s)
       then [s] else [])
      ++ kept_segments filters (filter_match filters (seg_term s)) rest
  end.

(** The buffers a pass over the entries of one raw buffer hands to the
    consumer of [iter_buffers]. *)
Definition flow_yields (r : flow) : list Buffer :=
  match r with
  | Break ys => ys
  | _ => []
  end.

(** What [_read_dataset] decodes for an entry, and whether it does. *)
Definition decoded (raw_buffer : list byte) (e : DirectoryEntry) : list Z :=
  match (_read_dataset e raw_buffer).2 with
  | inr values => values
  | inl _ => []
  end.

Definition decodes (raw_buffer : list byte) (e : DirectoryEntry) : bool :=
  match (_read_dataset e raw_buffer).2 with
  | inr _ => true
  | inl _ => false
  end.

(** An entry that reaches one of the branches of the cascade of
    [iter_buffers] that set [discard_buffer]: COMMAND, ERROR, SAME, or a
    secondary tag that no earlier branch takes. *)
Definition discarding_record (secondary_tags : gset Z) (e : DirectoryEntry) : bool :=
  (tag_number e =? COMMAND_TAG) || (tag_number e =? ERROR_TAG)
  || (tag_number e =? SAME_TAG)
  || (bool_decide (tag_number e ∈ secondary_tags)
      && negb (tag_number e =? TIME_TAG) && negb (tag_number e =? NEXT_TAG)
      && negb ((RESERVED_TAG_LOW_END <=? tag_number e)
               && (tag_number e <=? RESERVED_TAG_HIGH_END))
      && negb ((tag_number e =? FILENAME_TAG) || (tag_number e =? FILEDATA_TAG))
      && negb (tag_number e =? LAST_TAG)).

(** The constraints of a filter that accept an entry. *)
Definition accepting (filters : filter_dict) (e : DirectoryEntry)
  : list (string * list Z) :=
  List.filter (fun kv => attr_in e kv.1 kv.2) filters.

(** The values a format character can decode to. *)
Definition fmt_in_range (f : fmt) (v : Z) : Prop :=
  match f with
  | Fb => -128 ≤ v < 128
  | FB => 0 ≤ v < 256
  | Fh => -32768 ≤ v < 32768
  | FH => 0 ≤ v < 65536
  | FI => 0 ≤ v < 4294967296
  | FQ => 0 ≤ v < 18446744073709551616
  end.

(** The inverse packing of [unpack]: [n] little-endian bytes of a value
    (two's complement when it is negative). *)
Fixpoint le_bytes (n : nat) (z : Z) : list byte :=
  match n with
  | O => []
  | S n' => byte_of_Z z :: le_bytes n' (z / 256)
  end.

Definition fmt_encode (f : fmt) (v : Z) : list byte :=
  le_bytes (Z.to_nat (fmt_size f)) v.

Fixpoint pack (s : list fmt) (values : list Z) : list byte :=
  match s, values with
  | f :: s', v :: values' => fmt_encode f v ++ pack s' values'
  | _, _ => []
  end.

(** [Buffer.get_tag_numbers]: the keys of the tag-indexed dict, as a set
    (the order of the keys is left out). *)
Definition get_tag_numbers (b : Buffer) : gset Z :=
  dom (dir_entries_by_tag_number b).

(** ** The tag registry of [SEAFile]: [_add_tag] and its getters

    The tag classes live in a module of their own; a tag is taken here as
    a value of any type [T] with its [tag_number] and [typ] attributes,
    and with the answer to whether [format] with the ['s'] code accepts
    it (where it does not, building the warning text raises
    [TypeError]). *)

Record registry (T : Type) := mkRegistry {
  _tags_by_tag_number : gmap Z T;
  _tags_by_typ : gmap Z (list T)
}.
Arguments mkRegistry {T}.
Arguments _tags_by_tag_number {T}.
Arguments _tags_by_typ {T}.

Definition registry_new {T : Type} : registry T := mkRegistry ∅ ∅.

(** [SEAFile._add_tag]: the registry afterwards, the tag numbers warned
    about as duplicates, and whether [TypeError] was raised. *)
Definition _add_tag {T : Type} (number typ_of : T → Z) (formats : T → bool)
    (reg : registry T) (tag : T) : registry T * list Z * bool :=
  match _tags_by_tag_number reg !! number tag with
  | Some _ =>
      if formats tag then (reg, [number tag], false) else (reg, [], true)
  | None =>
      (mkRegistry (<[number tag := tag]> (_tags_by_tag_number reg))
                  (append_at (typ_of tag) tag (_tags_by_typ reg)),
       [], false)
  end.

(** [for tag in tags: self._add_tag(tag)], as in [_parse_acqtbl]. *)
Fixpoint add_tags {T : Type} (number typ_of : T → Z) (formats : T → bool)
    (reg : registry T) (tags : list T) : registry T * list Z * bool :=
  match tags with
  | [] => (reg, [], false)
  | tag :: rest =>
      match _add_tag number typ_of formats reg tag with
      | (reg', w, true) => (reg', w, true)
      | (reg', w, false) =>
          let '(reg'', w', raised) := add_tags number typ_of formats reg' rest in
          (reg'', w ++ w', raised)
      end
  end.

(** [get_tag_by_tag_number] and [get_tags_by_typ]. *)
Definition get_tag_by_tag_number {T : Type} (reg : registry T) (n : Z) : exn + T :=
  index (_tags_by_tag_number reg) n.
Definition get_tags_by_typ {T : Type} (reg : registry T) (t : Z) : exn + list T :=
  index (_tags_by_typ reg) t.

(** The two dicts of a registry describe the same tags: a tag stored under
    a number carries that number and is in the list of its typ; a tag in
    the list of a typ carries that typ and is the one stored under its
    number; no list holds two tags with one number. *)
Definition registry_consistent {T : Type} (number typ_of : T → Z)
    (reg : registry T) : Prop :=
  (∀ n tag, _tags_by_tag_number reg !! n = Some tag →
     number tag = n
     ∧ ∃ l, _tags_by_typ reg !! typ_of tag = Some l ∧ tag ∈ l)
  ∧ (∀ k l tag, _tags_by_typ reg !! k = Some l → tag ∈ l →
       typ_of tag = k ∧ _tags_by_tag_number reg !! number tag = Some tag)
  ∧ (∀ k l, _tags_by_typ reg !! k = Some l → NoDup (number <$> l)).

(** ** The shape of what the scanner yields *)

(** [es] is a directory read off [contents] at [base]: empty, or a record
    matching the time signature (the record at [base], listed once by the
    signature test) followed by the consecutive 16-byte records from
    [base] on. *)
Definition directory_at (contents : list byte) (base : Z)
    (es : list DirectoryEntry) : Prop :=
  match es with
  | [] => True
  | e0 :: rest =>
      is_time_signature e0 = true
      ∧ new_from_raw_data contents base = Some e0
      ∧ ∀ i e, rest !! i = Some e →
          new_from_raw_data contents (base + SIZE * Z.of_nat i) = Some e
  end.

(** A yielded pair: a directory read at some [base], with the bytes from
    [base] to the end of the file, or to where the NEXT record that ends
    the directory points. *)
Definition well_shaped (contents : list byte) (rb : raw_buffer) : Prop :=
  ∃ base, 0 ≤ base ∧ directory_at contents base rb.1
    ∧ (rb.2 = slice_from contents base
       ∨ ∃ term, last rb.1 = Some term ∧ tag_number term = NEXT_TAG
           ∧ rb.2 = slice contents base (base + data_offset term)).

(** What the loop of [_raw_buffers] keeps true of its variables. *)
Definition scan_invariant (contents : list byte) (st : scan_state) : Prop :=
  0 ≤ dir_base st
  ∧ directory_at contents (dir_base st) (dir_entries st)
  ∧ if first_tag st
    then dir_entries st = [] ∧ cursor st = dir_base st
    else dir_entries st ≠ []
         ∧ cursor st = dir_base st + SIZE * (len (dir_entries st) - 1).

(** ** A whole file, decoded *)

(** The time record of a segment unpacks and its further records are
    ordinary data records that decode. *)
Definition segment_decodes (secondary_tags : gset Z) (s : segment) : bool :=
  match unpack_seatime (segment_bytes s) (data_offset (seg_first s)) with
  | inr _ => true
  | inl _ => false
  end
  && forallb (fun e => ordinary_record secondary_tags e
                       && decodes (segment_bytes s) e) (seg_records s).

(** The Buffer built from a segment: the time record added twice (the
    scanner lists it twice), then every record with its values. *)
Definition segment_buffer (s : segment) : Buffer :=
  match unpack_seatime (segment_bytes s) (data_offset (seg_first s)) with
  | inr t =>
      add_datasets Buffer_new
        ((seg_first s, DTime t) :: (seg_first s, DTime t)
         :: map (fun e => (e, DInts (decoded (segment_bytes s) e)))
              (seg_records s))
  | inl _ => Buffer_new
  end.

(** ** A whole file, decoded under a filter *)





(** * Properties *)

(** ** The [Buffer] container *)

Section buffer_facts.
Context {A : Type}.
Implicit Types (d : gmap Z (list A)) (l : list A).

Lemma append_at_lookup d k x :
  append_at k x d !! k = Some (default [] (d !! k) ++ [x]).
Proof.
  unfold append_at. destruct (d !! k) as [l|] eqn:E; simpl;
    by rewrite lookup_insert_eq.
Qed.

Lemma append_at_lookup_ne d k k' x :
  k ≠ k' → append_at k x d !! k' = d !! k'.
Proof.
  intros Hne. unfold append_at.
  destruct (d !! k); by rewrite lookup_insert_ne.
Qed.

Lemma slot_snoc l x : slot (l ++ [x]) = Some (l ++ [x]).
Proof. by destruct l. Qed.

Lemma slot_default l : default [] (slot l) = l.
Proof. by destruct l. Qed.
End buffer_facts.

Lemma add_dataset_by_tag b e ds :
  datasets_by_tag_number (add_dataset b e ds) !! tag_number e = Some ds.
Proof.
  unfold add_dataset.
  destruct (negb (tag_number e =? TIME_TAG)); simpl; apply lookup_insert_eq.
Qed.

Lemma add_dataset_entry_by_tag b e ds :
  dir_entries_by_tag_number (add_dataset b e ds) !! tag_number e = Some e.
Proof.
  unfold add_dataset.
  destruct (negb (tag_number e =? TIME_TAG)); simpl; apply lookup_insert_eq.
Qed.

(** A call with a record that is no time record appends to the lists of
    the record's typ. *)
Lemma add_dataset_by_typ b e ds :
  tag_number e ≠ TIME_TAG →
  datasets_by_typ (add_dataset b e ds) !! typ e
  = Some (default [] (datasets_by_typ b !! typ e) ++ [ds])
  ∧ dir_entries_by_typ (add_dataset b e ds) !! typ e
    = Some (default [] (dir_entries_by_typ b !! typ e) ++ [e]).
Proof.
  intros Hnt. apply Z.eqb_neq in Hnt. unfold add_dataset. rewrite Hnt. simpl.
  by rewrite !append_at_lookup.
Qed.

Lemma add_datasets_snoc b calls e ds :
  add_datasets b (calls ++ [(e, ds)]) = add_dataset (add_datasets b calls) e ds.
Proof. unfold add_datasets. by rewrite foldl_snoc. Qed.

(** The four dicts after a sequence of calls on a fresh buffer. *)
Lemma add_datasets_contents (calls : list (DirectoryEntry * dataset)) :
  let b := add_datasets Buffer_new calls in
  (∀ t, dir_entries_by_typ b !! t = slot (non_time_of_typ t calls).*1)
  ∧ (∀ t, datasets_by_typ b !! t = slot (non_time_of_typ t calls).*2)
  ∧ (∀ n, dir_entries_by_tag_number b !! n = last (with_tag n calls).*1)
  ∧ (∀ n, datasets_by_tag_number b !! n = last (with_tag n calls).*2).
Proof.
  induction calls as [|[e ds] calls IH] using rev_ind; simpl.
  { repeat split; intros; apply lookup_empty. }
  destruct IH as (IH1 & IH2 & IH3 & IH4).
  rewrite add_datasets_snoc.
  unfold non_time_of_typ, with_tag, add_dataset in *.
  repeat split; intros k; rewrite filter_app, filter_cons, filter_nil; simpl.
  - destruct (Z.eqb_spec (tag_number e) TIME_TAG) as [Ht|Ht]; simpl.
    + rewrite decide_False by tauto. rewrite app_nil_r. apply IH1.
    + destruct (decide (typ e = k)) as [->|Hk].
      * rewrite decide_True by tauto.
        rewrite append_at_lookup, IH1, slot_default, fmap_app. simpl.
        by rewrite slot_snoc.
      * rewrite decide_False by tauto. rewrite app_nil_r.
        rewrite append_at_lookup_ne by done. apply IH1.
  - destruct (Z.eqb_spec (tag_number e) TIME_TAG) as [Ht|Ht]; simpl.
    + rewrite decide_False by tauto. rewrite app_nil_r. apply IH2.
    + destruct (decide (typ e = k)) as [->|Hk].
      * rewrite decide_True by tauto.
        rewrite append_at_lookup, IH2, slot_default, fmap_app. simpl.
        by rewrite slot_snoc.
      * rewrite decide_False by tauto. rewrite app_nil_r.
        rewrite append_at_lookup_ne by done. apply IH2.
  - destruct (Z.eqb_spec (tag_number e) TIME_TAG) as [Ht|Ht]; simpl;
      (destruct (decide (tag_number e = k)) as [->|Hk];
       [ rewrite lookup_insert_eq, fmap_app; simpl; rewrite last_snoc; done
       | rewrite lookup_insert_ne by done; rewrite app_nil_r; apply IH3 ]).
  - destruct (Z.eqb_spec (tag_number e) TIME_TAG) as [Ht|Ht]; simpl;
      (destruct (decide (tag_number e = k)) as [->|Hk];
       [ rewrite lookup_insert_eq, fmap_app; simpl; rewrite last_snoc; done
       | rewrite lookup_insert_ne by done; rewrite app_nil_r; apply IH4 ]).
Qed.

Lemma with_tag_none n calls :
  (∀ call, call ∈ calls → tag_number call.1 ≠ n) → with_tag n calls = [].
Proof.
  intros Hn. unfold with_tag.
  induction calls as [|c calls IH]; [done|].
  rewrite filter_cons, decide_False by (apply Hn; left).
  apply IH. intros call Hin. apply Hn. by right.
Qed.

Lemma with_tag_last_call before e ds after :
  Forall (fun call => tag_number call.1 ≠ tag_number e) after →
  with_tag (tag_number e) (before ++ (e, ds) :: after)
  = with_tag (tag_number e) before ++ [(e, ds)].
Proof.
  intros Hafter. unfold with_tag. rewrite filter_app, filter_cons. cbn.
  rewrite decide_True by done. f_equal. f_equal.
  induction Hafter as [|c after Hc _ IH]; [done|].
  by rewrite filter_cons, decide_False.
Qed.

(** A tag number that no call carried is under no key; the last call
    with a tag number is what the tag-indexed dicts hold. *)
Lemma add_datasets_no_call calls n :
  (∀ call, call ∈ calls → tag_number call.1 ≠ n) →
  dir_entries_by_tag_number (add_datasets Buffer_new calls) !! n = None
  ∧ datasets_by_tag_number (add_datasets Buffer_new calls) !! n = None.
Proof.
  intros Hn. destruct (add_datasets_contents calls) as (_ & _ & H3 & H4).
  by rewrite H3, H4, with_tag_none.
Qed.

Lemma add_datasets_last_call before e ds after :
  Forall (fun call => tag_number call.1 ≠ tag_number e) after →
  dir_entries_by_tag_number
    (add_datasets Buffer_new (before ++ (e, ds) :: after)) !! tag_number e
  = Some e
  ∧ datasets_by_tag_number
      (add_datasets Buffer_new (before ++ (e, ds) :: after)) !! tag_number e
    = Some ds.
Proof.
  intros Hafter.
  destruct (add_datasets_contents (before ++ (e, ds) :: after))
    as (_ & _ & H3 & H4).
  rewrite H3, H4, with_tag_last_call by done.
  rewrite !fmap_app. cbn. by rewrite !last_snoc.
Qed.

(** C9.  Invariant of the Buffer container: after any sequence of
    [add_dataset] calls on a fresh buffer, no record with tag number TIME
    is in a typ-indexed list, every record added is reachable through the
    tag-indexed dicts, every record other than a time record is also in
    the typ-indexed lists of its typ, and each typ-indexed list holds
    exactly the non-time records (datasets) of that typ in the order they
    were added.  What the tag-indexed dicts hold under a tag number is
    the entry and the dataset of the last call that carried it, and
    nothing under a tag number that no call carried; so a record is
    found there itself, with its own dataset, unless a later call had
    the same tag number.  A call with a time record, on any buffer,
    stores the record and its dataset under tag number TIME and leaves
    both typ-indexed dicts as they were. *)
Theorem add_dataset_invariant (calls : list (DirectoryEntry * dataset)) :
  (∀ t es, dir_entries_by_typ (add_datasets Buffer_new calls) !! t = Some es →
           Forall (fun e => tag_number e ≠ TIME_TAG) es)
  ∧ (∀ e ds, (e, ds) ∈ calls →
       is_Some (dir_entries_by_tag_number (add_datasets Buffer_new calls)
                  !! tag_number e)
       ∧ is_Some (datasets_by_tag_number (add_datasets Buffer_new calls)
                    !! tag_number e))
  ∧ (∀ e ds, (e, ds) ∈ calls → tag_number e ≠ TIME_TAG →
       ∃ es dss,
         dir_entries_by_typ (add_datasets Buffer_new calls) !! typ e = Some es
         ∧ e ∈ es
         ∧ datasets_by_typ (add_datasets Buffer_new calls) !! typ e = Some dss
         ∧ ds ∈ dss)
  ∧ (∀ t, dir_entries_by_typ (add_datasets Buffer_new calls) !! t
          = slot (non_time_of_typ t calls).*1)
  ∧ (∀ t, datasets_by_typ (add_datasets Buffer_new calls) !! t
          = slot (non_time_of_typ t calls).*2)
  ∧ (∀ n, dir_entries_by_tag_number (add_datasets Buffer_new calls) !! n
          = last (with_tag n calls).*1)
  ∧ (∀ n, datasets_by_tag_number (add_datasets Buffer_new calls) !! n
          = last (with_tag n calls).*2)
  ∧ (∀ before e ds after,
       calls = before ++ (e, ds) :: after →
       Forall (fun call => tag_number call.1 ≠ tag_number e) after →
       dir_entries_by_tag_number (add_datasets Buffer_new calls)
         !! tag_number e = Some e
       ∧ datasets_by_tag_number (add_datasets Buffer_new calls)
           !! tag_number e = Some ds)
  ∧ (∀ n, (∀ call, call ∈ calls → tag_number call.1 ≠ n) →
       dir_entries_by_tag_number (add_datasets Buffer_new calls) !! n = None
       ∧ datasets_by_tag_number (add_datasets Buffer_new calls) !! n = None)
  ∧ (∀ b e ds, tag_number e = TIME_TAG →
       dir_entries_by_tag_number (add_dataset b e ds) !! TIME_TAG = Some e
       ∧ datasets_by_tag_number (add_dataset b e ds) !! TIME_TAG = Some ds
       ∧ dir_entries_by_typ (add_dataset b e ds) = dir_entries_by_typ b
       ∧ datasets_by_typ (add_dataset b e ds) = datasets_by_typ b).
Proof.
  destruct (add_datasets_contents calls) as (H1 & H2 & H3 & H4).
  split; [|split; [|split; [|split; [|split; [|split; [|split; [|split;
    [|split]]]]]]]].
  10:{ intros b e ds Ht. unfold add_dataset. rewrite Ht. cbn.
       by rewrite !lookup_insert_eq. }
  9:{ intros n Hn. by apply add_datasets_no_call. }
  8:{ intros before e ds after -> Hafter. by apply add_datasets_last_call. }
  7:{ apply H4. }
  6:{ apply H3. }
  all: repeat split.
  - intros t es Hes. rewrite H1 in Hes.
    assert (es = (non_time_of_typ t calls).*1) as ->.
    { destruct (non_time_of_typ t calls); simpl in *; congruence. }
    apply Forall_fmap, Forall_forall. intros [e ds] Hin.
    apply list_elem_of_filter in Hin. simpl in *. tauto.
  - rewrite H3.
    assert ((e, ds) ∈ with_tag (tag_number e) calls) as Hin.
    { apply list_elem_of_filter. done. }
    apply list_elem_of_split in Hin as (l1 & l2 & ->).
    rewrite fmap_app, fmap_cons, last_app_cons.
    destruct (last ((e, ds).1 :: l2.*1)) eqn:E; [done|].
    apply last_None in E. done.
  - rewrite H4.
    assert ((e, ds) ∈ with_tag (tag_number e) calls) as Hin.
    { apply list_elem_of_filter. done. }
    apply list_elem_of_split in Hin as (l1 & l2 & ->).
    rewrite fmap_app, fmap_cons, last_app_cons.
    destruct (last ((e, ds).2 :: l2.*2)) eqn:E; [done|].
    apply last_None in E. done.
  - intros e ds Hin Ht.
    assert ((e, ds) ∈ non_time_of_typ (typ e) calls) as Hin'.
    { apply list_elem_of_filter. done. }
    exists (non_time_of_typ (typ e) calls).*1, (non_time_of_typ (typ e) calls).*2.
    rewrite H1, H2.
    destruct (non_time_of_typ (typ e) calls) as [|c l] eqn:E.
    { by apply elem_of_nil in Hin'. }
    rewrite <- E in *. repeat split.
    + by rewrite E.
    + by apply (list_elem_of_fmap_2 fst) in Hin'.
    + by rewrite E.
    + by apply (list_elem_of_fmap_2 snd) in Hin'.
  - apply H1.
  - apply H2.
Qed.

(** The invariant on a buffer holding a time record and two records of
    one typ. *)
Lemma add_dataset_invariant_witness :
  let t := time_record 64 in
  let a := data_record 7 100 2 1 2 1 in
  let c := data_record 8 102 2 1 2 1 in
  let calls := [(t, DInts [0]); (a, DInts [1]); (c, DInts [2])] in
  dir_entries_by_typ (add_datasets Buffer_new calls) !! 1 = Some [a; c]
  ∧ dir_entries_by_typ (add_datasets Buffer_new calls) !! 0 = None
  ∧ is_Some (dir_entries_by_tag_number (add_datasets Buffer_new calls) !! 0)
  ∧ dir_entries_by_tag_number (add_datasets Buffer_new calls) !! 7 = Some a
  ∧ datasets_by_tag_number (add_datasets Buffer_new calls) !! 7
    = Some (DInts [1])
  ∧ datasets_by_tag_number (add_datasets Buffer_new calls) !! 9 = None.
Proof.
  intros t a c calls.
  destruct (add_dataset_invariant calls)
    as (_ & H2 & _ & H4 & _ & _ & _ & H8 & H9 & _).
  destruct (H8 [(t, DInts [0])] a (DInts [1]) [(c, DInts [2])] eq_refl)
    as [H8a H8b].
  { apply Forall_singleton. simpl. lia. }
  split; [|split; [|split; [|split; [|split]]]].
  - rewrite H4. reflexivity.
  - rewrite H4. reflexivity.
  - apply (H2 t (DInts [0])). unfold calls. apply list_elem_of_here.
  - exact H8a.
  - exact H8b.
  - apply H9. intros call Hin. unfold calls in Hin.
    repeat (apply elem_of_cons in Hin as [->|Hin]; [cbv; discriminate|]).
    by apply elem_of_nil in Hin.
Defined.

(** C10.  Two [add_dataset] calls whose entries share a tag number other
    than TIME: nothing is raised or warned ([add_dataset] is total), the
    tag-indexed entry and dataset are those of the second call, and the
    second call appends one more element to the typ-indexed lists of its
    typ; when the two entries also share their typ, those lists have
    grown by both, so that on a fresh buffer [get_datasets_by_typ]
    returns the two datasets while [get_dataset_by_tag_number] returns
    the later one. *)
Theorem add_dataset_duplicate_tag (b : Buffer) (e1 e2 : DirectoryEntry)
    (ds1 ds2 : dataset) :
  tag_number e1 = tag_number e2 →
  tag_number e2 ≠ TIME_TAG →
  get_dataset_by_tag_number (add_dataset (add_dataset b e1 ds1) e2 ds2)
                            (tag_number e2) = inr ds2
  ∧ get_dir_entry_by_tag_number (add_dataset (add_dataset b e1 ds1) e2 ds2)
                                (tag_number e2) = inr e2
  ∧ get_datasets_by_typ (add_dataset (add_dataset b e1 ds1) e2 ds2) (typ e2)
    = inr (default [] (datasets_by_typ (add_dataset b e1 ds1) !! typ e2)
           ++ [ds2])
  ∧ get_dir_entries_by_typ (add_dataset (add_dataset b e1 ds1) e2 ds2) (typ e2)
    = inr (default [] (dir_entries_by_typ (add_dataset b e1 ds1) !! typ e2)
           ++ [e2])
  ∧ (typ e1 = typ e2 →
     get_datasets_by_typ (add_dataset (add_dataset b e1 ds1) e2 ds2) (typ e2)
     = inr (default [] (datasets_by_typ b !! typ e2) ++ [ds1; ds2])
     ∧ get_dir_entries_by_typ (add_dataset (add_dataset b e1 ds1) e2 ds2)
                              (typ e2)
       = inr (default [] (dir_entries_by_typ b !! typ e2) ++ [e1; e2])
     ∧ get_datasets_by_typ
         (add_dataset (add_dataset Buffer_new e1 ds1) e2 ds2) (typ e2)
       = inr [ds1; ds2]
     ∧ get_dataset_by_tag_number
         (add_dataset (add_dataset Buffer_new e1 ds1) e2 ds2) (tag_number e2)
       = inr ds2).
Proof.
  intros Htag Hnt.
  assert (tag_number e1 ≠ TIME_TAG) as Hnt1 by congruence.
  unfold get_dataset_by_tag_number, get_dir_entry_by_tag_number,
    get_datasets_by_typ, get_dir_entries_by_typ, index.
  rewrite !add_dataset_by_tag, !add_dataset_entry_by_tag.
  destruct (add_dataset_by_typ (add_dataset b e1 ds1) e2 ds2 Hnt) as [A1 A2].
  destruct (add_dataset_by_typ (add_dataset Buffer_new e1 ds1) e2 ds2 Hnt)
    as [N1 _].
  rewrite A1, A2, N1.
  split; [reflexivity|]. split; [reflexivity|]. split; [reflexivity|].
  split; [reflexivity|]. intros Htyp.
  destruct (add_dataset_by_typ b e1 ds1 Hnt1) as [F1 F2].
  destruct (add_dataset_by_typ Buffer_new e1 ds1 Hnt1) as [G1 _].
  rewrite Htyp in F1, F2, G1. rewrite F1, F2, G1. simpl.
  rewrite <- !app_assoc. done.
Qed.

Lemma add_dataset_duplicate_tag_witness :
  let e1 := data_record 7 100 2 1 2 1 in
  let e2 := data_record 7 102 2 1 2 1 in
  get_datasets_by_typ
    (add_dataset (add_dataset Buffer_new e1 (DInts [1])) e2 (DInts [2])) 1
  = inr [DInts [1]; DInts [2]]
  ∧ get_dataset_by_tag_number
      (add_dataset (add_dataset Buffer_new e1 (DInts [1])) e2 (DInts [2])) 7
    = inr (DInts [2]).
Proof.
  intros e1 e2.
  destruct (add_dataset_duplicate_tag Buffer_new e1 e2 (DInts [1]) (DInts [2]))
    as (_ & _ & _ & _ & H).
  - reflexivity.
  - unfold e2, TIME_TAG. simpl. lia.
  - destruct (H eq_refl) as (_ & _ & H5 & H6).
    split; [exact H5 | exact H6].
Defined.

(** ** Floating-point division *)

Lemma round_half_even_cases n d :
  0 < d →
  round_half_even n d = n / d
  ∨ (round_half_even n d = n / d + 1 ∧ 0 < n mod d).
Proof.
  intros Hd. unfold round_half_even.
  pose proof (Z.mod_pos_bound n d Hd).
  repeat case_match; try (left; reflexivity); right; split; try reflexivity; lia.
Qed.

(** For a quotient below [2^51] the scale is large enough that a unit of
    the mantissa is at most half of [1/b]. *)
Lemma truediv_scale a b :
  0 < a < 2 ^ 51 → 0 < b →
  mant (truediv a b) = round_half_even (a * 2 ^ scale (truediv a b)) b
  ∧ 0 ≤ scale (truediv a b) ∧ 2 * b ≤ 2 ^ scale (truediv a b).
Proof.
  intros Ha Hb. unfold truediv.
  destruct (Z.eqb_spec a 0) as [|_]; [lia|].
  set (k0 := 52 - (Z.log2 a - Z.log2 b)).
  set (k := if a * 2 ^ k0 <? b * 2 ^ 52 then k0 + 1 else k0).
  simpl. split; [reflexivity|].
  assert (Z.log2 a < 51) by (apply Z.log2_lt_pow2; lia).
  pose proof (Z.log2_nonneg a). pose proof (Z.log2_nonneg b).
  assert (b < 2 ^ (Z.log2 b + 1)) by (apply Z.log2_spec; lia).
  assert (Z.log2 b + 2 ≤ k) by (unfold k, k0; case_match; lia).
  split; [lia|].
  assert (2 ^ (Z.log2 b + 2) ≤ 2 ^ k) by (apply Z.pow_le_mono_r; lia).
  replace (Z.log2 b + 2) with (Z.log2 b + 1 + 1) in * by lia.
  rewrite (Z.pow_add_r _ _ 1) in * by lia. change (2 ^ 1) with 2 in *. lia.
Qed.

(** [int(a / b)] is the integer quotient. *)
Lemma int_of_truediv a b :
  0 ≤ a < 2 ^ 51 → 0 < b → int_of_float (truediv a b) = a / b.
Proof.
  intros Ha Hb.
  destruct (Z.eq_dec a 0) as [->|Hne].
  { unfold truediv. simpl. reflexivity. }
  destruct (truediv_scale a b) as (Hm & Hk & HP); [lia|lia|].
  unfold int_of_float. rewrite Hm.
  set (P := 2 ^ scale (truediv a b)) in *.
  assert (0 < P) by lia.
  pose proof (Z.div_mod a b ltac:(lia)) as Hdiv.
  pose proof (Z.mod_pos_bound a b Hb) as Hmod.
  set (Q := a / b) in *. set (R := a mod b) in *.
  pose proof (Z.div_mod (a * P) b ltac:(lia)) as Hdiv'.
  pose proof (Z.mod_pos_bound (a * P) b Hb) as Hmod'.
  assert (Q * P ≤ a * P / b) by (apply Z.div_le_lower_bound; nia).
  assert (a * P / b ≤ (Q + 1) * P - 2).
  { assert (a * P / b < (Q + 1) * P - 1); [|lia].
    apply Z.div_lt_upper_bound; nia. }
  symmetry. apply (Z.div_unique_pos _ _ _ (round_half_even (a * P) b - Q * P)).
  - destruct (round_half_even_cases (a * P) b Hb) as [->|[-> _]]; lia.
  - lia.
Qed.

(** [math.ceil(a / b)] is the integer quotient rounded up. *)
Lemma ceil_of_truediv a b :
  0 ≤ a < 2 ^ 51 → 0 < b → ceil_of_float (truediv a b) = (a + b - 1) / b.
Proof.
  intros Ha Hb.
  destruct (Z.eq_dec a 0) as [->|Hne].
  { unfold truediv, ceil_of_float. simpl. symmetry. apply Z.div_small. lia. }
  destruct (truediv_scale a b) as (Hm & Hk & HP); [lia|lia|].
  unfold ceil_of_float. rewrite Hm.
  set (P := 2 ^ scale (truediv a b)) in *.
  assert (0 < P) by lia.
  pose proof (Z.div_mod (a + b - 1) b ltac:(lia)) as Hdiv.
  pose proof (Z.mod_pos_bound (a + b - 1) b Hb) as Hmod.
  set (C := (a + b - 1) / b) in *. set (R := (a + b - 1) mod b) in *.
  pose proof (Z.div_mod (a * P) b ltac:(lia)) as Hdiv'.
  pose proof (Z.mod_pos_bound (a * P) b Hb) as Hmod'.
  set (n := round_half_even (a * P) b).
  assert ((C - 1) * P < n ≤ C * P) as Hn.
  { unfold n.
    destruct (round_half_even_cases (a * P) b Hb) as [->|[-> Hpos]].
    - split.
      + destruct (Z.eq_dec R (b - 1)) as [HR|HR].
        * assert (a * P = C * P * b) as -> by nia.
          rewrite Z.div_mul by lia. nia.
        * assert ((C - 1) * P + 1 ≤ a * P / b); [|lia].
          apply Z.div_le_lower_bound; nia.
      + assert (a * P / b < C * P + 1); [|lia].
        apply Z.div_lt_upper_bound; nia.
    - destruct (Z.eq_dec R (b - 1)) as [HR|HR].
      { assert (a * P = C * P * b) as Heq by nia.
        rewrite Heq, Z.mod_mul in Hpos by lia. lia. }
      split.
      + assert ((C - 1) * P ≤ a * P / b); [|lia].
        apply Z.div_le_lower_bound; nia.
      + assert (a * P / b < C * P); [|lia].
        apply Z.div_lt_upper_bound; nia. }
  assert ((- n) / P = - C); [|lia].
  symmetry. apply (Z.div_unique_pos _ _ _ (C * P - n)); lia.
Qed.

(** ** The time codec *)

Lemma datetime_new_microsecond y mo d h mi s us dt :
  datetime_new y mo d h mi s us = inr dt →
  dt = mkDatetime y mo d h mi s us.
Proof. unfold datetime_new. repeat case_match; congruence. Qed.

Lemma datetime_new_valid y mo d h mi s us :
  (∃ dt, datetime_new y mo d h mi s 0 = inr dt) →
  0 ≤ us < 1000000 →
  datetime_new y mo d h mi s us = inr (mkDatetime y mo d h mi s us).
Proof.
  intros [dt Hdt] Hus. unfold datetime_new, fits_c_int in *.
  cbn [forallb] in *.
  match type of Hdt with
  | (if negb ?c then _ else _) = _ => destruct c eqn:E0; [|done]
  end.
  cbn [negb] in Hdt.
  match type of Hdt with
  | (if ?c then _ else _) = _ => destruct c eqn:E; [|done]
  end.
  rewrite !andb_true_iff in *. rewrite !Z.leb_le in *.
  match goal with
  | |- (if negb ?c then _ else _) = _ => replace c with true
  end.
  2:{ symmetry. rewrite !andb_true_iff, !Z.leb_le. intuition lia. }
  cbn [negb].
  match goal with
  | |- (if ?c then _ else _) = _ => replace c with true; [done|]
  end.
  symmetry. rewrite !andb_true_iff, !Z.leb_le. intuition lia.
Qed.

(** C7.  For a time record with 16-bit [fraction_of_second] and a nonzero
    16-bit [max_sys_freq], [datetime_from_seatime] builds the datetime
    whose microsecond is [floor(1000000 * fraction_of_second /
    max_sys_freq)] in exact integer arithmetic: that is the microsecond of
    any timestamp it returns, it does return one when the calendar fields
    are valid and the fraction is below the frequency, and the record
    (2019, 3, 1, 10, 0, 0, 5000, 10000, 0) decodes from its 18 bytes to
    2019-03-01T10:00:00 with microsecond 500000. *)
Theorem datetime_from_seatime_microsecond (t : SEATime) :
  0 ≤ fraction_of_second t < 65536 →
  0 < max_sys_freq t < 65536 →
  datetime_from_seatime t
  = datetime_new (year t) (month t) (day t) (hour t) (minute t) (second t)
                 (1000000 * fraction_of_second t / max_sys_freq t)
  ∧ (∀ dt, datetime_from_seatime t = inr dt →
           dt_microsecond dt = 1000000 * fraction_of_second t / max_sys_freq t)
  ∧ (calendar_valid t = true → fraction_of_second t < max_sys_freq t →
     datetime_from_seatime t
     = inr (mkDatetime (year t) (month t) (day t) (hour t) (minute t) (second t)
              (1000000 * fraction_of_second t / max_sys_freq t)))
  ∧ datetime_from_raw_seatime
      (pack_seatime (mkSEATime 2019 3 1 10 0 0 5000 10000 0)) 0
    = inr (mkDatetime 2019 3 1 10 0 0 500000).
Proof.
  intros Hfrac Hfreq.
  assert (datetime_from_seatime t
          = datetime_new (year t) (month t) (day t) (hour t) (minute t) (second t)
              (1000000 * fraction_of_second t / max_sys_freq t)) as Heq.
  { unfold datetime_from_seatime.
    destruct (Z.eqb_spec (max_sys_freq t) 0) as [|_]; [lia|].
    rewrite int_of_truediv; [reflexivity| |lia].
    change (2 ^ 51) with 2251799813685248. lia. }
  split; [exact Heq|]. split; [|split].
  - intros dt Hdt. rewrite Heq in Hdt.
    apply datetime_new_microsecond in Hdt. by subst dt.
  - intros Hcal Hlt. rewrite Heq. apply datetime_new_valid.
    + unfold calendar_valid in Hcal. case_match; [done|]. by eexists.
    + split; [apply Z.div_pos; lia|]. apply Z.div_lt_upper_bound; lia.
  - vm_compute. reflexivity.
Qed.

Lemma datetime_from_seatime_microsecond_witness :
  datetime_from_seatime (mkSEATime 2019 3 1 10 0 0 5000 10000 0)
  = inr (mkDatetime 2019 3 1 10 0 0 500000).
Proof.
  destruct (datetime_from_seatime_microsecond
              (mkSEATime 2019 3 1 10 0 0 5000 10000 0)) as (_ & _ & H & _).
  - simpl. lia.
  - simpl. lia.
  - apply H; [reflexivity | simpl; lia].
Defined.

(** ** The acquisition-type dispatch *)

(** C6 as stated fails for type 78: the per-sample format is 4096 unsigned
    bytes and one more unsigned 16-bit integer, so one sample of a 4098-byte
    buffer decodes to 4097 values, and a record that declares 4096 bytes
    per sample at the end of its buffer cannot be unpacked. *)
Lemma type78_layout_counterexample :
  sample_string (data_record 7 0 4096 1 4096 78) ≠ Some ([], replicate 4096 FB)
  ∧ (∃ vs, _read_dataset (data_record 7 0 4096 1 4096 78) (zeros 4098)
           = ([], inr vs) ∧ length vs = 4097%nat)
  ∧ _read_dataset (data_record 7 0 4096 1 4096 78) (zeros 4096)
    = ([], inl StructError).
Proof.
  split; [|split].
  - intros H. apply (f_equal (fun o => length <$> (snd <$> o))) in H.
    vm_compute in H. discriminate.
  - eexists. split; [vm_compute; reflexivity|]. vm_compute. reflexivity.
  - vm_compute. reflexivity.
Qed.

(** C6, amended.  The per-sample formats of the dispatch: type 1 is one
    signed 16-bit integer; type 2 twenty unsigned 16-bit integers and two
    signed bytes; type 5 1024 unsigned 32-bit integers; type 66
    [ceil(bytes_per_sample / 16)] pairs of unsigned 64-bit integers, with
    a warning (and no error) exactly when [bytes_per_sample] is not a
    multiple of 16; type 78 4096 unsigned bytes followed by one unsigned
    16-bit integer. *)
Theorem sample_string_layouts (e : DirectoryEntry) :
  0 ≤ bytes_per_sample e < 65536 →
  (typ e = 1 → sample_string e = Some ([], [Fh]))
  ∧ (typ e = 2 → sample_string e = Some ([], replicate 20 FH ++ [Fb; Fb]))
  ∧ (typ e = 5 → sample_string e = Some ([], replicate 1024 FI))
  ∧ (typ e = 66 →
     sample_string e
     = Some (if decide (bytes_per_sample e mod 16 = 0) then []
             else [WarnGreySampleSize (bytes_per_sample e)],
             concat (replicate (Z.to_nat ((bytes_per_sample e + 15) / 16))
                               [FQ; FQ])))
  ∧ (typ e = 78 → sample_string e = Some ([], replicate 4096 FB ++ [FH])).
Proof.
  intros Hbps. unfold sample_string.
  split; [|split; [|split; [|split]]]; intros ->; simpl.
  - reflexivity.
  - reflexivity.
  - reflexivity.
  - rewrite ceil_of_truediv; [|change (2 ^ 51) with 2251799813685248; lia|lia].
    replace (bytes_per_sample e + 16 - 1) with (bytes_per_sample e + 15) by lia.
    unfold str_mul.
    destruct (Z.eqb_spec (bytes_per_sample e mod 16) 0);
      case_decide; try done.
  - reflexivity.
Qed.

Lemma sample_string_layouts_witness :
  sample_string (data_record 7 0 66 2 33 66)
  = Some ([WarnGreySampleSize 33], [FQ; FQ; FQ; FQ; FQ; FQ]).
Proof.
  destruct (sample_string_layouts (data_record 7 0 66 2 33 66))
    as (_ & _ & _ & H & _).
  - simpl. lia.
  - rewrite H; reflexivity.
Defined.

(** ** Bounds validation in [_read_dataset] *)

(** C3 as stated fails on both sides of the boundary.  A type-1 record
    (one 16-bit integer per sample) declaring one sample of one byte that
    ends exactly at the end of a one-byte buffer passes the check and then
    fails to unpack; a type-1 record declaring one sample of three bytes but
    only two bytes in all, on a two-byte buffer, is one past the end yet
    is only warned about (the check on the end is the [elif] of the check
    on [number_of_bytes]) and decodes. *)
Lemma payload_boundary_counterexample :
  (data_offset (data_record 7 0 1 1 1 1)
   + samples (data_record 7 0 1 1 1 1) * bytes_per_sample (data_record 7 0 1 1 1 1)
   = len (zeros 1)
   ∧ _read_dataset (data_record 7 0 1 1 1 1) (zeros 1) = ([], inl StructError))
  ∧ (data_offset (data_record 7 0 2 1 3 1)
     + samples (data_record 7 0 2 1 3 1) * bytes_per_sample (data_record 7 0 2 1 3 1)
     = len (zeros 2) + 1
     ∧ _read_dataset (data_record 7 0 2 1 3 1) (zeros 2)
       = ([WarnFewerBytes 2 3], inr [0])).
Proof. repeat split. Qed.

(** C3, amended.  For a record of a known acquisition type, with
    [expected_size = samples * bytes_per_sample]: when
    [data_offset + expected_size] equals the length of the raw buffer and
    the format of the type, repeated [samples] times, takes no more than
    [expected_size] bytes, the record decodes without an exception; when
    [number_of_bytes] is at least [expected_size] and
    [data_offset + expected_size] is one more than the length of the raw
    buffer, [ValueError] is raised for that record. *)
Theorem read_dataset_boundary (e : DirectoryEntry) (raw_buffer : list byte)
    (w : list warning) (s : list fmt) :
  sample_string e = Some (w, s) →
  (data_offset e + samples e * bytes_per_sample e = len raw_buffer →
   calcsize (str_mul s (samples e)) ≤ samples e * bytes_per_sample e →
   ∃ w' values, _read_dataset e raw_buffer = (w', inr values))
  ∧ (samples e * bytes_per_sample e ≤ number_of_bytes e →
     data_offset e + samples e * bytes_per_sample e = len raw_buffer + 1 →
     ∃ w', _read_dataset e raw_buffer = (w', inl ValueError)).
Proof.
  intros Hs. unfold _read_dataset. rewrite Hs. split.
  - intros Hend Hfit. unfold _read_dataset_raw, unpack_from.
    destruct (Z.ltb_spec (number_of_bytes e) (samples e * bytes_per_sample e)).
    + destruct (Z.ltb_spec (len raw_buffer - data_offset e)
                           (calcsize (str_mul s (samples e)))); [lia|].
      by eexists _, _.
    + destruct (Z.ltb_spec (len raw_buffer)
                           (data_offset e + samples e * bytes_per_sample e));
        [lia|].
      destruct (Z.ltb_spec (len raw_buffer - data_offset e)
                           (calcsize (str_mul s (samples e)))); [lia|].
      by eexists _, _.
  - intros Hnb Hend.
    destruct (Z.ltb_spec (number_of_bytes e) (samples e * bytes_per_sample e));
      [lia|].
    destruct (Z.ltb_spec (len raw_buffer)
                         (data_offset e + samples e * bytes_per_sample e));
      [|lia].
    by eexists.
Qed.

Lemma read_dataset_boundary_witness :
  (∃ w' values,
     _read_dataset (data_record 7 2 4 2 2 1) (zeros 6) = (w', inr values))
  ∧ (∃ w', _read_dataset (data_record 7 3 4 2 2 1) (zeros 6)
           = (w', inl ValueError)).
Proof.
  split.
  - destruct (read_dataset_boundary (data_record 7 2 4 2 2 1) (zeros 6) [] [Fh])
      as [H _]; [reflexivity|].
    apply H; [reflexivity | vm_compute; discriminate].
  - destruct (read_dataset_boundary (data_record 7 3 4 2 2 1) (zeros 6) [] [Fh])
      as [_ H]; [reflexivity|].
    apply H; [vm_compute; discriminate | reflexivity].
Defined.

(** ** Validation of the filter *)

Lemma dict_del_length (k : string) (filters : filter_dict) :
  k ∈ filters.*1 → (length (dict_del k filters) < length filters)%nat.
Proof.
  unfold dict_del. induction filters as [|[k' v] filters IH].
  { intros H. by apply elem_of_nil in H. }
  intros H. rewrite filter_cons. rewrite fmap_cons in H. simpl in *.
  destruct (decide (k' ≠ k)) as [Hne|Heq]; simpl.
  - apply elem_of_cons in H as [->|H]; [done|]. specialize (IH H). lia.
  - pose proof (length_filter (fun kv : string * list Z => kv.1 ≠ k) filters).
    lia.
Qed.

(** Once the dictionary has shrunk, the next step of the iterator raises. *)
Lemma remove_invalid_loop_shrunk used keys filters warns :
  length filters ≠ used →
  remove_invalid_loop used keys filters warns = (warns, filters, Some RuntimeError).
Proof.
  intros Hne. apply Nat.eqb_neq in Hne.
  destruct keys; simpl; by rewrite Hne.
Qed.

Lemma remove_invalid_loop_raises used keys filters warns :
  length filters = used →
  (∀ k, k ∈ keys → k ∈ filters.*1) →
  (∃ k, k ∈ keys ∧ hasattr k = false) →
  (remove_invalid_loop used keys filters warns).2 = Some RuntimeError.
Proof.
  revert warns. induction keys as [|k keys IH]; intros warns Hlen Hsub [k0 [Hin Hbad]].
  { by apply elem_of_nil in Hin. }
  simpl. rewrite Hlen, Nat.eqb_refl. simpl.
  destruct (hasattr k) eqn:Hk; simpl.
  - apply IH; [done| |].
    + intros k' Hk'. apply Hsub. by right.
    + exists k0. apply elem_of_cons in Hin as [->|Hin]; [congruence|done].
  - rewrite remove_invalid_loop_shrunk; [done|].
    assert (k ∈ filters.*1) as Hkin by (apply Hsub; left).
    pose proof (dict_del_length k filters Hkin). lia.
Qed.

(** C8 fails on the code: a filter with a name that is not an attribute
    of DirectoryEntry makes [_raw_buffers] raise [RuntimeError] before any
    record is read, whatever the file: the name is deleted from the
    dictionary inside the loop over [filters.keys()], and the next step of
    that loop finds the size of the dictionary changed.  No buffer is
    yielded. *)
Theorem invalid_filter_name_aborts (fuel : nat) (contents : list byte)
    (filters : filter_dict) :
  (∃ k, k ∈ filters.*1 ∧ hasattr k = false) →
  ∃ warns filters',
    _raw_buffers fuel contents filters
    = (warns, [], Raised RuntimeError, filters').
Proof.
  intros Hbad. unfold _raw_buffers.
  pose proof (remove_invalid_loop_raises (length filters) filters.*1 filters []
                eq_refl (fun _ H => H) Hbad) as Hr.
  unfold remove_invalid_filters.
  change (map fst filters) with (filters.*1).
  destruct (remove_invalid_loop (length filters) filters.*1 filters [])
    as [[warns filters'] o].
  simpl in Hr. subst o. by eexists _, _.
Qed.

Lemma invalid_filter_name_aborts_witness :
  ∃ warns filters',
    _raw_buffers 100
      (pack_entry (time_record 32) ++ pack_entry last_record ++ zeros 36)
      [("tag_number"%string, [7]); ("no_such_attribute"%string, [1])]
    = (warns, [], Raised RuntimeError, filters').
Proof.
  apply invalid_filter_name_aborts.
  exists "no_such_attribute"%string. split; [|reflexivity].
  apply list_elem_of_In. simpl. tauto.
Defined.

(** ** Reading packed records *)

Lemma byte_val_of_Z z : byte_val (byte_of_Z z) = z mod 256.
Proof.
  unfold byte_val, byte_of_Z.
  pose proof (Z.mod_pos_bound z 256 ltac:(lia)) as Hr.
  destruct (Byte.of_N (Z.to_N (z mod 256))) as [b|] eqn:E.
  - apply Byte.to_of_N in E. rewrite E. lia.
  - apply Byte.of_N_None_iff in E. lia.
Qed.

Lemma le_unsigned_pack_u16 z : u16 z = true → le_unsigned (pack_u16 z) = z.
Proof.
  unfold u16. rewrite andb_true_iff, Z.leb_le, Z.ltb_lt. intros Hz.
  unfold pack_u16, le_unsigned. rewrite !byte_val_of_Z.
  rewrite (Z.mod_small (z / 256)).
  - pose proof (Z.div_mod z 256 ltac:(lia)). lia.
  - split; [apply Z.div_pos; lia | apply Z.div_lt_upper_bound; lia].
Qed.

Lemma le_unsigned_pack_u16_eq z :
  u16 z = true →
  byte_val (byte_of_Z z) + 256 * (byte_val (byte_of_Z (z / 256)) + 256 * 0) = z.
Proof. apply le_unsigned_pack_u16. Qed.

Lemma byte_val_pack_u8 z : u8 z = true → byte_val (byte_of_Z z) = z.
Proof.
  unfold u8. rewrite andb_true_iff, Z.leb_le, Z.ltb_lt. intros Hz.
  rewrite byte_val_of_Z. apply Z.mod_small. lia.
Qed.

Lemma len_app {A} (l k : list A) : len (l ++ k) = len l + len k.
Proof. unfold len. rewrite length_app. lia. Qed.

Lemma len_pack_entry e : len (pack_entry e) = 16.
Proof. reflexivity. Qed.

Lemma len_nonneg {A} (l : list A) : 0 ≤ len l.
Proof. unfold len. lia. Qed.

(** A packed record is read back where it lies. *)
Lemma new_from_raw_data_pack pre e post :
  wf_entry e = true →
  new_from_raw_data (pre ++ pack_entry e ++ post) (len pre) = Some e.
Proof.
  intros Hwf. unfold new_from_raw_data.
  rewrite !len_app, len_pack_entry.
  pose proof (len_nonneg post).
  destruct (Z.ltb_spec (len pre + (16 + len post) - len pre) SIZE) as [Hlt|_].
  { unfold SIZE in Hlt. lia. }
  unfold len at 1. rewrite Nat2Z.id, drop_app_length.
  unfold wf_entry in Hwf. rewrite !andb_true_iff in Hwf.
  destruct Hwf as (((((((((H0 & H1) & H2) & H3) & H4) & H5) & H6) & H7) & H8) & H9).
  destruct e as [f0 f1 f2 f3 f4 f5 f6 f7 f8 f9]. simpl in *.
  change (pack_entry (mkDirectoryEntry f0 f1 f2 f3 f4 f5 f6 f7 f8 f9) ++ post)
    with (byte_of_Z f0 :: byte_of_Z (f0 / 256) :: byte_of_Z f1
          :: byte_of_Z (f1 / 256) :: byte_of_Z f2 :: byte_of_Z (f2 / 256)
          :: byte_of_Z f3 :: byte_of_Z (f3 / 256) :: byte_of_Z f4
          :: byte_of_Z (f4 / 256) :: byte_of_Z f5 :: byte_of_Z f6
          :: byte_of_Z f7 :: byte_of_Z f8 :: byte_of_Z f9
          :: byte_of_Z (f9 / 256) :: post).
  cbv beta iota.
  rewrite !le_unsigned_pack_u16_eq, !byte_val_pack_u8 by assumption.
  reflexivity.
Qed.

(** ** Passes of the scanner's loop *)

Lemma runs_step contents F st st1 ys :
  reached_end st = false →
  loop_body contents F st = inr (st1, ys) →
  runs contents F 1 st ys st1.
Proof. intros Hre Hb fuel. simpl. rewrite Hre, Hb. reflexivity. Qed.

Lemma runs_refl contents F st : runs contents F 0 st [] st.
Proof. intros fuel. simpl. by destruct (raw_buffers_loop _ _ _ _). Qed.

Lemma runs_trans contents F k1 k2 st st1 st2 ys1 ys2 :
  runs contents F k1 st ys1 st1 →
  runs contents F k2 st1 ys2 st2 →
  runs contents F (k1 + k2) st (ys1 ++ ys2) st2.
Proof.
  intros H1 H2 fuel. rewrite <- Nat.add_assoc, H1, H2.
  destruct (raw_buffers_loop fuel contents F st2). by rewrite app_assoc.
Qed.

Lemma plain_record_spec e :
  plain_record e = true →
  wf_entry e = true ∧ tag_number e ≠ NEXT_TAG ∧ tag_number e ≠ LAST_TAG.
Proof.
  unfold plain_record. rewrite !andb_true_iff, !negb_true_iff, !Z.eqb_neq. tauto.
Qed.

(** The cascade on a record that ends no buffer. *)
Lemma classify_plain contents F c t base es drop e :
  tag_number e ≠ NEXT_TAG → tag_number e ≠ LAST_TAG →
  classify contents F (mkScan c t base es drop false false) e
  = (mkScan (c + SIZE) t base (es ++ [e]) (filter_check F drop e) false false, []).
Proof.
  intros Hn Hl. unfold classify. simpl.
  apply Z.eqb_neq in Hn, Hl. rewrite Hn, Hl.
  destruct (tag_number e =? TIME_TAG); [reflexivity|].
  destruct ((RESERVED_TAG_LOW_END <=? tag_number e)
            && (tag_number e <=? RESERVED_TAG_HIGH_END)); [reflexivity|].
  destruct (tag_number e =? FILENAME_TAG); [reflexivity|].
  destruct (tag_number e =? FILEDATA_TAG); reflexivity.
Qed.

Lemma classify_next contents F c t base es drop e :
  tag_number e = NEXT_TAG →
  classify contents F (mkScan c t base es drop false false) e
  = (mkScan (base + data_offset e) t (base + data_offset e) []
            (filter_check F (nonempty F) e) false true,
     if drop then [] else [(es ++ [e], slice contents base (base + data_offset e))]).
Proof. intros Hn. unfold classify. simpl. rewrite Hn. reflexivity. Qed.

Lemma classify_last contents F c t base es drop e :
  tag_number e = LAST_TAG →
  classify contents F (mkScan c t base es drop false false) e
  = (mkScan (c + SIZE) t base (es ++ [e]) (filter_check F drop e) true false,
     [(es ++ [e], slice_from contents base)]).
Proof. intros Hn. unfold classify. simpl. rewrite Hn. reflexivity. Qed.

Lemma classify_first contents F c t base es drop e :
  classify contents F (mkScan c t base es drop false true) e
  = if is_time_signature e
    then (mkScan c t base (es ++ [e]) drop false false, [])
    else (mkScan (c + 1) (t + 1) (c + 1) [] drop false true, []).
Proof. reflexivity. Qed.

Lemma len_contents (A B : list byte) (e : DirectoryEntry) :
  len (A ++ pack_entry e ++ B) = len A + 16 + len B.
Proof. rewrite !len_app, len_pack_entry. lia. Qed.

(** Signature test passed: the cursor stays. *)
Lemma pass_first F A B e (Hwf : wf_entry e = true) t base es drop :
  is_time_signature e = true → 0 < len B →
  runs (A ++ pack_entry e ++ B) F 1
       (mkScan (len A) t base es drop false true) []
       (mkScan (len A) t base (es ++ [e]) drop false false).
Proof.
  intros Hsig HB. apply runs_step; [reflexivity|].
  pose proof (len_contents A B e) as Hlen.
  unfold loop_body. simpl cursor.
  rewrite new_from_raw_data_pack by done.
  set (contents := A ++ pack_entry e ++ B) in *. clearbody contents.
  rewrite classify_first, Hsig. simpl.
  rewrite Hlen. unfold SIZE.
  destruct (Z.leb_spec (len A + 16 + len B - 16) (len A)); [lia|done].
Qed.

Lemma pass_plain F A B e (Hwf : wf_entry e = true) t base es drop :
  plain_record e = true → 16 < len B →
  runs (A ++ pack_entry e ++ B) F 1
       (mkScan (len A) t base es drop false false) []
       (mkScan (len A + 16) t base (es ++ [e]) (filter_check F drop e)
               false false).
Proof.
  intros Hp HB. apply plain_record_spec in Hp as (_ & Hn & Hl).
  apply runs_step; [reflexivity|].
  pose proof (len_contents A B e) as Hlen.
  unfold loop_body. simpl cursor.
  rewrite new_from_raw_data_pack by done.
  set (contents := A ++ pack_entry e ++ B) in *. clearbody contents.
  rewrite classify_plain by done. simpl.
  rewrite Hlen. unfold SIZE.
  destruct (Z.leb_spec (len A + 16 + len B - 16) (len A + 16)); [lia|done].
Qed.

Lemma pass_next F A B e (Hwf : wf_entry e = true) t base es drop :
  tag_number e = NEXT_TAG →
  base + data_offset e < len (A ++ pack_entry e ++ B) - 16 →
  runs (A ++ pack_entry e ++ B) F 1
       (mkScan (len A) t base es drop false false)
       (if drop then []
        else [(es ++ [e],
               slice (A ++ pack_entry e ++ B) base (base + data_offset e))])
       (mkScan (base + data_offset e) t (base + data_offset e) []
               (filter_check F (nonempty F) e) false true).
Proof.
  intros Hn Hc. apply runs_step; [reflexivity|].
  pose proof (len_contents A B e) as Hlen.
  unfold loop_body. simpl cursor.
  rewrite new_from_raw_data_pack by done.
  set (contents := A ++ pack_entry e ++ B) in *. clearbody contents.
  rewrite classify_next by done. simpl.
  unfold SIZE.
  destruct (Z.leb_spec (len contents - 16) (base + data_offset e));
    [lia|done].
Qed.

Lemma pass_last F A B e (Hwf : wf_entry e = true) t base es drop :
  tag_number e = LAST_TAG → 16 < len B →
  runs (A ++ pack_entry e ++ B) F 1
       (mkScan (len A) t base es drop false false)
       [(es ++ [e], slice_from (A ++ pack_entry e ++ B) base)]
       (mkScan (len A + 16) t base (es ++ [e]) (filter_check F drop e)
               true false).
Proof.
  intros Hn HB. apply runs_step; [reflexivity|].
  pose proof (len_contents A B e) as Hlen.
  unfold loop_body. simpl cursor.
  rewrite new_from_raw_data_pack by done.
  set (contents := A ++ pack_entry e ++ B) in *. clearbody contents.
  rewrite classify_last by done. simpl.
  rewrite Hlen. unfold SIZE.
  destruct (Z.leb_spec (len A + 16 + len B - 16) (len A + 16)); [lia|done].
Qed.

Lemma runs_then contents F k1 k2 st st1 st2 ys :
  runs contents F k1 st [] st1 →
  runs contents F k2 st1 ys st2 →
  runs contents F (k1 + k2) st ys st2.
Proof. intros H1 H2. apply (runs_trans _ _ _ _ _ _ _ [] ys H1 H2). Qed.

Lemma len_flat_map_pack recs :
  len (flat_map pack_entry recs) = 16 * len recs.
Proof.
  induction recs as [|r recs IH]; [reflexivity|].
  change (flat_map pack_entry (r :: recs))
    with (pack_entry r ++ flat_map pack_entry recs).
  rewrite len_app, len_pack_entry, IH. unfold len. simpl length. lia.
Qed.

(** The records of a directory between the first and the terminating one
    are walked at a stride of 16 bytes. *)
Lemma walk_records F recs : ∀ A B t base es drop,
  forallb plain_record recs = true → 16 < len B →
  runs (A ++ flat_map pack_entry recs ++ B) F (length recs)
       (mkScan (len A) t base es drop false false) []
       (mkScan (len A + 16 * len recs) t base (es ++ recs)
               (drop_after F drop recs) false false).
Proof.
  induction recs as [|r recs IH]; intros A B t base es drop Hp HB.
  { simpl. replace (len A + 16 * len []) with (len A) by (unfold len; simpl; lia).
    rewrite app_nil_r. apply runs_refl. }
  simpl in Hp. apply andb_true_iff in Hp as [Hr Hp].
  pose proof (plain_record_spec r Hr) as (Hwf & _).
  change (flat_map pack_entry (r :: recs))
    with (pack_entry r ++ flat_map pack_entry recs).
  rewrite <- (app_assoc (pack_entry r)).
  change (length (r :: recs)) with (1 + length recs)%nat.
  eapply runs_then.
  - apply pass_plain; [done|done|].
    rewrite len_app, len_flat_map_pack. pose proof (len_nonneg recs). lia.
  - specialize (IH (A ++ pack_entry r) B t base (es ++ [r])
                   (filter_check F drop r) Hp HB).
    rewrite <- app_assoc in IH. rewrite len_app, len_pack_entry in IH.
    replace (len A + 16 * len (r :: recs)) with (len A + 16 + 16 * len recs)
      by (unfold len; simpl length; lia).
    rewrite <- app_assoc in IH. simpl in IH. exact IH.
Qed.

Lemma slice_middle (pre mid post : list byte) :
  slice (pre ++ mid ++ post) (len pre) (len pre + len mid) = mid.
Proof.
  unfold slice, len.
  replace (Z.to_nat (Z.of_nat (length pre) + Z.of_nat (length mid)))
    with (length (pre ++ mid)) by (rewrite length_app; lia).
  rewrite app_assoc, take_app_length, Nat2Z.id, drop_app_length. reflexivity.
Qed.

Lemma slice_from_app (pre rest : list byte) :
  slice_from (pre ++ rest) (len pre) = rest.
Proof. unfold slice_from, len. by rewrite Nat2Z.id, drop_app_length. Qed.

Lemma segment_ok_spec s :
  segment_ok s = true →
  wf_entry (seg_first s) = true ∧ is_time_signature (seg_first s) = true
  ∧ forallb plain_record (seg_records s) = true ∧ wf_entry (seg_term s) = true.
Proof. unfold segment_ok. rewrite !andb_true_iff. tauto. Qed.

Lemma time_signature_plain e :
  wf_entry e = true → is_time_signature e = true → plain_record e = true.
Proof.
  unfold is_time_signature, plain_record. rewrite !andb_true_iff.
  intros -> [[[Ht _] _] _]. apply Z.eqb_eq in Ht. rewrite Ht. done.
Qed.

Lemma len_segment_bytes s :
  len (segment_bytes s) = 32 + 16 * len (seg_records s) + len (seg_payload s).
Proof.
  unfold segment_bytes.
  rewrite !len_app, !len_pack_entry, len_flat_map_pack. lia.
Qed.

(** The directory of a segment, up to its terminating record. *)
Lemma scan_directory F pre s post t drop :
  segment_ok s = true →
  16 < len (seg_payload s ++ post) →
  runs (pre ++ segment_bytes s ++ post) F (2 + length (seg_records s))
       (mkScan (len pre) t (len pre) [] drop false true) []
       (mkScan (len pre + 16 + 16 * len (seg_records s)) t (len pre)
               (seg_first s :: seg_first s :: seg_records s)
               (drop_after F drop (seg_first s :: seg_records s)) false false).
Proof.
  intros Hok Hrest.
  apply segment_ok_spec in Hok as (Hwf1 & Hsig & Hrecs & Hwf2).
  unfold segment_bytes.
  set (R := flat_map pack_entry (seg_records s)).
  set (T := pack_entry (seg_term s) ++ seg_payload s ++ post).
  replace (pre ++ (pack_entry (seg_first s) ++ R ++ pack_entry (seg_term s)
                   ++ seg_payload s) ++ post)
    with (pre ++ pack_entry (seg_first s) ++ (R ++ T))
    by (unfold T; by rewrite <- !app_assoc).
  assert (len T = 16 + len (seg_payload s ++ post)) as HT
    by (unfold T; by rewrite len_app, len_pack_entry).
  pose proof (len_nonneg R).
  change (2 + length (seg_records s))%nat
    with (1 + (1 + length (seg_records s)))%nat.
  eapply runs_then; [|eapply runs_then].
  - apply pass_first; [done|done|]. rewrite len_app. lia.
  - apply pass_plain; [done| |].
    + by apply time_signature_plain.
    + rewrite len_app. lia.
  - pose proof (walk_records F (seg_records s) (pre ++ pack_entry (seg_first s))
                  T t (len pre) [seg_first s; seg_first s]
                  (filter_check F drop (seg_first s)) Hrecs ltac:(lia)) as Hw.
    rewrite <- app_assoc in Hw. rewrite len_app, len_pack_entry in Hw.
    exact Hw.
Qed.

Lemma segment_split pre s post :
  pre ++ segment_bytes s ++ post
  = (pre ++ pack_entry (seg_first s) ++ flat_map pack_entry (seg_records s))
    ++ pack_entry (seg_term s) ++ (seg_payload s ++ post).
Proof. unfold segment_bytes. by rewrite <- !app_assoc. Qed.

Lemma len_directory_prefix pre s :
  len (pre ++ pack_entry (seg_first s) ++ flat_map pack_entry (seg_records s))
  = len pre + 16 + 16 * len (seg_records s).
Proof. rewrite !len_app, len_pack_entry, len_flat_map_pack. lia. Qed.

(** A NEXT-terminated segment: yielded unless dropped, and the scan is
    back in the signature test at the end of the segment. *)
Lemma scan_next_segment F pre s post t drop :
  next_segment_ok s = true → 16 < len post →
  runs (pre ++ segment_bytes s ++ post) F (segment_passes s)
       (mkScan (len pre) t (len pre) [] drop false true)
       (if drop_after F drop (seg_first s :: seg_records s) then []
        else [emitted s])
       (mkScan (len pre + len (segment_bytes s)) t
               (len pre + len (segment_bytes s)) []
               (filter_check F (nonempty F) (seg_term s)) false true).
Proof.
  unfold next_segment_ok. rewrite !andb_true_iff, !Z.eqb_eq.
  intros [[Hok Htag] Hoff] Hpost.
  pose proof (len_nonneg (seg_payload s)) as Hpay.
  assert (len (seg_payload s ++ post) = len (seg_payload s) + len post) as Hpp
    by apply len_app.
  unfold segment_passes.
  replace (3 + length (seg_records s))%nat
    with ((2 + length (seg_records s)) + 1)%nat by lia.
  eapply runs_then.
  - apply scan_directory; [done|lia].
  - pose proof (segment_ok_spec s Hok) as (_ & _ & _ & Hwf).
    pose proof (pass_next F
      (pre ++ pack_entry (seg_first s) ++ flat_map pack_entry (seg_records s))
      (seg_payload s ++ post) (seg_term s) Hwf t (len pre)
      (seg_first s :: seg_first s :: seg_records s)
      (drop_after F drop (seg_first s :: seg_records s)) Htag) as Hn.
    cbv zeta in Hn.
    rewrite <- segment_split, len_directory_prefix, Hoff in Hn.
    rewrite slice_middle in Hn.
    apply Hn. rewrite !len_app. lia.
Qed.

(** The LAST-terminated segment: yielded once, and the loop is left. *)
Lemma scan_last_segment F pre s t drop :
  last_segment_ok s = true →
  ∃ st, reached_end st = true
    ∧ runs (pre ++ segment_bytes s) F (segment_passes s)
           (mkScan (len pre) t (len pre) [] drop false true)
           [emitted s] st.
Proof.
  unfold last_segment_ok. rewrite !andb_true_iff, Z.eqb_eq, Z.ltb_lt.
  unfold SIZE. intros [[Hok Htag] Hpay].
  eexists. split; [|].
  2: { unfold segment_passes.
       replace (3 + length (seg_records s))%nat
         with ((2 + length (seg_records s)) + 1)%nat by lia.
       eapply runs_then.
       - pose proof (scan_directory F pre s [] t drop Hok) as Hd.
         rewrite !app_nil_r in Hd. apply Hd. lia.
       - pose proof (segment_ok_spec s Hok) as (_ & _ & _ & Hwf).
         pose proof (pass_last F
           (pre ++ pack_entry (seg_first s) ++ flat_map pack_entry (seg_records s))
           (seg_payload s ++ []) (seg_term s) Hwf t (len pre)
           (seg_first s :: seg_first s :: seg_records s)
           (drop_after F drop (seg_first s :: seg_records s)) Htag) as Hl.
         cbv zeta in Hl.
         rewrite <- segment_split, len_directory_prefix in Hl.
         rewrite !app_nil_r in Hl. rewrite slice_from_app in Hl.
         apply Hl. lia. }
  reflexivity.
Qed.

(** A run of NEXT-terminated segments followed by more than 16 bytes. *)
Lemma scan_next_segments F nexts : ∀ pre rest t drop,
  forallb next_segment_ok nexts = true → 16 < len rest →
  ∃ k,
    runs (pre ++ flat_map segment_bytes nexts ++ rest) F k
         (mkScan (len pre) t (len pre) [] drop false true)
         (scanned F drop nexts).1
         (mkScan (len pre + len (flat_map segment_bytes nexts)) t
                 (len pre + len (flat_map segment_bytes nexts)) []
                 (scanned F drop nexts).2 false true).
Proof.
  induction nexts as [|s nexts IH]; intros pre rest t drop Hok Hrest.
  { exists 0%nat. simpl.
    replace (len pre + len []) with (len pre) by (unfold len; simpl; lia).
    apply runs_refl. }
  simpl in Hok. apply andb_true_iff in Hok as [Hs Hok].
  destruct (IH (pre ++ segment_bytes s) rest t
               (filter_check F (nonempty F) (seg_term s)) Hok Hrest) as [k Hk].
  exists (segment_passes s + k)%nat.
  change (flat_map segment_bytes (s :: nexts))
    with (segment_bytes s ++ flat_map segment_bytes nexts).
  simpl scanned.
  destruct (scanned F (filter_check F (nonempty F) (seg_term s)) nexts)
    as [ys d] eqn:E.
  cbn [fst snd] in *.
  rewrite <- (app_assoc (segment_bytes s)).
  rewrite <- (app_assoc pre) in Hk.
  rewrite !len_app in *. rewrite Z.add_assoc.
  eapply runs_trans; [|exact Hk].
  apply scan_next_segment; [done|].
  rewrite len_app. pose proof (len_nonneg (flat_map segment_bytes nexts)). lia.
Qed.

Lemma last_segment_long s :
  last_segment_ok s = true → 16 < len (segment_bytes s).
Proof.
  unfold last_segment_ok. rewrite !andb_true_iff, Z.ltb_lt.
  intros [_ Hpay]. rewrite len_segment_bytes.
  pose proof (len_nonneg (seg_records s)). unfold SIZE in *. lia.
Qed.

Lemma raw_buffers_loop_end fuel contents F st :
  reached_end st = true →
  raw_buffers_loop fuel contents F st = ([], Exhausted).
Proof. intros H. destruct fuel; simpl; by rewrite H. Qed.

(** The scan of a synthetic file under validated filters [F]. *)
Lemma scan_synthetic_file F nexts last :
  forallb next_segment_ok nexts = true →
  last_segment_ok last = true →
  ∃ k, ∀ fuel,
    raw_buffers_loop (k + fuel) (synthetic_file nexts last) F (initial_state F)
    = ((scanned F (nonempty F) nexts).1 ++ [emitted last], Exhausted).
Proof.
  intros Hn Hl.
  destruct (scan_next_segments F nexts [] (segment_bytes last) 0 (nonempty F)
              Hn (last_segment_long last Hl)) as [k1 H1].
  destruct (scan_last_segment F (flat_map segment_bytes nexts) last 0
              (scanned F (nonempty F) nexts).2 Hl) as (st & Hend & H2).
  exists (k1 + segment_passes last)%nat. intros fuel.
  assert (∀ x, len (@nil byte) + x = x) as Hz by (intros; reflexivity).
  rewrite !Hz, app_nil_l in H1.
  pose proof (runs_trans _ _ _ _ _ _ _ _ _ H1 H2 fuel) as Hr.
  unfold synthetic_file, initial_state.
  eapply eq_trans; [exact Hr|].
  rewrite raw_buffers_loop_end by done. by rewrite app_nil_r.
Qed.

(** ** Buffers of a synthetic file *)

Lemma drop_after_no_filter drop es : drop_after [] drop es = drop.
Proof. unfold drop_after. induction es as [|e es IH]; simpl; done. Qed.

Lemma scanned_no_filter nexts :
  scanned [] false nexts = (map emitted nexts, false).
Proof.
  induction nexts as [|s nexts IH]; [reflexivity|].
  simpl scanned. unfold filter_check at 1. simpl nonempty. simpl andb.
  cbv iota. rewrite IH, drop_after_no_filter. reflexivity.
Qed.

Lemma raw_buffers_validated fuel contents F :
  remove_invalid_filters F = ([], F, None) →
  _raw_buffers fuel contents F
  = let '(ys, o) := raw_buffers_loop fuel contents F (initial_state F) in
    ([], ys, o, F).
Proof. intros H. unfold _raw_buffers. by rewrite H. Qed.

(** C2 as stated fails.  A NEXT-terminated segment that does not start
    with a record matching the time signature is searched through byte by
    byte and never yielded: of two NEXT-terminated segments and a final
    one, two buffers come out.  And a final segment with 1 to 16 bytes
    after its LAST record is yielded twice, by the LAST branch and again
    by the end-of-file test that follows it. *)
Lemma synthetic_file_counterexample :
  is_time_signature (seg_first first_segment) = true
  ∧ _raw_buffers 100 (synthetic_file [first_segment; untimed_segment] final_segment) []
    = ([], [emitted first_segment; emitted final_segment], Exhausted, [])
  ∧ _raw_buffers 100 (synthetic_file [] short_final_segment) []
    = ([], [emitted short_final_segment; emitted short_final_segment],
       Exhausted, []).
Proof. split; [|split]; vm_compute; reflexivity. Qed.

(** C2, amended.  For every synthetic file made of NEXT-terminated
    segments and one final LAST-terminated segment, in which every segment
    starts with a record matching the time signature, holds otherwise only
    records that end no buffer, each NEXT record points at the end of its
    segment, and more than 16 bytes follow the LAST record, the scanner
    (without filter) yields exactly one buffer per NEXT-terminated segment
    and then exactly one for the final segment, in stream order, and
    stops. *)
Theorem synthetic_file_buffers (nexts : list segment) (last : segment) :
  forallb next_segment_ok nexts = true →
  last_segment_ok last = true →
  ∃ k, ∀ fuel,
    _raw_buffers (k + fuel) (synthetic_file nexts last) []
    = ([], map emitted nexts ++ [emitted last], Exhausted, [])
    ∧ length (map emitted nexts ++ [emitted last]) = (length nexts + 1)%nat.
Proof.
  intros Hn Hl.
  destruct (scan_synthetic_file [] nexts last Hn Hl) as [k Hk].
  exists k. intros fuel. split.
  - rewrite raw_buffers_validated by reflexivity.
    rewrite Hk. simpl nonempty. rewrite scanned_no_filter. reflexivity.
  - rewrite length_app, length_map. reflexivity.
Qed.

Lemma synthetic_file_buffers_witness :
  ∃ k, ∀ fuel,
    _raw_buffers (k + fuel) (synthetic_file [first_segment] final_segment) []
    = ([], [emitted first_segment; emitted final_segment], Exhausted, [])
    ∧ length [emitted first_segment; emitted final_segment] = 2%nat.
Proof.
  apply (synthetic_file_buffers [first_segment] final_segment); reflexivity.
Defined.

(** ** Resynchronization *)

(** C1 as stated fails: after the NEXT-terminated first buffer of
    [gapped_file] the record at the new buffer base, offset 68, does not
    match the time signature and is not taken as the first record of the
    next buffer; the scanner moves on byte by byte and the next buffer
    starts five bytes later, at the next record that matches. *)
Lemma resynchronization_counterexample :
  ∃ r, new_from_raw_data gapped_file (0 + data_offset (seg_term first_segment))
       = Some r
    ∧ is_time_signature r = false
    ∧ _raw_buffers 100 gapped_file []
      = ([], [emitted first_segment;
              (segment_entries final_segment, slice_from gapped_file 73)],
         Exhausted, [])
    ∧ head (segment_entries final_segment) ≠ Some r.
Proof.
  eexists. split; [vm_compute; reflexivity|].
  split; [reflexivity|]. split; [vm_compute; reflexivity|].
  vm_compute. discriminate.
Qed.

(** C1, amended.  A pass of the scanner's loop that reads a NEXT record
    (outside the signature test, with more than one record's worth of
    bytes left at the place the record points to) yields the buffer read
    so far with the bytes from the buffer base to old base +
    [data_offset], unless the buffer is dropped; it moves cursor and
    buffer base there, clears the record list and sets [first_tag]
    again.  So the next pass reads the record at the new base and puts it
    to the time-signature test, for every buffer and not only for the
    first.  If the record matches the signature it becomes the first
    record of the next buffer and the cursor stays, so that the pass
    after that reads the same record again, through the tag cascade,
    lists it a second time and only then moves on by 16 bytes.  If it
    does not match, cursor and buffer base advance by one byte, the
    record list stays empty and [first_tag] set: the byte-by-byte search
    goes on.  Nothing is yielded in the passes after the first. *)
Theorem resynchronization_after_next (contents : list byte) (F : filter_dict)
    (st : scan_state) (e e' : DirectoryEntry) (c : Z) :
  first_tag st = false →
  reached_end st = false →
  new_from_raw_data contents (cursor st) = Some e →
  tag_number e = NEXT_TAG →
  c = dir_base st + data_offset e →
  new_from_raw_data contents c = Some e' →
  c < len contents - SIZE →
  loop_body contents F st
  = inr (mkScan c (search_time st) c [] (filter_check F (nonempty F) e)
                false true,
         if drop_buffer st then []
         else [(dir_entries st ++ [e], slice contents (dir_base st) c)])
  ∧ (is_time_signature e' = true →
     loop_body contents F
       (mkScan c (search_time st) c [] (filter_check F (nonempty F) e)
               false true)
     = inr (mkScan c (search_time st) c [e']
                   (filter_check F (nonempty F) e) false false, [])
     ∧ (c + SIZE < len contents - SIZE →
        loop_body contents F
          (mkScan c (search_time st) c [e']
                  (filter_check F (nonempty F) e) false false)
        = inr (mkScan (c + SIZE) (search_time st) c [e'; e']
                      (filter_check F (filter_check F (nonempty F) e) e')
                      false false, [])
        ∧ runs contents F 3 st
            (if drop_buffer st then []
             else [(dir_entries st ++ [e], slice contents (dir_base st) c)])
            (mkScan (c + SIZE) (search_time st) c [e'; e']
                    (filter_check F (filter_check F (nonempty F) e) e')
                    false false)))
  ∧ (is_time_signature e' = false →
     c + 1 < len contents - SIZE →
     loop_body contents F
       (mkScan c (search_time st) c [] (filter_check F (nonempty F) e)
               false true)
     = inr (mkScan (c + 1) (search_time st + 1) (c + 1) []
                   (filter_check F (nonempty F) e) false true, [])
     ∧ runs contents F 2 st
         (if drop_buffer st then []
          else [(dir_entries st ++ [e], slice contents (dir_base st) c)])
         (mkScan (c + 1) (search_time st + 1) (c + 1) []
                 (filter_check F (nonempty F) e) false true)).
Proof.
  intros Hft Hre He Htag Hc He' Hlen.
  destruct st as [cur t base es drop re ft].
  cbn [first_tag reached_end cursor dir_base search_time dir_entries
       drop_buffer] in *.
  subst re ft.
  assert (loop_body contents F (mkScan cur t base es drop false false)
          = inr (mkScan c t c [] (filter_check F (nonempty F) e) false true,
                 if drop then []
                 else [(es ++ [e], slice contents base c)])) as H1.
  { unfold loop_body. cbn [cursor]. rewrite He, classify_next by done.
    rewrite <- Hc. cbn [cursor].
    destruct (Z.leb_spec (len contents - SIZE) c); [lia|reflexivity]. }
  split; [exact H1|]. split.
  - intros Hsig.
    assert (loop_body contents F
              (mkScan c t c [] (filter_check F (nonempty F) e) false true)
            = inr (mkScan c t c [e'] (filter_check F (nonempty F) e)
                          false false, [])) as H2.
    { unfold loop_body. cbn [cursor]. rewrite He', classify_first, Hsig.
      cbn [cursor app].
      destruct (Z.leb_spec (len contents - SIZE) c); [lia|reflexivity]. }
    split; [exact H2|]. intros Hlen'.
    assert (loop_body contents F
              (mkScan c t c [e'] (filter_check F (nonempty F) e) false false)
            = inr (mkScan (c + SIZE) t c [e'; e']
                     (filter_check F (filter_check F (nonempty F) e) e')
                     false false, [])) as H3.
    { unfold loop_body. cbn [cursor]. rewrite He'.
      unfold is_time_signature in Hsig.
      rewrite !andb_true_iff, !Z.eqb_eq in Hsig.
      destruct Hsig as [[[Ht _] _] _].
      rewrite classify_plain by (rewrite Ht; done).
      cbn [cursor app].
      destruct (Z.leb_spec (len contents - SIZE) (c + SIZE));
        [lia|reflexivity]. }
    split; [exact H3|].
    pose proof H1 as R1. apply runs_step in R1; [|reflexivity].
    pose proof H2 as R2. apply runs_step in R2; [|reflexivity].
    pose proof H3 as R3. apply runs_step in R3; [|reflexivity].
    pose proof (runs_trans _ _ _ _ _ _ _ _ _ R1
                  (runs_then _ _ _ _ _ _ _ _ R2 R3)) as Hr.
    rewrite app_nil_r in Hr. exact Hr.
  - intros Hsig Hlen'.
    assert (loop_body contents F
              (mkScan c t c [] (filter_check F (nonempty F) e) false true)
            = inr (mkScan (c + 1) (t + 1) (c + 1) []
                          (filter_check F (nonempty F) e) false true, []))
      as H2.
    { unfold loop_body. cbn [cursor]. rewrite He', classify_first, Hsig.
      cbn [cursor].
      destruct (Z.leb_spec (len contents - SIZE) (c + 1)); [lia|reflexivity]. }
    split; [exact H2|].
    pose proof H1 as R1. apply runs_step in R1; [|reflexivity].
    pose proof H2 as R2. apply runs_step in R2; [|reflexivity].
    pose proof (runs_trans _ _ _ _ _ _ _ _ _ R1 R2) as Hr.
    rewrite app_nil_r in Hr. exact Hr.
Qed.

(** On [gapped_file] the record at the new base, five bytes ahead of the
    next time record, fails the test; right behind [first_segment] in a
    synthetic file stands a time record, which is then read twice. *)
Lemma resynchronization_after_next_witness :
  loop_body gapped_file []
    (mkScan 16 0 0 [time_record 32; time_record 32] false false false)
  = inr (mkScan 68 0 68 [] false false true, [emitted first_segment])
  ∧ loop_body gapped_file [] (mkScan 68 0 68 [] false false true)
    = inr (mkScan 69 1 69 [] false false true, [])
  ∧ runs (synthetic_file [first_segment] final_segment) [] 3
      (mkScan 16 0 0 [time_record 32; time_record 32] false false false)
      [emitted first_segment]
      (mkScan 84 0 68 [time_record 32; time_record 32] false false false).
Proof.
  destruct (resynchronization_after_next gapped_file []
              (mkScan 16 0 0 [time_record 32; time_record 32]
                      false false false)
              (next_record 68)
              (mkDirectoryEntry 0 0 0 8192 9216 0 2 0 18 0) 68)
    as (H1 & _ & H3);
    [reflexivity | reflexivity | reflexivity | reflexivity | reflexivity
    | vm_compute; reflexivity | vm_compute; reflexivity |].
  destruct (resynchronization_after_next
              (synthetic_file [first_segment] final_segment) []
              (mkScan 16 0 0 [time_record 32; time_record 32]
                      false false false)
              (next_record 68) (time_record 32) 68) as (_ & H2 & _);
    [reflexivity | reflexivity | reflexivity | reflexivity | reflexivity
    | reflexivity | vm_compute; reflexivity |].
  split; [exact H1|]. split.
  - apply H3; [reflexivity | vm_compute; reflexivity].
  - apply H2; [reflexivity | vm_compute; reflexivity].
Defined.

(** ** Termination *)

Lemma looping_file_cycle :
  runs looping_file [] 3 (initial_state [])
       [([time_record 32; time_record 32; next_record 0], [])]
       (initial_state []).
Proof.
  change 3%nat with (1 + (1 + 1))%nat.
  eapply runs_then; [|eapply runs_then];
    (apply runs_step; [reflexivity | vm_compute; reflexivity]).
Qed.

Lemma looping_file_cycles n :
  runs looping_file [] (3 * n) (initial_state [])
       (replicate n ([time_record 32; time_record 32; next_record 0], []))
       (initial_state []).
Proof.
  induction n as [|n IH]; [apply runs_refl|].
  replace (3 * S n)%nat with (3 + 3 * n)%nat by lia.
  change (replicate (S n) ?x) with ([x] ++ replicate n x).
  exact (runs_trans _ _ _ _ _ _ _ _ _ looping_file_cycle IH).
Qed.

(** C4 fails on the code: on [looping_file], whose NEXT record has
    [data_offset = 0], every third pass of the loop puts the scanner back
    in its initial state after yielding the same buffer, so the generator
    is never exhausted: after any number of passes it is still inside the
    loop and has yielded a third of that number of buffers. *)
Theorem next_offset_zero_never_ends (fuel : nat) :
  ∃ st,
    _raw_buffers fuel looping_file []
    = ([], replicate (fuel / 3)
             ([time_record 32; time_record 32; next_record 0], []),
       Running st, []).
Proof.
  rewrite raw_buffers_validated by reflexivity.
  assert (∃ q r, fuel = (3 * q + r)%nat ∧ (r < 3)%nat ∧ (fuel / 3)%nat = q)
    as (q & r & -> & Hr & ->).
  { exists (fuel / 3)%nat, (fuel mod 3)%nat.
    split; [apply Nat.div_mod_eq|]. split; [|done].
    apply Nat.mod_upper_bound. lia. }
  rewrite (looping_file_cycles q r).
  destruct r as [|[|[|r]]]; [| | |lia];
    eexists; vm_compute raw_buffers_loop; cbv beta iota zeta;
    rewrite app_nil_r; reflexivity.
Qed.

(** ** Selective decoding *)

Lemma remove_invalid_loop_valid keys F warns :
  forallb hasattr keys = true →
  remove_invalid_loop (length F) keys F warns = (warns, F, None).
Proof.
  induction keys as [|k keys IH]; simpl; rewrite Nat.eqb_refl; simpl; [done|].
  intros H. apply andb_true_iff in H as [-> H]. simpl. by apply IH.
Qed.

Lemma remove_invalid_filters_valid (F : filter_dict) :
  forallb hasattr F.*1 = true → remove_invalid_filters F = ([], F, None).
Proof. apply remove_invalid_loop_valid. Qed.

Lemma drop_after_default F es :
  nonempty F = true →
  drop_after F true es = negb (existsb (filter_match F) es).
Proof.
  intros HF. unfold drop_after.
  assert (∀ d, foldl (filter_check F) d es
               = d && negb (existsb (filter_match F) es)) as H.
  { induction es as [|e es IH]; intros d; simpl.
    - by rewrite andb_true_r.
    - rewrite IH. unfold filter_check. rewrite HF. simpl.
      destruct (filter_match F e), d; reflexivity. }
  rewrite H. reflexivity.
Qed.

Section matching.
Variables (raw_buffer : list byte) (e : DirectoryEntry).


Variables (w : list warning) (values : list Z).
Hypothesis Hread : _read_dataset e raw_buffer = (w, inr values).

Lemma decode_matching_keeps rem : ∀ b,
  datasets_by_tag_number b !! tag_number e = Some (DInts values) →
  ∃ w' b', decode_matching rem raw_buffer e b false = (w', Continue b' false)
    ∧ datasets_by_tag_number b' !! tag_number e = Some (DInts values).
Proof.
  induction rem as [|[attr accepted] rem IH]; intros b Hb; simpl.
  { by eexists _, _. }
  destruct (attr_in e attr accepted).
  - rewrite Hread.
    destruct (IH (add_dataset b e (DInts values)) (add_dataset_by_tag _ _ _))
      as (w' & b' & -> & Hb').
    by eexists _, _.
  - by apply IH.
Qed.

(** Some constraint accepts the entry: it is read and added. *)
Lemma decode_matching_hit rem : ∀ b d,
  existsb (fun kv => attr_in e kv.1 kv.2) rem = true →
  ∃ w' b', decode_matching rem raw_buffer e b d = (w', Continue b' false)
    ∧ datasets_by_tag_number b' !! tag_number e = Some (DInts values).
Proof.
  induction rem as [|[attr accepted] rem IH]; intros b d H; simpl in *; [done|].
  destruct (attr_in e attr accepted).
  - rewrite Hread.
    destruct (decode_matching_keeps rem (add_dataset b e (DInts values))
                (add_dataset_by_tag _ _ _)) as (w' & b' & -> & Hb').
    by eexists _, _.
  - by apply IH.
Qed.
End matching.

Lemma scanned_single F drop s :
  (scanned F drop [s]).1
  = if drop_after F drop (seg_first s :: seg_records s) then [] else [emitted s].
Proof. cbn [scanned fst]. apply app_nil_r. Qed.

(** On an ordinary data record under a non-empty filter, the cascade of
    [iter_buffers] comes down to the loop over the constraints. *)
Lemma decode_entry_ordinary F sec raw b d e :
  ordinary_record sec e = true → nonempty F = true →
  decode_entry F sec raw b d e = decode_matching F raw e b d.
Proof.
  unfold ordinary_record, decode_entry.
  rewrite !andb_true_iff, !negb_true_iff.
  intros ((((((-> & ->) & ->) & ->) & ->) & ->) & ->) ->. reflexivity.
Qed.

(** * Further properties *)

(** ** Directory records and time records as bytes *)

Lemma byte_of_Z_val b : byte_of_Z (byte_val b) = b.
Proof.
  unfold byte_of_Z, byte_val.
  pose proof (Byte.to_N_bounded b) as Hb.
  rewrite Z.mod_small by lia. rewrite N2Z.id, Byte.of_to_N. reflexivity.
Qed.

Lemma byte_val_bounds b : 0 ≤ byte_val b < 256.
Proof. unfold byte_val. pose proof (Byte.to_N_bounded b). lia. Qed.

Lemma u16_le_unsigned b0 b1 : u16 (le_unsigned [b0; b1]) = true.
Proof.
  unfold u16, le_unsigned.
  pose proof (byte_val_bounds b0). pose proof (byte_val_bounds b1).
  apply andb_true_iff. rewrite Z.leb_le, Z.ltb_lt. lia.
Qed.

Lemma u8_byte_val b : u8 (byte_val b) = true.
Proof.
  unfold u8. pose proof (byte_val_bounds b).
  apply andb_true_iff. rewrite Z.leb_le, Z.ltb_lt. lia.
Qed.

Lemma pack_u16_le_unsigned b0 b1 : pack_u16 (le_unsigned [b0; b1]) = [b0; b1].
Proof.
  unfold pack_u16, le_unsigned.
  pose proof (byte_val_bounds b0). pose proof (byte_val_bounds b1).
  replace (byte_val b0 + 256 * (byte_val b1 + 256 * 0))
    with (byte_val b0 + byte_val b1 * 256) by lia.
  rewrite Z.div_add, Z.div_small, Z.add_0_l by lia.
  rewrite byte_of_Z_val. f_equal.
  unfold byte_of_Z at 1. rewrite Z.mod_add, Z.mod_small by lia.
  unfold byte_val. rewrite N2Z.id, Byte.of_to_N. reflexivity.
Qed.

Ltac fold_le16 :=
  repeat match goal with
  | |- context [byte_val ?a + 256 * (byte_val ?b + 256 * 0)] =>
      change (byte_val a + 256 * (byte_val b + 256 * 0))
        with (le_unsigned [a; b])
  end.

Lemma slice_take_drop (l : list byte) (a n : Z) :
  0 ≤ a → 0 ≤ n → slice l a (a + n) = take (Z.to_nat n) (drop (Z.to_nat a) l).
Proof.
  intros Ha Hn. unfold slice. rewrite take_drop_commute.
  by rewrite Z2Nat.inj_add by lia.
Qed.

Lemma len_drop (l : list byte) (n : nat) :
  len (drop n l) = Z.max 0 (len l - Z.of_nat n).
Proof. unfold len. rewrite length_drop. lia. Qed.

(** What a successful read returns. *)
Lemma new_from_raw_data_decode (contents : list byte) (start : Z) e :
  0 ≤ start →
  new_from_raw_data contents start = Some e →
  start + 16 ≤ len contents ∧ wf_entry e = true
  ∧ pack_entry e = slice contents start (start + 16).
Proof.
  intros Hs. unfold new_from_raw_data, SIZE.
  destruct (Z.ltb_spec (len contents - start) 16) as [|Hlen]; [done|].
  rewrite slice_take_drop by lia.
  destruct (drop (Z.to_nat start) contents)
    as [|b0 [|b1 [|b2 [|b3 [|b4 [|b5 [|b6 [|b7 [|b8 [|b9 [|b10 [|b11
        [|b12 [|b13 [|b14 [|b15 rest]]]]]]]]]]]]]]]]; try done.
  intros [= <-]. split; [lia|]. split.
  - unfold wf_entry. cbn [tag_number data_offset number_of_bytes samples
      bytes_per_sample typ parameter1 parameter2 parameter3 address].
    fold_le16. by rewrite !u16_le_unsigned, !u8_byte_val.
  - unfold pack_entry. cbn [tag_number data_offset number_of_bytes samples
      bytes_per_sample typ parameter1 parameter2 parameter3 address].
    fold_le16. rewrite !pack_u16_le_unsigned, !byte_of_Z_val. reflexivity.
Qed.

(** A read with 16 bytes left succeeds. *)
Lemma new_from_raw_data_available (contents : list byte) (start : Z) :
  0 ≤ start → start + 16 ≤ len contents →
  ∃ e, new_from_raw_data contents start = Some e.
Proof.
  intros Hs Hlen. unfold new_from_raw_data, SIZE.
  destruct (Z.ltb_spec (len contents - start) 16) as [|_]; [lia|].
  pose proof (len_drop contents (Z.to_nat start)) as Hd.
  destruct (drop (Z.to_nat start) contents)
    as [|b0 [|b1 [|b2 [|b3 [|b4 [|b5 [|b6 [|b7 [|b8 [|b9 [|b10 [|b11
        [|b12 [|b13 [|b14 [|b15 rest]]]]]]]]]]]]]]]];
    try (unfold len in Hd, Hlen; simpl length in Hd; lia).
  eexists. reflexivity.
Qed.

(** X1.  [DirectoryEntry.new_from_raw_data] and the packing of a record
    are inverse to each other: a read at [start >= 0] succeeds exactly
    when 16 bytes are left there, what it returns has every field within
    the width of its slot and packs to the very 16 bytes that were read,
    and a packed record with fields in range is read back unchanged
    wherever it lies. *)
Theorem directory_entry_roundtrip (contents : list byte) (start : Z) :
  0 ≤ start →
  (is_Some (new_from_raw_data contents start) ↔ start + 16 ≤ len contents)
  ∧ (∀ e, new_from_raw_data contents start = Some e →
          wf_entry e = true
          ∧ pack_entry e = slice contents start (start + 16))
  ∧ (∀ pre e post, wf_entry e = true →
          new_from_raw_data (pre ++ pack_entry e ++ post) (len pre) = Some e).
Proof.
  intros Hs. split; [|split].
  - split.
    + intros [e He]. by apply new_from_raw_data_decode in He as [? _].
    + intros Hlen. by apply new_from_raw_data_available.
  - intros e He. by apply new_from_raw_data_decode in He as (_ & ? & ?).
  - intros pre e post. apply new_from_raw_data_pack.
Qed.

Lemma directory_entry_roundtrip_witness :
  new_from_raw_data (zeros 3 ++ pack_entry (time_record 32) ++ zeros 2) 3
  = Some (time_record 32)
  ∧ is_Some (new_from_raw_data (zeros 19) 3)
  ∧ ¬ is_Some (new_from_raw_data (zeros 18) 3).
Proof.
  split; [|split].
  - destruct (directory_entry_roundtrip [] 0) as (_ & _ & H); [lia|].
    apply (H (zeros 3) (time_record 32) (zeros 2)). reflexivity.
  - destruct (directory_entry_roundtrip (zeros 19) 3) as (H & _); [lia|].
    apply H. vm_compute. discriminate.
  - destruct (directory_entry_roundtrip (zeros 18) 3) as (H & _); [lia|].
    intros H'. apply H in H'. vm_compute in H'. by apply H'.
Defined.

Lemma len_pack_seatime t : len (pack_seatime t) = 18.
Proof. reflexivity. Qed.

Lemma unpack_seatime_pack pre t post :
  wf_seatime t = true →
  unpack_seatime (pre ++ pack_seatime t ++ post) (len pre) = inr t.
Proof.
  intros Hwf. unfold unpack_seatime.
  rewrite !len_app, len_pack_seatime.
  pose proof (len_nonneg post).
  destruct (Z.ltb_spec (len pre + (18 + len post) - len pre) 18) as [|_]; [lia|].
  unfold len at 1. rewrite Nat2Z.id, drop_app_length.
  unfold wf_seatime in Hwf. rewrite !andb_true_iff in Hwf.
  destruct Hwf as ((((((((H0 & H1) & H2) & H3) & H4) & H5) & H6) & H7) & H8).
  destruct t as [f0 f1 f2 f3 f4 f5 f6 f7 f8]. simpl in *.
  change (pack_seatime (mkSEATime f0 f1 f2 f3 f4 f5 f6 f7 f8) ++ post)
    with (byte_of_Z f0 :: byte_of_Z (f0 / 256) :: byte_of_Z f1
          :: byte_of_Z (f1 / 256) :: byte_of_Z f2 :: byte_of_Z (f2 / 256)
          :: byte_of_Z f3 :: byte_of_Z (f3 / 256) :: byte_of_Z f4
          :: byte_of_Z (f4 / 256) :: byte_of_Z f5 :: byte_of_Z (f5 / 256)
          :: byte_of_Z f6 :: byte_of_Z (f6 / 256) :: byte_of_Z f7
          :: byte_of_Z (f7 / 256) :: byte_of_Z f8 :: byte_of_Z (f8 / 256)
          :: post).
  cbv beta iota.
  rewrite !le_unsigned_pack_u16_eq by assumption. reflexivity.
Qed.

(** X2.  Time records as bytes: a time record whose nine fields fit 16
    bits is read back unchanged from its 18 packed bytes wherever they
    lie, so that [datetime_from_raw_seatime] on those bytes is
    [datetime_from_seatime] on the record; with fewer than 18 bytes left
    at the offset the read fails with [struct.error]. *)
Theorem seatime_roundtrip (pre post : list byte) (t : SEATime) :
  wf_seatime t = true →
  unpack_seatime (pre ++ pack_seatime t ++ post) (len pre) = inr t
  ∧ datetime_from_raw_seatime (pre ++ pack_seatime t ++ post) (len pre)
    = datetime_from_seatime t
  ∧ (∀ data offset, len data < offset + 18 →
       unpack_seatime data offset = inl StructError
       ∧ datetime_from_raw_seatime data offset = inl StructError).
Proof.
  intros Hwf. pose proof (unpack_seatime_pack pre t post Hwf) as Hu.
  split; [exact Hu|]. split.
  - unfold datetime_from_raw_seatime. by rewrite Hu.
  - intros data offset Hshort.
    assert (unpack_seatime data offset = inl StructError) as Hs.
    { unfold unpack_seatime.
      destruct (Z.ltb_spec (len data - offset) 18); [done|lia]. }
    split; [exact Hs|]. unfold datetime_from_raw_seatime. by rewrite Hs.
Qed.

Lemma seatime_roundtrip_witness :
  datetime_from_raw_seatime
    (zeros 7 ++ pack_seatime (mkSEATime 2020 2 29 23 59 59 1 4 0) ++ zeros 1) 7
  = inr (mkDatetime 2020 2 29 23 59 59 250000).
Proof.
  pose proof (seatime_roundtrip (zeros 7) (zeros 1)
                (mkSEATime 2020 2 29 23 59 59 1 4 0) eq_refl) as H.
  apply proj2, proj1 in H.
  refine (eq_trans H _). vm_compute. reflexivity.
Defined.

Lemma days_in_month_le y m : days_in_month y m ≤ 31.
Proof. unfold days_in_month. repeat case_match; lia. Qed.

(** When the constructor returns. *)
Lemma datetime_new_inr y mo d h mi s us :
  (∃ dt, datetime_new y mo d h mi s us = inr dt)
  ↔ 1 ≤ y ≤ 9999 ∧ 1 ≤ mo ≤ 12 ∧ 1 ≤ d ≤ days_in_month y mo
    ∧ 0 ≤ h ≤ 23 ∧ 0 ≤ mi ≤ 59 ∧ 0 ≤ s ≤ 59 ∧ 0 ≤ us ≤ 999999.
Proof.
  pose proof (days_in_month_le y mo) as Hdm.
  unfold datetime_new, fits_c_int. cbn [forallb].
  match goal with
  | |- (∃ dt, (if negb ?c then _ else if ?c' then _ else _) = _) ↔ _ =>
      destruct c eqn:E0; cbn [negb]; [destruct c' eqn:E|]
  end.
  - rewrite !andb_true_iff, !Z.leb_le in E. split; [lia|by eexists].
  - split; [by intros [? ?]|]. intros H.
    rewrite <- not_true_iff_false in E. exfalso. apply E.
    rewrite !andb_true_iff, !Z.leb_le. lia.
  - split; [by intros [? ?]|]. intros H.
    rewrite <- not_true_iff_false in E0. exfalso. apply E0.
    rewrite !andb_true_iff, !Z.leb_le. lia.
Qed.

Lemma datetime_new_iff y mo d h mi s us :
  (∃ dt, datetime_new y mo d h mi s us = inr dt)
  ↔ (∃ dt, datetime_new y mo d h mi s 0 = inr dt) ∧ 0 ≤ us ≤ 999999.
Proof. rewrite !datetime_new_inr. lia. Qed.

Lemma datetime_new_outcome y mo d h mi s us :
  datetime_new y mo d h mi s us = inr (mkDatetime y mo d h mi s us)
  ∨ datetime_new y mo d h mi s us = inl ValueError
  ∨ datetime_new y mo d h mi s us = inl OverflowError.
Proof. unfold datetime_new. repeat case_match; auto. Qed.

(** [OverflowError] is raised exactly when an argument does not fit. *)
Lemma datetime_new_overflow y mo d h mi s us :
  datetime_new y mo d h mi s us = inl OverflowError
  ↔ forallb fits_c_int [y; mo; d; h; mi; s; us] = false.
Proof.
  unfold datetime_new.
  destruct (forallb fits_c_int [y; mo; d; h; mi; s; us]); cbn [negb];
    [|done].
  case_match; split; congruence.
Qed.

Lemma u16_fits_c_int z : u16 z = true → fits_c_int z = true.
Proof.
  unfold u16, fits_c_int. rewrite !andb_true_iff, !Z.leb_le, Z.ltb_lt. lia.
Qed.

(** X3.  The outcomes of [datetime_from_seatime] on a time record with
    16-bit fields: with [max_sys_freq = 0] it raises [ZeroDivisionError];
    otherwise it returns a timestamp exactly when the date and
    time-of-day fields are valid and [fraction_of_second < max_sys_freq];
    when the fraction is so far beyond the frequency that the microsecond
    [1000000 * fraction_of_second / max_sys_freq] no longer fits a C
    [int] (2^31 or more), the constructor raises [OverflowError], which
    the [except ValueError] of the function does not catch and which
    comes before any test of the date; in every remaining case it raises
    [ValueError]. *)
Theorem datetime_from_seatime_outcomes (t : SEATime) :
  wf_seatime t = true →
  (max_sys_freq t = 0 → datetime_from_seatime t = inl ZeroDivisionError)
  ∧ (max_sys_freq t ≠ 0 →
     ((∃ dt, datetime_from_seatime t = inr dt)
      ↔ calendar_valid t = true ∧ fraction_of_second t < max_sys_freq t)
     ∧ (2147483648 * max_sys_freq t ≤ 1000000 * fraction_of_second t →
        datetime_from_seatime t = inl OverflowError)
     ∧ (1000000 * fraction_of_second t < 2147483648 * max_sys_freq t →
        ¬ (calendar_valid t = true
           ∧ fraction_of_second t < max_sys_freq t) →
        datetime_from_seatime t = inl ValueError)).
Proof.
  intros Hwf. unfold wf_seatime in Hwf. rewrite !andb_true_iff in Hwf.
  destruct Hwf as ((((((((Hy & Hmo) & Hd) & Hh) & Hmi) & Hs) & Hfr) & Hfq) & _).
  assert (0 ≤ fraction_of_second t < 65536) as Hfrac.
  { unfold u16 in Hfr. rewrite andb_true_iff, Z.leb_le, Z.ltb_lt in Hfr. lia. }
  assert (0 ≤ max_sys_freq t < 65536) as Hfreq.
  { unfold u16 in Hfq. rewrite andb_true_iff, Z.leb_le, Z.ltb_lt in Hfq. lia. }
  split.
  { intros H0. unfold datetime_from_seatime. by rewrite H0. }
  intros Hne.
  assert (datetime_from_seatime t
          = datetime_new (year t) (month t) (day t) (hour t) (minute t) (second t)
              (1000000 * fraction_of_second t / max_sys_freq t)) as Heq.
  { unfold datetime_from_seatime.
    destruct (Z.eqb_spec (max_sys_freq t) 0) as [|_]; [lia|].
    rewrite int_of_truediv; [reflexivity| |lia].
    change (2 ^ 51) with 2251799813685248. lia. }
  rewrite Heq.
  set (us := 1000000 * fraction_of_second t / max_sys_freq t).
  assert (0 ≤ us) as Hus0 by (apply Z.div_pos; lia).
  assert ((∃ dt, datetime_new (year t) (month t) (day t) (hour t)
                   (minute t) (second t) us = inr dt)
          ↔ calendar_valid t = true
            ∧ fraction_of_second t < max_sys_freq t) as Hiff.
  { rewrite datetime_new_iff.
    assert ((∃ dt, datetime_new (year t) (month t) (day t) (hour t)
                     (minute t) (second t) 0 = inr dt)
            ↔ calendar_valid t = true) as ->.
    { unfold calendar_valid. case_match; split; try done.
      - intros [? ?]. done.
      - intros _. by eexists. }
    split; intros [Hc Hu]; (split; [done|]).
    + destruct (Z.lt_ge_cases (fraction_of_second t) (max_sys_freq t)) as [|Hge];
        [done|].
      assert (1000000 ≤ us); [|lia].
      apply Z.div_le_lower_bound; lia.
    + split; [done|].
      assert (us < 1000000); [|lia].
      apply Z.div_lt_upper_bound; lia. }
  split; [exact Hiff|]. split.
  - intros Hbig. apply datetime_new_overflow.
    assert (2147483648 ≤ us) as Hge by (apply Z.div_le_lower_bound; lia).
    assert (fits_c_int us = false) as Hno.
    { unfold fits_c_int. apply andb_false_iff. right. apply Z.leb_gt. lia. }
    cbn [forallb]. rewrite Hno. cbn [andb]. by rewrite !andb_false_r.
  - intros Hsmall Hnot.
    assert (us < 2147483648) as Hlt by (apply Z.div_lt_upper_bound; lia).
    destruct (datetime_new_outcome (year t) (month t) (day t) (hour t)
                (minute t) (second t) us) as [Hr|[Hr|Hr]]; [|exact Hr|].
    + exfalso. apply Hnot, Hiff. by eexists.
    + exfalso. apply datetime_new_overflow in Hr.
      cbn [forallb] in Hr.
      rewrite !u16_fits_c_int in Hr by done.
      assert (fits_c_int us = true) as Hfit.
      { unfold fits_c_int. rewrite andb_true_iff, !Z.leb_le. lia. }
      rewrite Hfit in Hr. discriminate.
Qed.

Lemma datetime_from_seatime_outcomes_witness :
  datetime_from_seatime (mkSEATime 2019 3 1 10 0 0 5 0 0) = inl ZeroDivisionError
  ∧ datetime_from_seatime (mkSEATime 2019 3 1 10 0 0 2148 1 0)
    = inl OverflowError
  ∧ datetime_from_seatime (mkSEATime 2019 3 1 10 0 0 5 5 0) = inl ValueError.
Proof.
  split; [|split].
  - destruct (datetime_from_seatime_outcomes (mkSEATime 2019 3 1 10 0 0 5 0 0))
      as [H _]; [reflexivity|].
    apply H. reflexivity.
  - destruct (datetime_from_seatime_outcomes
                (mkSEATime 2019 3 1 10 0 0 2148 1 0)) as [_ H]; [reflexivity|].
    destruct H as (_ & H & _); [simpl; lia|].
    apply H. simpl. lia.
  - destruct (datetime_from_seatime_outcomes (mkSEATime 2019 3 1 10 0 0 5 5 0))
      as [_ H]; [reflexivity|].
    destruct H as (_ & _ & H); [simpl; lia|].
    apply H; simpl; lia.
Defined.

(** ** The scanner on arbitrary bytes *)

Lemma wf_entry_offset e : wf_entry e = true → 0 ≤ data_offset e < 65536.
Proof.
  unfold wf_entry, u16. rewrite !andb_true_iff, !Z.leb_le, !Z.ltb_lt. tauto.
Qed.

(** Cursor and buffer base never become negative. *)
Lemma classify_nonneg contents F st e :
  0 ≤ cursor st → 0 ≤ dir_base st → 0 ≤ data_offset e →
  0 ≤ cursor (classify contents F st e).1
  ∧ 0 ≤ dir_base (classify contents F st e).1.
Proof.
  intros Hc Hb He. unfold classify, SIZE.
  repeat match goal with
  | |- context [if ?c then _ else _] => destruct c
  end; simpl; lia.
Qed.

(** A pass that starts with 16 bytes left at a non-negative cursor reads
    its record, and ends the scan or leaves more than 16 bytes. *)
Lemma loop_body_safe contents F st :
  0 ≤ cursor st → 0 ≤ dir_base st → cursor st + 16 ≤ len contents →
  ∃ st' ys, loop_body contents F st = inr (st', ys)
    ∧ 0 ≤ cursor st' ∧ 0 ≤ dir_base st'
    ∧ (reached_end st' = true ∨ cursor st' + 16 ≤ len contents).
Proof.
  intros Hc Hb Hlen. unfold loop_body.
  destruct (new_from_raw_data_available contents (cursor st) Hc Hlen) as [e He].
  rewrite He.
  apply new_from_raw_data_decode in He as (_ & Hwf & _); [|done].
  apply wf_entry_offset in Hwf.
  destruct (classify_nonneg contents F st e Hc Hb ltac:(lia)) as [Hc' Hb'].
  destruct (classify contents F st e) as [st1 ys]. simpl in Hc', Hb'.
  unfold SIZE.
  destruct (Z.leb_spec (len contents - 16) (cursor st1)).
  - eexists _, _. split; [reflexivity|]. simpl. auto.
  - eexists _, _. split; [reflexivity|]. split; [done|]. split; [done|].
    right. lia.
Qed.

Lemma raw_buffers_loop_safe contents F fuel : ∀ st,
  0 ≤ cursor st → 0 ≤ dir_base st →
  (reached_end st = true ∨ cursor st + 16 ≤ len contents) →
  ∀ e, (raw_buffers_loop fuel contents F st).2 ≠ Raised e.
Proof.
  induction fuel as [|fuel IH]; intros st Hc Hb Hlen e; simpl.
  { destruct (reached_end st); simpl; discriminate. }
  destruct (reached_end st) eqn:Hre; simpl; [discriminate|].
  destruct Hlen as [|Hlen]; [done|].
  destruct (loop_body_safe contents F st Hc Hb Hlen)
    as (st' & ys & -> & Hc' & Hb' & Hlen').
  specialize (IH st' Hc' Hb' Hlen' e).
  destruct (raw_buffers_loop fuel contents F st') as [zs o]. exact IH.
Qed.

Lemma string_length_append s t :
  String.length (String.append s t)
  = (String.length s + String.length t)%nat.
Proof. induction s as [|c s IH]; simpl; [done|]. by rewrite IH. Qed.

(** The message of a failed read is never the one that
    [new_from_raw_data] tests for, so the error is passed on as it is. *)
Lemma new_from_raw_data_error_struct contents start :
  new_from_raw_data_error contents start = StructError.
Proof.
  unfold new_from_raw_data_error.
  destruct (String.eqb_spec (short_buffer_message SIZE start (len contents))
              "unpack_from requires a buffer of at least 16 bytes")
    as [E|_]; [|done].
  apply (f_equal String.length) in E. unfold short_buffer_message in E.
  rewrite !string_length_append in E. simpl in E. lia.
Qed.

(** X4.  Under a valid filter, [_raw_buffers] raises only on a file
    shorter than one directory record, at its first read and before
    anything is yielded, and what it raises there is [struct.error]: the
    message of that error is longer than the wording
    [new_from_raw_data] compares it with, so
    [IncompleteDirectoryEntryException] is never raised and the handler
    that would turn it into [UnexpectedEndOfFileException] is never
    entered, on any file.  On every file of 16 bytes or more nothing is
    raised at all, however malformed the contents and however long the
    scan is run: the end-of-file test at the bottom of the loop always
    stops the scan before a read could fail. *)
Theorem scanner_raises_only_on_short_files (contents : list byte)
    (F : filter_dict) (fuel : nat) :
  forallb hasattr F.*1 = true →
  (16 ≤ len contents → ∀ e, (_raw_buffers fuel contents F).1.2 ≠ Raised e)
  ∧ (len contents < 16 →
     _raw_buffers (S fuel) contents F = ([], [], Raised StructError, F))
  ∧ (_raw_buffers fuel contents F).1.2 ≠ Raised UnexpectedEndOfFileException.
Proof.
  intros Hvalid.
  pose proof (remove_invalid_filters_valid F Hvalid) as Hrm.
  assert (16 ≤ len contents →
          ∀ e, (_raw_buffers fuel contents F).1.2 ≠ Raised e) as Hlong.
  { intros Hlen e. rewrite raw_buffers_validated by done.
    pose proof (raw_buffers_loop_safe contents F fuel (initial_state F)
                  ltac:(simpl; lia) ltac:(simpl; lia)
                  ltac:(right; simpl; lia) e) as Hsafe.
    destruct (raw_buffers_loop fuel contents F (initial_state F)) as [ys o].
    exact Hsafe. }
  assert (∀ n, len contents < 16 →
          _raw_buffers (S n) contents F = ([], [], Raised StructError, F))
    as Hshort.
  { intros n Hlen. rewrite raw_buffers_validated by done.
    simpl. unfold loop_body. simpl cursor.
    rewrite new_from_raw_data_error_struct.
    unfold new_from_raw_data, SIZE.
    destruct (Z.ltb_spec (len contents - 0) 16); [reflexivity|lia]. }
  split; [exact Hlong|]. split; [apply Hshort|].
  destruct (Z.lt_ge_cases (len contents) 16) as [Hlen|Hlen].
  - destruct fuel as [|n].
    + rewrite raw_buffers_validated by done. simpl. discriminate.
    + rewrite Hshort by done. simpl. discriminate.
  - apply Hlong. lia.
Qed.

Lemma scanner_raises_only_on_short_files_witness :
  (∀ e, (_raw_buffers 50 (zeros 40) [("typ"%string, [5])]).1.2 ≠ Raised e)
  ∧ _raw_buffers 50 (zeros 15) [("typ"%string, [5])]
    = ([], [], Raised StructError, [("typ"%string, [5])]).
Proof.
  destruct (scanner_raises_only_on_short_files (zeros 40) [("typ"%string, [5])]
              50 eq_refl) as [H1 _].
  destruct (scanner_raises_only_on_short_files (zeros 15) [("typ"%string, [5])]
              49 eq_refl) as (_ & H2 & _).
  split; [apply H1; vm_compute; discriminate | apply H2; reflexivity].
Defined.

(** X5.  A file that passes [_filetype_check] has a first record with tag
    TIME, 18 bytes per sample and address 0xAA55 (a packed first record
    passes exactly when it has these three values; the number of samples
    is not looked at), and the scan of such a file, which
    [SEAFile.__init__] starts right after the check, never raises. *)
Theorem filetype_check_then_scan (contents : list byte) (F : filter_dict) :
  _filetype_check contents = true →
  forallb hasattr F.*1 = true →
  (∃ e, new_from_raw_data contents 0 = Some e ∧ tag_number e = TIME_TAG
        ∧ bytes_per_sample e = 18 ∧ address e = 43605)
  ∧ (∀ fuel e, (_raw_buffers fuel contents F).1.2 ≠ Raised e)
  ∧ (∀ e rest, wf_entry e = true →
       (_filetype_check (pack_entry e ++ rest) = true
        ↔ tag_number e = TIME_TAG ∧ bytes_per_sample e = 18
          ∧ address e = 43605)).
Proof.
  intros Hck Hvalid.
  assert (∀ e, negb (negb (tag_number e =? TIME_TAG)
                     || negb (bytes_per_sample e =? _TIME_DATASET_BYTES_PER_SAMPLE)
                     || negb (address e =? _TIME_DATASET_ADDRESS)) = true
               ↔ tag_number e = TIME_TAG ∧ bytes_per_sample e = 18
                 ∧ address e = 43605) as Hcond.
  { intros e. unfold _TIME_DATASET_BYTES_PER_SAMPLE, _TIME_DATASET_ADDRESS.
    rewrite negb_true_iff, !orb_false_iff, !negb_false_iff, !Z.eqb_eq. tauto. }
  unfold _filetype_check in Hck.
  destruct (new_from_raw_data contents 0) as [e|] eqn:He; [|done].
  split; [|split].
  - exists e. split; [done|]. by apply Hcond.
  - intros fuel e'.
    apply new_from_raw_data_decode in He as (Hlen & _); [|lia].
    rewrite raw_buffers_validated by (by apply remove_invalid_filters_valid).
    pose proof (raw_buffers_loop_safe contents F fuel (initial_state F)
                  ltac:(simpl; lia) ltac:(simpl; lia)
                  ltac:(right; simpl; lia) e') as Hsafe.
    destruct (raw_buffers_loop fuel contents F (initial_state F)) as [ys o].
    exact Hsafe.
  - intros e' rest Hwf. unfold _filetype_check.
    pose proof (new_from_raw_data_pack [] e' rest Hwf) as Hr.
    change (new_from_raw_data (pack_entry e' ++ rest) 0 = Some e') in Hr.
    rewrite Hr. apply Hcond.
Qed.

Lemma filetype_check_then_scan_witness :
  (∃ e, new_from_raw_data
          (pack_entry (mkDirectoryEntry 0 16 18 1 18 0 0 0 0 43605)
           ++ zeros 18) 0 = Some e
        ∧ tag_number e = TIME_TAG ∧ bytes_per_sample e = 18
        ∧ address e = 43605)
  ∧ (∀ fuel e,
       (_raw_buffers fuel
          (pack_entry (mkDirectoryEntry 0 16 18 1 18 0 0 0 0 43605)
           ++ zeros 18) []).1.2 ≠ Raised e).
Proof.
  destruct (filetype_check_then_scan
              (pack_entry (mkDirectoryEntry 0 16 18 1 18 0 0 0 0 43605)
               ++ zeros 18) [] eq_refl eq_refl) as (H1 & H2 & _).
  split; [exact H1 | exact H2].
Defined.

(** ** Leading bytes and filters *)

(** A pass of the signature search over a record that does not match. *)
Lemma pass_search contents F c t drop e :
  0 ≤ c → c + 17 < len contents →
  new_from_raw_data contents c = Some e →
  is_time_signature e = false →
  runs contents F 1 (mkScan c t c [] drop false true) []
       (mkScan (c + 1) (t + 1) (c + 1) [] drop false true).
Proof.
  intros Hc Hlen He Hsig. apply runs_step; [reflexivity|].
  unfold loop_body. simpl cursor. rewrite He, classify_first, Hsig. simpl.
  unfold SIZE. destruct (Z.leb_spec (len contents - 16) (c + 1)); [lia|done].
Qed.

Lemma search_garbage contents F (n : nat) : ∀ c t drop,
  0 ≤ c → c + Z.of_nat n + 17 < len contents →
  (∀ i e, c ≤ i < c + Z.of_nat n →
          new_from_raw_data contents i = Some e → is_time_signature e = false) →
  runs contents F n (mkScan c t c [] drop false true) []
       (mkScan (c + Z.of_nat n) (t + Z.of_nat n) (c + Z.of_nat n) [] drop
               false true).
Proof.
  induction n as [|n IH]; intros c t drop Hc Hlen Hno.
  { simpl. rewrite !Z.add_0_r. apply runs_refl. }
  destruct (new_from_raw_data_available contents c Hc ltac:(lia)) as [e He].
  replace (c + Z.of_nat (S n)) with (c + 1 + Z.of_nat n) by lia.
  replace (t + Z.of_nat (S n)) with (t + 1 + Z.of_nat n) by lia.
  change (S n) with (1 + n)%nat.
  eapply runs_then.
  - apply (pass_search contents F c t drop e); [lia|lia|done|].
    apply (Hno c e); [lia|done].
  - apply IH; [lia|lia|]. intros i e' Hi. apply Hno. lia.
Qed.

(** The scan of a synthetic file that lies behind [pre], entered at its
    start in the signature test. *)
Lemma scan_synthetic_from F pre nexts last t drop :
  forallb next_segment_ok nexts = true →
  last_segment_ok last = true →
  ∃ k st, reached_end st = true
    ∧ runs (pre ++ synthetic_file nexts last) F k
           (mkScan (len pre) t (len pre) [] drop false true)
           ((scanned F drop nexts).1 ++ [emitted last]) st.
Proof.
  intros Hn Hl.
  destruct (scan_next_segments F nexts pre (segment_bytes last) t drop
              Hn (last_segment_long last Hl)) as [k1 H1].
  destruct (scan_last_segment F (pre ++ flat_map segment_bytes nexts) last t
              (scanned F drop nexts).2 Hl) as (st & Hend & H2).
  exists (k1 + segment_passes last)%nat, st. split; [done|].
  unfold synthetic_file.
  rewrite len_app, <- app_assoc in H2.
  exact (runs_trans _ _ _ _ _ _ _ _ _ H1 H2).
Qed.

(** X6.  Resynchronization: when bytes that are no part of any buffer
    precede a synthetic file, and no 16 bytes starting among them look
    like a time record (tag 0, 36 bytes, 2 samples, 18 bytes per sample),
    the scanner steps over them one byte at a time and yields the same
    buffers as for the file without them. *)
Theorem leading_bytes_skipped (garbage : list byte) (nexts : list segment)
    (last : segment) :
  (∀ i e, 0 ≤ i < len garbage →
          new_from_raw_data (garbage ++ synthetic_file nexts last) i = Some e →
          is_time_signature e = false) →
  forallb next_segment_ok nexts = true →
  last_segment_ok last = true →
  ∃ k, ∀ fuel,
    _raw_buffers (k + fuel) (garbage ++ synthetic_file nexts last) []
    = ([], map emitted nexts ++ [emitted last], Exhausted, []).
Proof.
  intros Hno Hn Hl.
  destruct (scan_synthetic_from [] garbage nexts last (0 + len garbage) false
              Hn Hl) as (k & st & Hend & Hk).
  assert (33 ≤ len (synthetic_file nexts last)) as Hlong'.
  { unfold synthetic_file. rewrite len_app, len_segment_bytes.
    pose proof (len_nonneg (flat_map segment_bytes nexts)).
    pose proof (len_nonneg (seg_records last)).
    unfold last_segment_ok in Hl. rewrite !andb_true_iff, Z.ltb_lt in Hl.
    unfold SIZE in Hl. lia. }
  pose proof (search_garbage (garbage ++ synthetic_file nexts last) []
                (length garbage) 0 0 false ltac:(lia)) as Hs.
  fold (len garbage) in Hs. rewrite len_app in Hs.
  specialize (Hs ltac:(lia)).
  assert (∀ i e, 0 ≤ i < 0 + len garbage →
            new_from_raw_data (garbage ++ synthetic_file nexts last) i = Some e →
            is_time_signature e = false) as Hno'
    by (intros i e Hi; apply Hno; lia).
  specialize (Hs Hno'). rewrite !Z.add_0_l in Hs, Hk.
  exists (length garbage + k)%nat. intros fuel.
  rewrite raw_buffers_validated by reflexivity.
  pose proof (runs_then _ _ _ _ _ _ _ _ Hs Hk fuel) as Hr.
  unfold initial_state. simpl nonempty.
  rewrite Hr, raw_buffers_loop_end by done.
  rewrite app_nil_r, scanned_no_filter. reflexivity.
Qed.

Lemma leading_bytes_skipped_witness :
  ∃ k, ∀ fuel,
    _raw_buffers (k + fuel)
      (zeros 5 ++ synthetic_file [first_segment] final_segment) []
    = ([], [emitted first_segment; emitted final_segment], Exhausted, []).
Proof.
  apply (leading_bytes_skipped (zeros 5) [first_segment] final_segment);
    [|reflexivity|reflexivity].
  intros i e Hi.
  assert (i = 0 ∨ i = 1 ∨ i = 2 ∨ i = 3 ∨ i = 4) as Hcases
    by (change (len (zeros 5)) with 5 in Hi; lia).
  destruct Hcases as [->|[->|[->|[->| ->]]]];
    vm_compute; intros [= <-]; reflexivity.
Defined.

Lemma drop_after_nonempty F d es :
  nonempty F = true →
  drop_after F d es = d && negb (existsb (filter_match F) es).
Proof.
  intros HF. unfold drop_after. revert d.
  induction es as [|e es IH]; intros d; simpl.
  - by rewrite andb_true_r.
  - rewrite IH. unfold filter_check. rewrite HF. simpl.
    destruct (filter_match F e), d; reflexivity.
Qed.

Lemma scanned_kept F nexts : ∀ d,
  nonempty F = true →
  (scanned F d nexts).1 = map emitted (kept_segments F (negb d) nexts).
Proof.
  induction nexts as [|s nexts IH]; intros d HF; [reflexivity|].
  cbn [scanned kept_segments].
  specialize (IH (filter_check F (nonempty F) (seg_term s)) HF).
  destruct (scanned F (filter_check F (nonempty F) (seg_term s)) nexts)
    as [ys d'].
  cbn [fst] in *. rewrite IH, map_app, drop_after_nonempty by done.
  unfold filter_check. rewrite HF. cbn [andb].
  f_equal.
  - by destruct d, (existsb (filter_match F) (seg_first s :: seg_records s)).
  - by destruct (filter_match F (seg_term s)).
Qed.

Lemma kept_segments_none F nexts : ∀ carry,
  carry = false →
  (∀ s, s ∈ nexts →
        existsb (filter_match F) (seg_first s :: seg_records s ++ [seg_term s])
        = false) →
  kept_segments F carry nexts = [].
Proof.
  induction nexts as [|s nexts IH]; intros carry -> Hno; [reflexivity|].
  cbn [kept_segments].
  pose proof (Hno s ltac:(left)) as Hs.
  change (seg_first s :: seg_records s ++ [seg_term s])
    with ((seg_first s :: seg_records s) ++ [seg_term s]) in Hs.
  rewrite existsb_app in Hs. apply orb_false_iff in Hs as [Hs1 Hs2].
  simpl in Hs2. rewrite orb_false_r in Hs2.
  rewrite Hs1. simpl. apply IH; [done|].
  intros s' Hin. apply Hno. by right.
Qed.

(** X7.  The scanner under a non-empty filter of valid names, on a
    synthetic file: it yields, in stream order, the NEXT-terminated
    buffers that have a record matching a constraint ahead of their NEXT
    record or that follow a buffer whose NEXT record matched, and then the
    final LAST-terminated buffer, which is yielded whatever the filter;
    when no record matches at all, the final buffer is all it yields. *)
Theorem filtered_scan (F : filter_dict) (nexts : list segment)
    (last : segment) :
  nonempty F = true →
  forallb hasattr F.*1 = true →
  forallb next_segment_ok nexts = true →
  last_segment_ok last = true →
  (∃ k, ∀ fuel,
     _raw_buffers (k + fuel) (synthetic_file nexts last) F
     = ([], map emitted (kept_segments F false nexts) ++ [emitted last],
        Exhausted, F))
  ∧ ((∀ s, s ∈ nexts →
        existsb (filter_match F) (seg_first s :: seg_records s ++ [seg_term s])
        = false) →
     ∃ k, ∀ fuel,
       _raw_buffers (k + fuel) (synthetic_file nexts last) F
       = ([], [emitted last], Exhausted, F)).
Proof.
  intros HF Hvalid Hn Hl.
  destruct (scan_synthetic_file F nexts last Hn Hl) as [k Hk].
  assert (∀ fuel,
     _raw_buffers (k + fuel) (synthetic_file nexts last) F
     = ([], map emitted (kept_segments F false nexts) ++ [emitted last],
        Exhausted, F)) as H.
  { intros fuel.
    rewrite raw_buffers_validated by (by apply remove_invalid_filters_valid).
    rewrite Hk, HF, scanned_kept by done. reflexivity. }
  split; [by exists k|].
  intros Hno. exists k. intros fuel.
  rewrite H, kept_segments_none by done. reflexivity.
Qed.

Lemma filtered_scan_witness :
  ∃ k, ∀ fuel,
    _raw_buffers (k + fuel)
      (synthetic_file [first_segment; two_record_segment; first_segment]
                      final_segment)
      [("tag_number"%string, [8; 999])]
    = ([], [emitted two_record_segment; emitted first_segment;
            emitted final_segment],
       Exhausted, [("tag_number"%string, [8; 999])]).
Proof.
  destruct (filtered_scan [("tag_number"%string, [8; 999])]
              [first_segment; two_record_segment; first_segment]
              final_segment eq_refl eq_refl eq_refl eq_refl) as [H _].
  exact H.
Defined.

(** ** The decoder loop of [iter_buffers] *)

Lemma decode_matching_flow rem raw e : ∀ b d,
  ∃ w b' d', decode_matching rem raw e b d = (w, Continue b' d')
  ∨ ∃ w ex, decode_matching rem raw e b d = (w, Raise ex).
Proof.
  induction rem as [|[attr accepted] rem IH]; intros b d; simpl.
  { eexists _, _, _. by left. }
  destruct (attr_in e attr accepted); [|apply IH].
  destruct (_read_dataset e raw) as [w [ex|values]].
  { exists [], b, d. right. by eexists _, _. }
  destruct (IH (add_dataset b e (DInts values)) false)
    as (w' & b' & d' & [->|(w'' & ex & ->)]).
  - eexists _, _, _. by left.
  - exists [], b, d. right. by eexists _, _.
Qed.

(** Only a NEXT record makes the loop over the entries break. *)
Lemma decode_entry_break F sec raw b d e w ys :
  decode_entry F sec raw b d e = (w, Break ys) → tag_number e = NEXT_TAG.
Proof.
  unfold decode_entry.
  destruct (Z.eqb_spec (tag_number e) TIME_TAG).
  { destruct (unpack_seatime raw (data_offset e)); discriminate. }
  destruct (Z.eqb_spec (tag_number e) NEXT_TAG); [done|].
  destruct ((RESERVED_TAG_LOW_END <=? tag_number e)
            && (tag_number e <=? RESERVED_TAG_HIGH_END)); [discriminate|].
  destruct ((tag_number e =? FILENAME_TAG) || (tag_number e =? FILEDATA_TAG)).
  { destruct (_unpack_string_data raw e); discriminate. }
  destruct ((tag_number e =? COMMAND_TAG) || (tag_number e =? ERROR_TAG)
            || (tag_number e =? SAME_TAG)); [discriminate|].
  destruct (tag_number e =? LAST_TAG); [discriminate|].
  destruct (bool_decide (tag_number e ∈ sec)); [discriminate|].
  destruct (nonempty F).
  - destruct (decode_matching_flow F raw e b d)
      as (w' & b' & d' & [->|(w'' & ex & ->)]); discriminate.
  - destruct (_read_dataset e raw) as [w' [ex|values]]; discriminate.
Qed.

Lemma decode_entries_no_next F sec raw es : ∀ b d,
  Forall (fun e => tag_number e ≠ NEXT_TAG) es →
  flow_yields (decode_entries F sec raw es b d).2 = [].
Proof.
  induction es as [|e es IH]; intros b d Hes; [reflexivity|].
  apply Forall_cons in Hes as [He Hes]. simpl.
  destruct (decode_entry F sec raw b d e) as [w r] eqn:E.
  destruct r as [b' d'|ys| |ex]; try reflexivity.
  - specialize (IH b' d' Hes).
    by destruct (decode_entries F sec raw es b' d').
  - apply decode_entry_break in E. done.
Qed.

Lemma segment_entries_no_next s :
  segment_ok s = true → tag_number (seg_term s) ≠ NEXT_TAG →
  Forall (fun e => tag_number e ≠ NEXT_TAG) (segment_entries s).
Proof.
  intros Hok Hterm.
  apply segment_ok_spec in Hok as (Hwf & Hsig & Hrecs & _).
  pose proof (plain_record_spec _ (time_signature_plain _ Hwf Hsig))
    as (_ & Hf & _).
  unfold segment_entries.
  apply Forall_cons. split; [done|]. apply Forall_cons. split; [done|].
  apply Forall_app. split; [|by apply Forall_singleton].
  apply Forall_forall. intros e He.
  rewrite forallb_forall in Hrecs.
  apply list_elem_of_In, Hrecs, plain_record_spec in He. tauto.
Qed.

(** X8.  [iter_buffers] hands a Buffer to its consumer only at a NEXT
    record: the entries of a raw buffer without one (the final,
    LAST-terminated buffer, or the tail of a truncated file) never yield
    a Buffer; so for a file that consists of a final buffer only, nothing
    is delivered, whatever the filter and however the decoding ends. *)
Theorem final_buffer_not_delivered (F : filter_dict) (sec : gset Z)
    (last : segment) :
  forallb hasattr F.*1 = true →
  last_segment_ok last = true →
  (∀ raw es b d, Forall (fun e => tag_number e ≠ NEXT_TAG) es →
     flow_yields (decode_entries F sec raw es b d).2 = [])
  ∧ ∃ k, ∀ fuel,
      (iter_buffers (k + fuel) (synthetic_file [] last) sec F).1.2 = [].
Proof.
  intros Hvalid Hl. split.
  { intros raw es b d. apply decode_entries_no_next. }
  destruct (scan_synthetic_file F [] last eq_refl Hl) as [k Hk].
  exists k. intros fuel. unfold iter_buffers.
  rewrite raw_buffers_validated by (by apply remove_invalid_filters_valid).
  rewrite Hk. cbn [scanned fst app emitted decode_buffers].
  assert (Forall (fun e => tag_number e ≠ NEXT_TAG) (segment_entries last))
    as Hno.
  { unfold last_segment_ok in Hl. rewrite !andb_true_iff, Z.eqb_eq in Hl.
    destruct Hl as [[Hok Htag] _].
    apply segment_entries_no_next; [done|]. rewrite Htag. done. }
  pose proof (decode_entries_no_next F sec (segment_bytes last)
                (segment_entries last) Buffer_new (nonempty F) Hno) as Hy.
  destruct (decode_entries F sec (segment_bytes last) (segment_entries last)
              Buffer_new (nonempty F)) as [w r].
  destruct r as [b' d'|ys| |ex]; simpl in *; try reflexivity.
  by subst ys.
Qed.

Lemma final_buffer_not_delivered_witness :
  ∃ k, ∀ fuel,
    (iter_buffers (k + fuel) (synthetic_file [] final_segment) ∅ []).1.2 = [].
Proof.
  destruct (final_buffer_not_delivered [] ∅ final_segment eq_refl eq_refl)
    as [_ H].
  exact H.
Defined.

(** Without a filter an ordinary data record is read and added. *)
Lemma decode_entry_unfiltered sec raw b d e :
  ordinary_record sec e = true →
  decode_entry [] sec raw b d e
  = match _read_dataset e raw with
    | (w, inl ex) => (w, Raise ex)
    | (w, inr values) => (w, Continue (add_dataset b e (DInts values)) d)
    end.
Proof.
  unfold ordinary_record, decode_entry.
  rewrite !andb_true_iff, !negb_true_iff.
  intros ((((((-> & ->) & ->) & ->) & ->) & ->) & ->). reflexivity.
Qed.

(** A run of ordinary data records that decode, without a filter: each
    is read and added, and the pass goes on with what follows. *)
Lemma decode_entries_ordinary (sec : gset Z) (raw : list byte)
    (es rest : list DirectoryEntry) : ∀ (b : Buffer) (d : bool),
  forallb (fun e => ordinary_record sec e && decodes raw e) es = true →
  decode_entries [] sec raw (es ++ rest) b d
  = let '(w, r) := decode_entries [] sec raw rest
                     (add_datasets b
                        (map (fun e => (e, DInts (decoded raw e))) es)) d in
    (concat (map (fun e => (_read_dataset e raw).1) es) ++ w, r).
Proof.
  induction es as [|e es IH]; intros b d Hes.
  - simpl. by destruct (decode_entries [] sec raw rest b d).
  - simpl in Hes. apply andb_true_iff in Hes as [He Hes].
    apply andb_true_iff in He as [Hord Hdec].
    change ((e :: es) ++ rest) with (e :: es ++ rest).
    cbn [decode_entries]. rewrite decode_entry_unfiltered by done.
    unfold decodes in Hdec. unfold decoded at 1.
    cbn [map concat add_datasets foldl fst snd].
    destruct (_read_dataset e raw) as [w [ex|values]]; [done|].
    cbn [fst snd]. rewrite IH by done.
    fold (add_datasets (add_dataset b e (DInts values))
            (map (fun e => (e, DInts (decoded raw e))) es)).
    destruct (decode_entries [] sec raw rest _ d) as [w' r].
    by rewrite app_assoc.
Qed.

(** X9.  Without a filter, a run of ordinary data records that all decode,
    followed by a NEXT record, makes [iter_buffers] yield (unless the
    buffer was marked for discarding) the Buffer obtained by
    [add_dataset] of every record with its decoded values, in order, and
    ignore whatever entries come after the NEXT record; the warnings are
    those of the single reads. *)
Theorem unfiltered_buffer_fully_decoded (sec : gset Z) (raw : list byte)
    (es rest : list DirectoryEntry) (term : DirectoryEntry) (b : Buffer)
    (d : bool) :
  forallb (fun e => ordinary_record sec e && decodes raw e) es = true →
  tag_number term = NEXT_TAG →
  decode_entries [] sec raw (es ++ term :: rest) b d
  = (concat (map (fun e => (_read_dataset e raw).1) es),
     Break (if d then []
            else [add_datasets b
                    (map (fun e => (e, DInts (decoded raw e))) es)])).
Proof.
  intros Hes Hterm.
  assert (∀ b', decode_entries [] sec raw (term :: rest) b' d
                = ([], Break (if d then [] else [b']))) as Hnext.
  { intros b'. cbn [decode_entries]. unfold decode_entry.
    rewrite Hterm. reflexivity. }
  rewrite decode_entries_ordinary, Hnext by done. by rewrite app_nil_r.
Qed.

Lemma unfiltered_buffer_fully_decoded_witness :
  ∃ b, decode_entries [] ∅ (segment_bytes two_record_segment)
         (seg_records two_record_segment ++ [seg_term two_record_segment])
         Buffer_new false
       = ([], Break [b])
    ∧ get_dataset_by_tag_number b 8 = inr (DInts [0]).
Proof.
  eexists. split.
  - apply (unfiltered_buffer_fully_decoded ∅
             (segment_bytes two_record_segment)
             (seg_records two_record_segment) []
             (seg_term two_record_segment) Buffer_new false); reflexivity.
  - vm_compute. reflexivity.
Defined.

(** Without a filter, [discard_buffer] is never reset. *)
Lemma decode_entry_unfiltered_discard sec raw b e w b' d' :
  decode_entry [] sec raw b true e = (w, Continue b' d') → d' = true.
Proof.
  unfold decode_entry.
  repeat match goal with
  | |- context [if ?c then _ else _] => destruct c
  | |- context [match ?x with inl _ => _ | inr _ => _ end] => destruct x
  | |- context [let '(_, _) := ?x in _] => destruct x
  | |- context [match ?x with (_, _) => _ end] => destruct x
  end; simpl; congruence.
Qed.

Lemma decode_entries_discarded sec raw es : ∀ b,
  flow_yields (decode_entries [] sec raw es b true).2 = [].
Proof.
  induction es as [|e es IH]; intros b; [reflexivity|]. simpl.
  destruct (decode_entry [] sec raw b true e) as [w r] eqn:E.
  destruct r as [b' d'|ys| |ex]; try reflexivity.
  - apply decode_entry_unfiltered_discard in E as ->.
    specialize (IH b'). by destruct (decode_entries [] sec raw es b' true).
  - pose proof (decode_entry_break _ _ _ _ _ _ _ _ E) as Htag.
    unfold decode_entry in E. rewrite Htag in E. simpl in E.
    injection E as _ <-. reflexivity.
Qed.

Lemma decode_entry_discarding sec raw b d e :
  discarding_record sec e = true →
  decode_entry [] sec raw b d e = ([], Continue b true).
Proof.
  unfold discarding_record, decode_entry.
  destruct (Z.eqb_spec (tag_number e) COMMAND_TAG) as [->|_]; [reflexivity|].
  destruct (Z.eqb_spec (tag_number e) ERROR_TAG) as [->|_]; [reflexivity|].
  destruct (Z.eqb_spec (tag_number e) SAME_TAG) as [->|_]; [reflexivity|].
  simpl. rewrite !andb_true_iff, !negb_true_iff.
  intros (((((-> & ->) & ->) & ->) & ->) & ->). reflexivity.
Qed.

(** X10.  Without a filter, a COMMAND, ERROR or SAME record, or a record
    with a secondary tag, ahead of the NEXT record of a buffer keeps
    [iter_buffers] from yielding that buffer, whatever the other records
    are and whether they decode. *)
Theorem discarding_record_suppresses_buffer (sec : gset Z) (raw : list byte)
    (es1 es2 : list DirectoryEntry) (c : DirectoryEntry) (b : Buffer)
    (d : bool) :
  Forall (fun e => tag_number e ≠ NEXT_TAG) es1 →
  discarding_record sec c = true →
  flow_yields (decode_entries [] sec raw (es1 ++ c :: es2) b d).2 = [].
Proof.
  intros Hes Hc. revert b d.
  induction es1 as [|e es1 IH]; intros b d.
  - simpl. rewrite decode_entry_discarding by done.
    pose proof (decode_entries_discarded sec raw es2 b) as H.
    by destruct (decode_entries [] sec raw es2 b true).
  - apply Forall_cons in Hes as [He Hes]. specialize (IH Hes).
    change ((e :: es1) ++ c :: es2) with (e :: es1 ++ c :: es2).
    cbn [decode_entries].
    destruct (decode_entry [] sec raw b d e) as [w r] eqn:E.
    destruct r as [b' d'|ys| |ex]; try reflexivity.
    + specialize (IH b' d').
      by destruct (decode_entries [] sec raw (es1 ++ c :: es2) b' d').
    + apply decode_entry_break in E. done.
Qed.

Lemma discarding_record_suppresses_buffer_witness :
  flow_yields
    (decode_entries [] ∅ (segment_bytes two_record_segment)
       ([data_record 7 100 2 1 2 1] ++ data_record SAME_TAG 0 0 0 0 0
          :: [data_record 8 102 2 1 2 1; next_record 104])
       Buffer_new false).2 = [].
Proof.
  apply discarding_record_suppresses_buffer; [|reflexivity].
  apply Forall_singleton. vm_compute. discriminate.
Defined.

Lemma decode_matching_count raw e w values
    (Hread : _read_dataset e raw = (w, inr values)) rem : ∀ b d,
  decode_matching rem raw e b d
  = (concat (replicate (length (accepting rem e)) w),
     Continue (add_datasets b (replicate (length (accepting rem e))
                                         (e, DInts values)))
              (if decide (length (accepting rem e) = 0%nat) then d else false)).
Proof.
  induction rem as [|[attr accepted] rem IH]; intros b d; [reflexivity|].
  cbn [decode_matching accepting List.filter fst snd].
  destruct (attr_in e attr accepted); [|apply IH].
  rewrite Hread, IH. cbn [length replicate concat].
  fold (accepting rem e).
  destruct (decide (length (accepting rem e) = 0%nat));
    destruct (decide (S (length (accepting rem e)) = 0%nat)); try lia;
    reflexivity.
Qed.

Lemma add_datasets_replicate_typ b e ds n :
  tag_number e ≠ TIME_TAG →
  default [] (datasets_by_typ (add_datasets b (replicate n (e, ds))) !! typ e)
  = default [] (datasets_by_typ b !! typ e) ++ replicate n ds.
Proof.
  intros Hnt. induction n as [|n IH].
  - simpl. by rewrite app_nil_r.
  - rewrite replicate_S_end, add_datasets_snoc.
    destruct (add_dataset_by_typ (add_datasets b (replicate n (e, ds))) e ds Hnt)
      as [-> _].
    rewrite (replicate_S_end n ds), app_assoc, <- IH. reflexivity.
Qed.

Lemma ordinary_record_not_time sec e :
  ordinary_record sec e = true → tag_number e ≠ TIME_TAG.
Proof.
  unfold ordinary_record. rewrite !andb_true_iff, !negb_true_iff, Z.eqb_neq.
  tauto.
Qed.

(** X11.  Under a non-empty filter the decoder reads and adds an ordinary
    data record once for every constraint that accepts it (its loop over
    the constraints has no [break]): with [n] accepting constraints the
    warnings of the read are issued [n] times and the typ-indexed
    list of the record's typ grows by [n] copies of the dataset;
    [discard_buffer] is reset as soon as [n] is not zero. *)
Theorem accepted_record_added_per_constraint (F : filter_dict) (sec : gset Z)
    (raw : list byte) (b : Buffer) (d : bool) (e : DirectoryEntry)
    (w : list warning) (values : list Z) :
  ordinary_record sec e = true →
  nonempty F = true →
  _read_dataset e raw = (w, inr values) →
  decode_entry F sec raw b d e
  = (concat (replicate (length (accepting F e)) w),
     Continue (add_datasets b (replicate (length (accepting F e))
                                         (e, DInts values)))
              (if decide (length (accepting F e) = 0%nat) then d else false))
  ∧ (length (accepting F e) ≠ 0%nat →
     get_datasets_by_typ
       (add_datasets b (replicate (length (accepting F e)) (e, DInts values)))
       (typ e)
     = inr (default [] (datasets_by_typ b !! typ e)
            ++ replicate (length (accepting F e)) (DInts values))).
Proof.
  intros Hord HF Hread. split.
  - rewrite decode_entry_ordinary by done.
    by apply decode_matching_count.
  - intros Hn. unfold get_datasets_by_typ, index.
    pose proof (add_datasets_replicate_typ b e (DInts values)
                  (length (accepting F e))
                  (ordinary_record_not_time sec e Hord)) as Hl.
    destruct (length (accepting F e)) as [|n] eqn:En; [done|].
    rewrite replicate_S_end, add_datasets_snoc in *.
    destruct (add_dataset_by_typ
                (add_datasets b (replicate n (e, DInts values))) e
                (DInts values) (ordinary_record_not_time sec e Hord))
      as [Hs _].
    rewrite Hs in *. simpl in Hl. by rewrite Hl.
Qed.

Lemma accepted_record_added_per_constraint_witness :
  get_datasets_by_typ
    (add_datasets Buffer_new
       (replicate (length (accepting [("tag_number"%string, [7]);
                                      ("typ"%string, [1])]
                                     (data_record 7 100 2 1 2 1)))
                  (data_record 7 100 2 1 2 1, DInts [0]))) 1
  = inr [DInts [0]; DInts [0]].
Proof.
  destruct (accepted_record_added_per_constraint
              [("tag_number"%string, [7]); ("typ"%string, [1])] ∅
              (segment_bytes two_record_segment) Buffer_new true
              (data_record 7 100 2 1 2 1) [] [0]) as [_ H];
    [reflexivity|reflexivity|reflexivity|].
  apply H. vm_compute. discriminate.
Defined.

(** ** The dataset decoder on arbitrary records *)

Lemma unpack_from_outcome s buffer offset ex :
  unpack_from s buffer offset = inl ex → ex = StructError.
Proof. unfold unpack_from. case_match; congruence. Qed.

(** X12.  [_read_dataset] raises [ValueError] exactly for a record of a
    known acquisition type whose [number_of_bytes] is at least
    [samples * bytes_per_sample] and whose payload, by that product,
    would end past the raw buffer; every other failure is the
    [struct.error] of the unpacking. *)
Theorem read_dataset_errors (e : DirectoryEntry) (raw : list byte) :
  ((_read_dataset e raw).2 = inl ValueError
   ↔ is_Some (sample_string e)
     ∧ samples e * bytes_per_sample e ≤ number_of_bytes e
     ∧ len raw < data_offset e + samples e * bytes_per_sample e)
  ∧ (∀ ex, (_read_dataset e raw).2 = inl ex →
           ex = ValueError ∨ ex = StructError).
Proof.
  unfold _read_dataset, _read_dataset_raw.
  destruct (sample_string e) as [[w s]|] eqn:Hs.
  - destruct (Z.ltb_spec (number_of_bytes e)
                         (samples e * bytes_per_sample e)) as [Hnb|Hnb].
    + cbn [snd]. split.
      * split.
        -- intros H. by apply unpack_from_outcome in H.
        -- intros (_ & ? & _). lia.
      * intros ex H. right. by apply unpack_from_outcome in H.
    + destruct (Z.ltb_spec (len raw)
                  (data_offset e + samples e * bytes_per_sample e)) as [Hl|Hl];
        cbn [snd]; split.
      * split; [intros _; split; [by eexists|lia] | done].
      * intros ex [= <-]. by left.
      * split.
        -- intros H. by apply unpack_from_outcome in H.
        -- intros (_ & _ & ?). lia.
      * intros ex H. right. by apply unpack_from_outcome in H.
  - cbn [snd]. split.
    + split.
      * intros H. by apply unpack_from_outcome in H.
      * intros ([? ?] & _). done.
    + intros ex H. right. by apply unpack_from_outcome in H.
Qed.

Lemma concat_replicate_singleton {A} (x : A) (n : nat) :
  concat (replicate n [x]) = replicate n x.
Proof. induction n as [|n IH]; simpl; [done|]. by rewrite IH. Qed.

Lemma calcsize_replicate_FB (n : nat) : calcsize (replicate n FB) = Z.of_nat n.
Proof.
  induction n as [|n IH]; [reflexivity|].
  cbn [replicate calcsize foldr]. fold (calcsize (replicate n FB)).
  rewrite IH. simpl fmt_size. lia.
Qed.

Lemma unpack_replicate_FB (n : nat) : ∀ bs,
  (n ≤ length bs)%nat →
  unpack (replicate n FB) bs = map byte_val (take n bs).
Proof.
  induction n as [|n IH]; intros bs Hn; [reflexivity|].
  destruct bs as [|b bs]; [simpl in Hn; lia|].
  cbn [replicate unpack]. simpl fmt_size.
  change (Z.to_nat 1) with 1%nat. cbn [take drop map fmt_decode le_unsigned].
  rewrite take_0, drop_0. cbn [le_unsigned].
  rewrite IH by (simpl in Hn; lia). f_equal. lia.
Qed.

(** X13.  A record of an unknown acquisition type is read as
    [number_of_bytes] raw bytes: exactly one warning is issued, the
    result is the values of the bytes of the raw buffer from
    [data_offset] on, no declared size is checked, and the only failure
    is [struct.error] when those bytes reach past the raw buffer. *)
Theorem unknown_type_read_as_bytes (e : DirectoryEntry) (raw : list byte) :
  sample_string e = None →
  0 ≤ data_offset e → 0 ≤ number_of_bytes e →
  (_read_dataset e raw).1 = [WarnUnknownType (typ e)]
  ∧ (data_offset e + number_of_bytes e ≤ len raw →
     (_read_dataset e raw).2
     = inr (map byte_val (slice raw (data_offset e)
                                (data_offset e + number_of_bytes e))))
  ∧ (len raw < data_offset e + number_of_bytes e →
     (_read_dataset e raw).2 = inl StructError).
Proof.
  intros Hs Hoff Hnb. unfold _read_dataset, _read_dataset_raw. rewrite Hs.
  cbn [fst snd]. split; [reflexivity|].
  unfold unpack_from, str_mul.
  rewrite concat_replicate_singleton, calcsize_replicate_FB, Z2Nat.id by lia.
  split; intros Hlen.
  - destruct (Z.ltb_spec (len raw - data_offset e) (number_of_bytes e)); [lia|].
    rewrite unpack_replicate_FB, slice_take_drop by
      (try rewrite length_drop; unfold len in *; lia).
    reflexivity.
  - destruct (Z.ltb_spec (len raw - data_offset e) (number_of_bytes e));
      [done|lia].
Qed.

Lemma unknown_type_read_as_bytes_witness :
  _read_dataset (data_record 7 1 2 9 9 200) (zeros 3)
  = ([WarnUnknownType 200], inr [0; 0]).
Proof.
  destruct (unknown_type_read_as_bytes (data_record 7 1 2 9 9 200) (zeros 3))
    as (H1 & H2 & _); [reflexivity | simpl; lia | simpl; lia |].
  specialize (H2 ltac:(vm_compute; discriminate)).
  destruct (_read_dataset (data_record 7 1 2 9 9 200) (zeros 3)) as [w r].
  simpl in H1, H2. subst w r. reflexivity.
Defined.

Lemma le_unsigned_bound bs :
  0 ≤ le_unsigned bs < 2 ^ (8 * Z.of_nat (length bs)).
Proof.
  induction bs as [|b bs IH]; [simpl; lia|].
  cbn [le_unsigned length]. pose proof (byte_val_bounds b).
  replace (8 * Z.of_nat (S (length bs))) with (8 + 8 * Z.of_nat (length bs))
    by lia.
  rewrite Z.pow_add_r by lia. change (2 ^ 8) with 256. lia.
Qed.

Lemma le_unsigned_bound_le bs (n : Z) :
  Z.of_nat (length bs) ≤ n → 0 ≤ le_unsigned bs < 2 ^ (8 * n).
Proof.
  intros Hn. pose proof (le_unsigned_bound bs) as [H0 H1]. split; [done|].
  eapply Z.lt_le_trans; [exact H1|]. apply Z.pow_le_mono_r; lia.
Qed.

Lemma le_signed_bound_le bs (n : Z) :
  Z.of_nat (length bs) ≤ n → 1 ≤ n →
  - 2 ^ (8 * n - 1) ≤ le_signed bs < 2 ^ (8 * n - 1).
Proof.
  intros Hk Hn. unfold le_signed.
  pose proof (le_unsigned_bound bs) as Hu.
  assert (0 < 2 ^ (8 * n - 1)) by (apply Z.pow_pos_nonneg; lia).
  destruct (length bs) as [|k] eqn:Ek.
  { change (2 ^ (8 * Z.of_nat 0)) with 1 in *. change (1 / 2) with 0.
    destruct (Z.ltb_spec (le_unsigned bs) 0); lia. }
  set (h := 2 ^ (8 * Z.of_nat (S k) - 1)).
  assert (2 ^ (8 * Z.of_nat (S k)) = 2 * h) as Hm.
  { unfold h. rewrite <- (Z.pow_succ_r 2) by lia. f_equal. lia. }
  assert (h ≤ 2 ^ (8 * n - 1)) by (apply Z.pow_le_mono_r; lia).
  rewrite Hm in *. rewrite (Z.mul_comm 2 h), Z.div_mul by lia.
  destruct (Z.ltb_spec (le_unsigned bs) h); lia.
Qed.

Lemma fmt_decode_range f bs :
  fmt_in_range f (fmt_decode f (take (Z.to_nat (fmt_size f)) bs)).
Proof.
  assert (Z.of_nat (length (take (Z.to_nat (fmt_size f)) bs)) ≤ fmt_size f)
    as Hlen by (rewrite length_take; destruct f; cbn [fmt_size]; lia).
  destruct f; cbn [fmt_size] in Hlen; cbn [fmt_in_range fmt_decode].
  - apply (le_signed_bound_le _ 1); [done|lia].
  - apply (le_unsigned_bound_le _ 1); done.
  - apply (le_signed_bound_le _ 2); [done|lia].
  - apply (le_unsigned_bound_le _ 2); done.
  - apply (le_unsigned_bound_le _ 4); done.
  - apply (le_unsigned_bound_le _ 8); done.
Qed.

Lemma unpack_range s : ∀ bs, Forall2 fmt_in_range s (unpack s bs).
Proof.
  induction s as [|f s IH]; intros bs; [constructor|].
  cbn [unpack]. constructor; [apply fmt_decode_range | apply IH].
Qed.

Lemma length_str_mul {A} (x : list A) (n : Z) :
  length (str_mul x n) = (Z.to_nat n * length x)%nat.
Proof.
  unfold str_mul. induction (Z.to_nat n) as [|k IH]; [reflexivity|].
  cbn [replicate concat]. rewrite length_app, IH. lia.
Qed.

(** What a successful read of a record of a known type returns. *)
Lemma read_dataset_known e raw w s w' values :
  sample_string e = Some (w, s) →
  _read_dataset e raw = (w', inr values) →
  values = unpack (str_mul s (samples e)) (drop (Z.to_nat (data_offset e)) raw).
Proof.
  intros Hs. unfold _read_dataset, _read_dataset_raw, unpack_from. rewrite Hs.
  repeat case_match; congruence.
Qed.

(** X14.  The tuple decoded for a record of a known acquisition type has
    [samples] times as many values as the per-sample format has
    characters, and every value lies in the range of its format
    character: signed 8 and 16 bits for [b] and [h], unsigned 8, 16, 32
    and 64 bits for [B], [H], [I] and [Q]. *)
Theorem decoded_values_in_range (e : DirectoryEntry) (raw : list byte)
    (w w' : list warning) (s : list fmt) (values : list Z) :
  sample_string e = Some (w, s) →
  _read_dataset e raw = (w', inr values) →
  length values = (Z.to_nat (samples e) * length s)%nat
  ∧ Forall2 fmt_in_range (str_mul s (samples e)) values.
Proof.
  intros Hs Hr.
  rewrite (read_dataset_known e raw w s w' values Hs Hr).
  pose proof (unpack_range (str_mul s (samples e))
                (drop (Z.to_nat (data_offset e)) raw)) as HF.
  split; [|exact HF].
  apply Forall2_length in HF. rewrite <- HF. apply length_str_mul.
Qed.

Lemma decoded_values_in_range_witness :
  Forall2 fmt_in_range (str_mul [Fh] 2) [-1; 255].
Proof.
  destruct (decoded_values_in_range (data_record 7 1 4 2 2 1)
              [x00; xff; xff; xff; x00] [] [] [Fh] [-1; 255]) as [_ H];
    [reflexivity | reflexivity | exact H].
Defined.

Lemma length_le_bytes n z : length (le_bytes n z) = n.
Proof. revert z. induction n as [|n IH]; intros z; simpl; [done|]. by rewrite IH. Qed.

Lemma le_unsigned_le_bytes n : ∀ z,
  le_unsigned (le_bytes n z) = z mod 2 ^ (8 * Z.of_nat n).
Proof.
  induction n as [|n IH]; intros z.
  { simpl. by rewrite Z.mod_1_r. }
  cbn [le_bytes le_unsigned]. rewrite IH, byte_val_of_Z.
  replace (8 * Z.of_nat (S n)) with (8 + 8 * Z.of_nat n) by lia.
  rewrite Z.pow_add_r by lia. change (2 ^ 8) with 256.
  rewrite Z.rem_mul_r; [reflexivity|lia|]. apply Z.pow_pos_nonneg; lia.
Qed.

Lemma fmt_decode_encode f v :
  fmt_in_range f v → fmt_decode f (fmt_encode f v) = v.
Proof.
  unfold fmt_encode, fmt_decode, le_signed.
  destruct f; cbn [fmt_in_range fmt_size]; intros Hv;
    rewrite ?length_le_bytes, le_unsigned_le_bytes.
  - change (2 ^ (8 * Z.of_nat (Z.to_nat 1))) with 256. change (256 / 2) with 128.
    pose proof (Z.div_mod v 256 ltac:(lia)).
    pose proof (Z.mod_pos_bound v 256 ltac:(lia)).
    destruct (Z.ltb_spec (v mod 256) 128); lia.
  - change (2 ^ (8 * Z.of_nat (Z.to_nat 1))) with 256.
    apply Z.mod_small. lia.
  - change (2 ^ (8 * Z.of_nat (Z.to_nat 2))) with 65536.
    change (65536 / 2) with 32768.
    pose proof (Z.div_mod v 65536 ltac:(lia)).
    pose proof (Z.mod_pos_bound v 65536 ltac:(lia)).
    destruct (Z.ltb_spec (v mod 65536) 32768); lia.
  - change (2 ^ (8 * Z.of_nat (Z.to_nat 2))) with 65536.
    apply Z.mod_small. lia.
  - change (2 ^ (8 * Z.of_nat (Z.to_nat 4))) with 4294967296.
    apply Z.mod_small. lia.
  - change (2 ^ (8 * Z.of_nat (Z.to_nat 8))) with 18446744073709551616.
    apply Z.mod_small. lia.
Qed.

Lemma length_fmt_encode f v : length (fmt_encode f v) = Z.to_nat (fmt_size f).
Proof. apply length_le_bytes. Qed.

Lemma unpack_pack s values : ∀ rest,
  Forall2 fmt_in_range s values →
  unpack s (pack s values ++ rest) = values.
Proof.
  intros rest H. induction H as [|f v s values Hv _ IH]; [reflexivity|].
  cbn [pack unpack]. rewrite <- app_assoc.
  rewrite take_app_length', drop_app_length' by (by rewrite length_fmt_encode).
  by rewrite fmt_decode_encode, IH.
Qed.

Lemma len_pack s values :
  Forall2 fmt_in_range s values → len (pack s values) = calcsize s.
Proof.
  intros H. induction H as [|f v s values Hv _ IH]; [reflexivity|].
  cbn [pack calcsize foldr]. fold (calcsize s).
  rewrite len_app, IH. unfold len. rewrite length_fmt_encode.
  destruct f; reflexivity.
Qed.

(** X15.  Encode and decode: when the payload of a record of a known
    acquisition type holds, at [data_offset], values packed little-endian
    in the format of the type ([samples] repetitions, each value within
    the range of its format character, negative ones in two's
    complement), and [samples * bytes_per_sample] bytes do not reach past
    the raw buffer, [_read_dataset] returns exactly those values. *)
Theorem read_dataset_roundtrip (e : DirectoryEntry) (pre post : list byte)
    (w : list warning) (s : list fmt) (values : list Z) :
  sample_string e = Some (w, s) →
  Forall2 fmt_in_range (str_mul s (samples e)) values →
  data_offset e = len pre →
  data_offset e + samples e * bytes_per_sample e
  ≤ len (pre ++ pack (str_mul s (samples e)) values ++ post) →
  (_read_dataset e (pre ++ pack (str_mul s (samples e)) values ++ post)).2
  = inr values.
Proof.
  intros Hs Hv Hoff Hend.
  assert (unpack_from (str_mul s (samples e))
            (pre ++ pack (str_mul s (samples e)) values ++ post)
            (data_offset e) = inr values) as Hu.
  { unfold unpack_from. rewrite Hoff, !len_app, len_pack by done.
    pose proof (len_nonneg post).
    destruct (Z.ltb_spec (len pre + (calcsize (str_mul s (samples e)) + len post)
                          - len pre) (calcsize (str_mul s (samples e))));
      [lia|].
    unfold len at 1. rewrite Nat2Z.id, drop_app_length.
    by rewrite unpack_pack. }
  unfold _read_dataset, _read_dataset_raw. rewrite Hs.
  destruct (Z.ltb_spec (number_of_bytes e) (samples e * bytes_per_sample e));
    [exact Hu|].
  destruct (Z.ltb_spec (len (pre ++ pack (str_mul s (samples e)) values ++ post))
              (data_offset e + samples e * bytes_per_sample e)); [lia|].
  exact Hu.
Qed.

Lemma read_dataset_roundtrip_witness :
  (_read_dataset (data_record 7 3 4 2 2 1)
     (zeros 3 ++ pack (str_mul [Fh] 2) [-2; 513] ++ zeros 1)).2
  = inr [-2; 513].
Proof.
  apply (read_dataset_roundtrip (data_record 7 3 4 2 2 1) (zeros 3) (zeros 1)
           [] [Fh] [-2; 513]).
  - reflexivity.
  - repeat constructor; simpl; lia.
  - reflexivity.
  - vm_compute. discriminate.
Defined.

(** ** More on the [Buffer] container *)

(** X16.  The tag-indexed lookups of a Buffer filled by any sequence of
    [add_dataset] calls: a tag number returns the entry and the dataset of
    the last call that carried it, a tag number that no call carried
    raises [KeyError], and [get_tag_numbers] is the set of the tag numbers
    of the calls, time records included. *)
Theorem buffer_tag_index (calls : list (DirectoryEntry * dataset)) (n : Z) :
  get_dir_entry_by_tag_number (add_datasets Buffer_new calls) n
  = match last (with_tag n calls) with
    | Some call => inr call.1
    | None => inl KeyError
    end
  ∧ get_dataset_by_tag_number (add_datasets Buffer_new calls) n
    = match last (with_tag n calls) with
      | Some call => inr call.2
      | None => inl KeyError
      end
  ∧ (n ∈ get_tag_numbers (add_datasets Buffer_new calls)
     ↔ ∃ call, call ∈ calls ∧ tag_number call.1 = n)
  ∧ ((∀ call, call ∈ calls → tag_number call.1 ≠ n) →
     get_dataset_by_tag_number (add_datasets Buffer_new calls) n
     = inl KeyError).
Proof.
  destruct (add_datasets_contents calls) as (_ & _ & H3 & H4).
  unfold get_dir_entry_by_tag_number, get_dataset_by_tag_number,
    get_tag_numbers, index.
  rewrite elem_of_dom, H3, H4, !fmap_last.
  assert (last (with_tag n calls) = None
          ↔ ∀ call, call ∈ calls → tag_number call.1 ≠ n) as Hnone.
  { rewrite last_None. unfold with_tag. split.
    - intros Hnil call Hin Htag.
      assert (call ∈ filter (fun c => tag_number c.1 = n) calls) as Hc
        by (by apply list_elem_of_filter).
      rewrite Hnil in Hc. by apply elem_of_nil in Hc.
    - intros Hno.
      destruct (filter (fun c => tag_number c.1 = n) calls) as [|c l'] eqn:Ef;
        [done|].
      assert (c ∈ filter (fun c => tag_number c.1 = n) calls) as Hc
        by (rewrite Ef; left).
      apply list_elem_of_filter in Hc as [Ht Hin]. by destruct (Hno c Hin). }
  split; [|split; [|split]].
  - by destruct (last (with_tag n calls)).
  - by destruct (last (with_tag n calls)).
  - split.
    + intros [x Hx].
      destruct (last (with_tag n calls)) as [call|] eqn:E; [|done].
      apply last_Some in E as [l' El].
      assert (call ∈ with_tag n calls) as Hc
        by (rewrite El; apply elem_of_app; right; left).
      apply list_elem_of_filter in Hc as [Ht Hin]. by exists call.
    + intros (call & Hin & Htag).
      destruct (last (with_tag n calls)) as [c|]; [by eexists|].
      by destruct (proj1 Hnone eq_refl call Hin).
  - intros Hno. apply Hnone in Hno. by rewrite Hno.
Qed.

Lemma buffer_tag_index_witness :
  get_dataset_by_tag_number
    (add_datasets Buffer_new
       [(data_record 7 100 2 1 2 1, DInts [1]);
        (data_record 7 102 2 1 2 1, DInts [2])]) 9
  = inl KeyError.
Proof.
  destruct (buffer_tag_index
              [(data_record 7 100 2 1 2 1, DInts [1]);
               (data_record 7 102 2 1 2 1, DInts [2])] 9) as (_ & _ & _ & H).
  apply H. intros call Hin.
  apply list_elem_of_In in Hin. simpl in Hin.
  destruct Hin as [<-|[<-|[]]]; vm_compute; discriminate.
Defined.

(** X17.  The typ-indexed lists of a Buffer stay aligned: for every typ
    the list of directory entries and the list of datasets are both
    present or both absent, have the same length, and pair up, position
    by position, to the calls of that typ (time records left out) in the
    order they were made; every entry in the list carries that typ. *)
Theorem buffer_typ_lists_aligned (calls : list (DirectoryEntry * dataset))
    (t : Z) :
  (∀ es, get_dir_entries_by_typ (add_datasets Buffer_new calls) t = inr es →
     ∃ dss, get_datasets_by_typ (add_datasets Buffer_new calls) t = inr dss
       ∧ length es = length dss
       ∧ zip es dss = non_time_of_typ t calls
       ∧ Forall (fun e => typ e = t) es)
  ∧ (get_dir_entries_by_typ (add_datasets Buffer_new calls) t = inl KeyError
     ↔ get_datasets_by_typ (add_datasets Buffer_new calls) t = inl KeyError)
  ∧ (get_dir_entries_by_typ (add_datasets Buffer_new calls) t = inl KeyError
     ↔ non_time_of_typ t calls = []).
Proof.
  destruct (add_datasets_contents calls) as (H1 & H2 & _ & _).
  unfold get_dir_entries_by_typ, get_datasets_by_typ, index.
  rewrite H1, H2.
  destruct (non_time_of_typ t calls) as [|c l] eqn:E; simpl.
  { split; [intros es [=]|]. split; split; done. }
  split; [|split; split; done].
  intros es [= <-]. exists ((c :: l).*2).
  split; [done|]. split; [simpl; by rewrite !length_fmap|].
  split; [apply (zip_fst_snd (c :: l))|].
  apply (Forall_fmap _ _ (c :: l)), Forall_forall.
  intros call Hin. rewrite <- E in Hin.
  apply list_elem_of_filter in Hin. simpl. tauto.
Qed.

Lemma buffer_typ_lists_aligned_witness :
  ∃ dss,
    get_datasets_by_typ
      (add_datasets Buffer_new
         [(time_record 64, DInts [0]); (data_record 7 100 2 1 2 1, DInts [1]);
          (data_record 8 102 2 1 2 1, DInts [2])]) 1 = inr dss
    ∧ length [data_record 7 100 2 1 2 1; data_record 8 102 2 1 2 1]
      = length dss.
Proof.
  destruct (buffer_typ_lists_aligned
              [(time_record 64, DInts [0]);
               (data_record 7 100 2 1 2 1, DInts [1]);
               (data_record 8 102 2 1 2 1, DInts [2])] 1) as (H & _).
  destruct (H [data_record 7 100 2 1 2 1; data_record 8 102 2 1 2 1])
    as (dss & Hd & Hl & _); [vm_compute; reflexivity|].
  exists dss. split; [exact Hd | exact Hl].
Defined.

(** ** The tag registry *)

Section tag_registry.
Context {T : Type} (number typ_of : T → Z) (formats : T → bool).

Lemma add_tag_duplicate (reg : registry T) (tag : T) :
  is_Some (_tags_by_tag_number reg !! number tag) →
  (_add_tag number typ_of formats reg tag).1.1 = reg.
Proof.
  intros [t Ht]. unfold _add_tag. rewrite Ht. by destruct (formats tag).
Qed.

Lemma add_tag_keeps (reg : registry T) (tag : T) n t :
  _tags_by_tag_number reg !! n = Some t →
  _tags_by_tag_number (_add_tag number typ_of formats reg tag).1.1 !! n = Some t.
Proof.
  intros Ht. unfold _add_tag.
  destruct (_tags_by_tag_number reg !! number tag) as [t'|] eqn:E.
  - by destruct (formats tag).
  - simpl. rewrite lookup_insert_ne; [done|]. intros <-. congruence.
Qed.

Lemma add_tag_consistent (reg : registry T) (tag : T) :
  registry_consistent number typ_of reg →
  registry_consistent number typ_of (_add_tag number typ_of formats reg tag).1.1.
Proof.
  intros (I1 & I2 & I3). unfold _add_tag.
  destruct (_tags_by_tag_number reg !! number tag) as [t'|] eqn:E.
  { by destruct (formats tag). }
  assert (∀ k l t, _tags_by_typ reg !! k = Some l → t ∈ l →
            number t ≠ number tag) as Hfresh.
  { intros k l t Hl Hin Heq. destruct (I2 k l t Hl Hin) as [_ Ht]. congruence. }
  unfold registry_consistent. simpl. split; [|split].
  - intros n t. destruct (decide (number tag = n)) as [<-|Hn].
    + rewrite lookup_insert_eq. intros [= <-]. split; [done|].
      eexists. split; [apply append_at_lookup|].
      apply elem_of_app. right. left.
    + rewrite lookup_insert_ne by done. intros Ht.
      destruct (I1 n t Ht) as (Hnum & l & Hl & Hin). split; [done|].
      destruct (decide (typ_of tag = typ_of t)) as [Hk|Hk].
      * rewrite <- Hk. eexists. split; [apply append_at_lookup|].
        rewrite Hk, Hl. simpl. apply elem_of_app. by left.
      * exists l. by rewrite append_at_lookup_ne.
  - intros k l t. destruct (decide (typ_of tag = k)) as [<-|Hk].
    + rewrite append_at_lookup. intros [= <-] Hin.
      apply elem_of_app in Hin as [Hin|Hin].
      * destruct (_tags_by_typ reg !! typ_of tag) as [l0|] eqn:El;
          [|by apply elem_of_nil in Hin].
        simpl in Hin. destruct (I2 _ _ _ El Hin) as [Ht Hb]. split; [done|].
        rewrite lookup_insert_ne; [done|].
        intros Heq. by apply (Hfresh _ _ _ El Hin).
      * apply list_elem_of_singleton in Hin as ->. split; [done|].
        apply lookup_insert_eq.
    + rewrite append_at_lookup_ne by done. intros Hl Hin.
      destruct (I2 _ _ _ Hl Hin) as [Ht Hb]. split; [done|].
      rewrite lookup_insert_ne; [done|].
      intros Heq. by apply (Hfresh _ _ _ Hl Hin).
  - intros k l. destruct (decide (typ_of tag = k)) as [<-|Hk].
    + rewrite append_at_lookup. intros [= <-].
      rewrite fmap_app. apply NoDup_app.
      destruct (_tags_by_typ reg !! typ_of tag) as [l0|] eqn:El; simpl.
      * split; [by apply (I3 _ _ El)|]. split; [|apply NoDup_singleton].
        intros n Hn Hn'. apply list_elem_of_singleton in Hn' as ->.
        apply list_elem_of_fmap in Hn as (t & Heq & Hin).
        by apply (Hfresh _ _ _ El Hin).
      * split; [apply NoDup_nil_2|]. split; [|apply NoDup_singleton].
        intros n Hn. by apply elem_of_nil in Hn.
    + rewrite append_at_lookup_ne by done. apply I3.
Qed.

Lemma registry_new_consistent :
  registry_consistent number typ_of (@registry_new T).
Proof.
  split; [|split]; intros *; simpl; rewrite lookup_empty; discriminate.
Qed.

Lemma add_tags_consistent (tags : list T) : ∀ reg,
  registry_consistent number typ_of reg →
  registry_consistent number typ_of
    (add_tags number typ_of formats reg tags).1.1.
Proof.
  induction tags as [|tag tags IH]; intros reg Hreg; [done|].
  cbn [add_tags].
  pose proof (add_tag_consistent reg tag Hreg) as H1.
  destruct (_add_tag number typ_of formats reg tag) as [[reg' w] [|]]; [done|].
  specialize (IH reg' H1).
  by destruct (add_tags number typ_of formats reg' tags) as [[reg'' w'] r].
Qed.

Lemma add_tags_keeps (tags : list T) : ∀ reg n t,
  _tags_by_tag_number reg !! n = Some t →
  _tags_by_tag_number (add_tags number typ_of formats reg tags).1.1 !! n
  = Some t.
Proof.
  induction tags as [|tag tags IH]; intros reg n t Ht; [done|].
  cbn [add_tags].
  pose proof (add_tag_keeps reg tag n t Ht) as H1.
  destruct (_add_tag number typ_of formats reg tag) as [[reg' w] [|]]; [done|].
  specialize (IH reg' n t H1).
  by destruct (add_tags number typ_of formats reg' tags) as [[reg'' w'] r].
Qed.

Lemma add_tags_first (tags : list T) : ∀ reg n,
  (add_tags number typ_of formats reg tags).2 = false →
  _tags_by_tag_number (add_tags number typ_of formats reg tags).1.1 !! n
  = match _tags_by_tag_number reg !! n with
    | Some t => Some t
    | None => head (filter (fun t => number t = n) tags)
    end.
Proof.
  induction tags as [|tag tags IH]; intros reg n Hraised.
  { cbn [add_tags fst]. rewrite filter_nil.
    by destruct (_tags_by_tag_number reg !! n). }
  cbn [add_tags] in *. rewrite filter_cons.
  destruct (_add_tag number typ_of formats reg tag) as [[reg' w] raised] eqn:E.
  destruct raised; [done|].
  specialize (IH reg' n).
  destruct (add_tags number typ_of formats reg' tags) as [[reg'' w'] r].
  simpl in *. rewrite IH by done.
  unfold _add_tag in E.
  destruct (_tags_by_tag_number reg !! number tag) as [t'|] eqn:Et.
  - assert (reg' = reg) as -> by (destruct (formats tag); congruence).
    destruct (_tags_by_tag_number reg !! n) as [t|] eqn:En; [done|].
    rewrite decide_False by congruence. done.
  - injection E as <- _. simpl.
    destruct (decide (number tag = n)) as [<-|Hn].
    + by rewrite lookup_insert_eq, Et.
    + rewrite lookup_insert_ne by done.
      by destruct (_tags_by_tag_number reg !! n).
Qed.

(** X18.  The tag registry filled by [_add_tag]: a tag whose number is
    already registered leaves the registry as it is (the first tag with a
    number wins, where [Buffer.add_dataset] lets the last one win) and no
    call changes what is stored under another number; after any sequence
    of calls on a fresh registry the number-indexed dict and the
    typ-indexed lists describe the same tags, each once; and when no call
    raised, a tag number returns the first tag of the sequence that
    carried it, or [KeyError] when none did. *)
Theorem tag_registry_first_wins (tags : list T) (reg : registry T) (tag : T)
    (n : Z) :
  (is_Some (_tags_by_tag_number reg !! number tag) →
   (_add_tag number typ_of formats reg tag).1.1 = reg)
  ∧ (∀ t, _tags_by_tag_number reg !! n = Some t →
          _tags_by_tag_number (add_tags number typ_of formats reg tags).1.1 !! n
          = Some t)
  ∧ registry_consistent number typ_of
      (add_tags number typ_of formats registry_new tags).1.1
  ∧ ((add_tags number typ_of formats registry_new tags).2 = false →
     get_tag_by_tag_number
       (add_tags number typ_of formats registry_new tags).1.1 n
     = match head (filter (fun t => number t = n) tags) with
       | Some t => inr t
       | None => inl KeyError
       end).
Proof.
  split; [apply add_tag_duplicate|]. split; [intros t; apply add_tags_keeps|].
  split; [apply add_tags_consistent, registry_new_consistent|].
  intros Hraised. unfold get_tag_by_tag_number, index.
  rewrite add_tags_first by done. simpl. rewrite lookup_empty.
  by destruct (head (filter (fun t => number t = n) tags)).
Qed.

End tag_registry.

Lemma tag_registry_first_wins_witness :
  get_tag_by_tag_number
    (add_tags fst snd (fun _ => true) registry_new
       [(7, 1); (8, 1); (7, 5)]).1.1 7
  = inr (7, 1).
Proof.
  destruct (tag_registry_first_wins fst snd (fun _ : Z * Z => true)
              [(7, 1); (8, 1); (7, 5)] registry_new (7, 1) 7)
    as (_ & _ & _ & H).
  apply H. reflexivity.
Defined.

(** ** Byte strings and filters *)

Lemma string_append_nil t : String.append EmptyString t = t.
Proof. reflexivity. Qed.

Lemma string_append_cons c s t :
  String.append (String c s) t = String c (String.append s t).
Proof. reflexivity. Qed.

Lemma string_append_assoc s t u :
  String.append (String.append s t) u = String.append s (String.append t u).
Proof.
  induction s as [|c s IH]; [done|].
  by rewrite !string_append_cons, IH.
Qed.

(** Digits after a count that is not zero go on with that count. *)
Lemma struct_items_digits_pos d : ∀ rest acc,
  0 < acc →
  struct_items (String.append (NilEmpty.string_of_uint d) rest) (Some acc)
  = struct_items rest (Some (Z.pos (Pos.of_uint_acc d (Z.to_pos acc)))).
Proof.
  induction d as [|d IH|d IH|d IH|d IH|d IH|d IH|d IH|d IH|d IH|d IH];
    intros rest acc Hacc;
    cbn [NilEmpty.string_of_uint];
    rewrite ?string_append_nil, ?string_append_cons;
    cbn [struct_items default Pos.of_uint_acc]; unfold id, digit_of_ascii;
    cbn [Ascii.is_nat fmap option_fmap option_map Z.of_nat Pos.of_succ_nat
         Pos.succ];
    [ by rewrite Z2Pos.id by done | ..];
    (rewrite IH by lia; do 4 f_equal; lia).
Qed.

Lemma struct_items_digits d : ∀ rest,
  struct_items (String.append (NilEmpty.string_of_uint d) rest) (Some 0)
  = struct_items rest (Some (Z.of_N (Pos.of_uint d))).
Proof.
  induction d as [|d IH|d IH|d IH|d IH|d IH|d IH|d IH|d IH|d IH|d IH];
    intros rest;
    cbn [NilEmpty.string_of_uint];
    rewrite ?string_append_nil, ?string_append_cons;
    cbn [struct_items default Pos.of_uint]; unfold id, digit_of_ascii;
    cbn [Ascii.is_nat fmap option_fmap option_map Z.of_nat Pos.of_succ_nat
         Pos.succ];
    [ reflexivity | apply IH | ..];
    (rewrite struct_items_digits_pos by lia; reflexivity).
Qed.

(** A count rendered by ['{:d}'] is read back as that count. *)
Lemma struct_items_format_d n rest :
  0 ≤ n →
  struct_items (String.append (format_d n) rest) None
  = struct_items rest (Some n).
Proof.
  intros Hn. unfold format_d. destruct n as [|p|p]; [reflexivity| |lia].
  cbn [Z.to_int NilZero.string_of_int]. unfold NilZero.string_of_uint.
  pose proof (DecimalPos.Unsigned.of_to p) as Hp.
  pose proof (struct_items_digits (Pos.to_uint p) rest) as Hd.
  rewrite Hp in Hd. cbn [Z.of_N] in Hd. rewrite <- Hd.
  destruct (Pos.to_uint p); [done|reflexivity..].
Qed.

(** The format string parses for one sample and for no more. *)
Lemma unpack_string_format bps n :
  0 ≤ bps →
  struct_parse (string_mul (String "<" (String.append (format_d bps) "s")) n)
  = if n <=? 0 then Some []
    else if n =? 1 then Some [bps]
    else None.
Proof.
  intros Hbps. unfold string_mul.
  destruct (Z.leb_spec n 0) as [Hn|Hn].
  { replace (Z.to_nat n) with 0%nat by lia. reflexivity. }
  destruct (Z.eqb_spec n 1) as [->|Hne].
  - change (Z.to_nat 1) with 1%nat.
    rewrite Nat.iter_succ, string_append_cons.
    change (struct_parse (String "<" ?x)) with (struct_items x None).
    rewrite string_append_assoc, struct_items_format_d by done.
    reflexivity.
  - destruct (Z.to_nat n) as [|[|k]] eqn:E; [lia|lia|].
    rewrite !Nat.iter_succ, !string_append_cons.
    change (struct_parse (String "<" ?x)) with (struct_items x None).
    rewrite string_append_assoc, struct_items_format_d by done.
    reflexivity.
Qed.

(** X19.  [_unpack_string_data] works for a single sample only.  Its
    format string is ['<{:d}s'.format(bytes_per_sample)] repeated
    [samples] times, so from the second sample on a byte-order mark
    stands where [struct] expects a format character and the format is
    refused: with two or more samples the call always raises
    [struct.error], and so does the FILENAME or FILEDATA branch of
    [iter_buffers] on such a record.  With [samples = 1] the format is
    one string of [bytes_per_sample] bytes; the call returns the bytes
    at [data_offset], or raises [struct.error] when they reach past the
    raw buffer. *)
Theorem unpack_string_data_outcomes (raw : list byte) (e : DirectoryEntry) :
  0 ≤ data_offset e → 0 ≤ bytes_per_sample e < 65536 →
  (samples e = 1 → data_offset e + bytes_per_sample e ≤ len raw →
   _unpack_string_data raw e
   = inr [slice raw (data_offset e) (data_offset e + bytes_per_sample e)])
  ∧ (samples e = 1 → len raw < data_offset e + bytes_per_sample e →
     _unpack_string_data raw e = inl StructError)
  ∧ (2 ≤ samples e →
     struct_parse
       (string_mul
          (String "<" (String.append (format_d (bytes_per_sample e)) "s"))
          (samples e)) = None
     ∧ _unpack_string_data raw e = inl StructError)
  ∧ (2 ≤ samples e →
     tag_number e = FILENAME_TAG ∨ tag_number e = FILEDATA_TAG →
     ∀ F sec b d, decode_entry F sec raw b d e = ([], Raise StructError)).
Proof.
  intros Hoff [Hbps _].
  pose proof (unpack_string_format (bytes_per_sample e) (samples e) Hbps)
    as Hfmt.
  assert (2 ≤ samples e → _unpack_string_data raw e = inl StructError) as Hmany.
  { intros Hs. unfold _unpack_string_data. cbv zeta. rewrite Hfmt.
    destruct (Z.leb_spec (samples e) 0); [lia|].
    destruct (Z.eqb_spec (samples e) 1); [lia|done]. }
  split; [|split; [|split]].
  - intros Hs Hlen. unfold _unpack_string_data. cbv zeta.
    rewrite Hfmt, Hs. cbn [Z.leb Z.eqb Z.compare Pos.eqb foldr unpack_strings].
    destruct (Z.ltb_spec (len raw - data_offset e) (bytes_per_sample e + 0));
      [lia|].
    by rewrite slice_take_drop.
  - intros Hs Hlen. unfold _unpack_string_data. cbv zeta.
    rewrite Hfmt, Hs. cbn [Z.leb Z.eqb Z.compare Pos.eqb foldr unpack_strings].
    destruct (Z.ltb_spec (len raw - data_offset e) (bytes_per_sample e + 0));
      [done|lia].
  - intros Hs. split; [|by apply Hmany]. rewrite Hfmt.
    destruct (Z.leb_spec (samples e) 0); [lia|].
    destruct (Z.eqb_spec (samples e) 1); [lia|done].
  - intros Hs Htag F sec b d. unfold decode_entry.
    rewrite (Hmany Hs).
    destruct Htag as [-> | ->]; reflexivity.
Qed.

Lemma unpack_string_data_outcomes_witness :
  _unpack_string_data (zeros 2 ++ [x41; x42; x43] ++ zeros 1)
                      (data_record FILENAME_TAG 2 3 1 3 255)
  = inr [[x41; x42; x43]]
  ∧ _unpack_string_data (zeros 8) (data_record FILENAME_TAG 2 6 2 3 255)
    = inl StructError.
Proof.
  split.
  - destruct (unpack_string_data_outcomes
                (zeros 2 ++ [x41; x42; x43] ++ zeros 1)
                (data_record FILENAME_TAG 2 3 1 3 255)) as (H & _);
      [simpl; lia | simpl; lia |].
    rewrite H; [reflexivity | reflexivity | vm_compute; discriminate].
  - destruct (unpack_string_data_outcomes (zeros 8)
                (data_record FILENAME_TAG 2 6 2 3 255)) as (_ & _ & H & _);
      [simpl; lia | simpl; lia |].
    apply H. simpl. lia.
Defined.

Lemma remove_invalid_loop_invalid keys : ∀ (F : filter_dict) warns,
  (∀ k, k ∈ keys → k ∈ F.*1) →
  forallb hasattr keys = false →
  (remove_invalid_loop (length F) keys F warns).2 = Some RuntimeError.
Proof.
  intros F warns Hsub Hbad.
  apply remove_invalid_loop_raises; [done|done|].
  induction keys as [|k keys IH]; [done|].
  simpl in Hbad. apply andb_false_iff in Hbad as [Hk|Hk].
  - exists k. split; [left|done].
  - destruct IH as (k' & Hin & Hk'); [|done|].
    + intros k' Hin. apply Hsub. by right.
    + exists k'. split; [by right|done].
Qed.

(** X20.  Validation of the filter: a filter dict passes unchanged and
    without a warning exactly when every one of its keys is an attribute
    of DirectoryEntry; in every other case the validation raises
    [RuntimeError].  Each of the ten field names is such a key, and a
    constraint on a field accepts a record exactly when the value of that
    field is among the accepted values. *)
Theorem filter_validation (F : filter_dict) (e : DirectoryEntry)
    (accepted : list Z) :
  (remove_invalid_filters F = ([], F, None) ↔ forallb hasattr F.*1 = true)
  ∧ (forallb hasattr F.*1 = false →
     (remove_invalid_filters F).2 = Some RuntimeError)
  ∧ forallb hasattr instance_attributes = true
  ∧ filter_match [("tag_number"%string, accepted)] e
    = bool_decide (tag_number e ∈ accepted)
  ∧ filter_match [("data_offset"%string, accepted)] e
    = bool_decide (data_offset e ∈ accepted)
  ∧ filter_match [("number_of_bytes"%string, accepted)] e
    = bool_decide (number_of_bytes e ∈ accepted)
  ∧ filter_match [("samples"%string, accepted)] e
    = bool_decide (samples e ∈ accepted)
  ∧ filter_match [("bytes_per_sample"%string, accepted)] e
    = bool_decide (bytes_per_sample e ∈ accepted)
  ∧ filter_match [("typ"%string, accepted)] e
    = bool_decide (typ e ∈ accepted)
  ∧ filter_match [("parameter1"%string, accepted)] e
    = bool_decide (parameter1 e ∈ accepted)
  ∧ filter_match [("parameter2"%string, accepted)] e
    = bool_decide (parameter2 e ∈ accepted)
  ∧ filter_match [("parameter3"%string, accepted)] e
    = bool_decide (parameter3 e ∈ accepted)
  ∧ filter_match [("address"%string, accepted)] e
    = bool_decide (address e ∈ accepted).
Proof.
  assert (forallb hasattr F.*1 = false →
          (remove_invalid_filters F).2 = Some RuntimeError) as Hbad.
  { intros H. unfold remove_invalid_filters.
    change (map fst F) with (F.*1).
    by apply remove_invalid_loop_invalid. }
  split.
  { split; [|apply remove_invalid_filters_valid].
    intros Hok. destruct (forallb hasattr F.*1) eqn:E; [done|].
    rewrite Hok in Hbad. by specialize (Hbad eq_refl). }
  split; [exact Hbad|]. split; [reflexivity|].
  unfold filter_match, attr_in. cbn [existsb fst snd getattr String.eqb].
  repeat split; apply orb_false_r.
Qed.

(** ** An invariant of the scanner *)

Lemma directory_at_snoc contents base e0 rest e :
  directory_at contents base (e0 :: rest) →
  new_from_raw_data contents (base + SIZE * len rest) = Some e →
  directory_at contents base (e0 :: rest ++ [e]).
Proof.
  intros (Hsig & H0 & Hrest) He. split; [done|]. split; [done|].
  intros i e' Hi. apply lookup_app_Some in Hi as [Hi|[Hlen Hi]].
  - by apply Hrest.
  - apply list_lookup_singleton_Some in Hi as [Hi ->].
    replace (Z.of_nat i) with (len rest) by (unfold len; lia). done.
Qed.

Lemma classify_invariant contents F st e :
  scan_invariant contents st →
  new_from_raw_data contents (cursor st) = Some e →
  0 ≤ cursor st →
  scan_invariant contents (classify contents F st e).1
  ∧ Forall (well_shaped contents) (classify contents F st e).2.
Proof.
  intros (Hb & Hdir & Hft) He Hc.
  apply new_from_raw_data_decode in He as Hwf; [|done].
  destruct Hwf as (_ & Hwf & _). apply wf_entry_offset in Hwf.
  unfold classify. destruct (first_tag st) eqn:Eft.
  { destruct Hft as [Hes Hcur]. rewrite Hes. simpl app.
    destruct (is_time_signature e) eqn:Esig; simpl; (split; [|done]).
    - unfold scan_invariant. simpl. split; [done|].
      split; [|split; [done|unfold len, SIZE; simpl; lia]].
      split; [done|]. split; [by rewrite <- Hcur|]. intros i e' Hi. done.
    - unfold scan_invariant. simpl. repeat split; lia. }
  destruct Hft as [Hne Hcur].
  destruct (dir_entries st) as [|e0 rest] eqn:Ees; [done|].
  assert (cursor st = dir_base st + SIZE * len rest) as Hcur'.
  { rewrite Hcur. unfold len. simpl length. lia. }
  assert (directory_at contents (dir_base st) (e0 :: rest ++ [e])) as Hdir'.
  { apply directory_at_snoc; [done|]. by rewrite <- Hcur'. }
  assert (len ((e0 :: rest) ++ [e]) - 1 = len rest + 1) as Hlen.
  { unfold len. simpl length. rewrite length_app. simpl. lia. }
  assert (scan_invariant contents
            (mkScan (cursor st + SIZE) (search_time st) (dir_base st)
                    ((e0 :: rest) ++ [e]) true true false)) as Hplain.
  { unfold scan_invariant. cbn [dir_base dir_entries first_tag cursor].
    split; [done|]. split; [exact Hdir'|]. split; [done|].
    rewrite Hlen, Hcur'. lia. }
  assert (∀ d r d' r', scan_invariant contents
            (mkScan (cursor st + SIZE) (search_time st) (dir_base st)
                    ((e0 :: rest) ++ [e]) d r false) →
          scan_invariant contents
            (mkScan (cursor st + SIZE) (search_time st) (dir_base st)
                    ((e0 :: rest) ++ [e]) d' r' false)) as Hany by done.
  destruct (Z.eqb_spec (tag_number e) TIME_TAG) as [Ht|Ht].
  { assert ((tag_number e =? NEXT_TAG) = false) as -> by (rewrite Ht; done).
    simpl. split; [|done]. by eapply Hany. }
  destruct (Z.eqb_spec (tag_number e) NEXT_TAG) as [Hn|Hn].
  { simpl. split.
    - unfold scan_invariant. simpl. split; [lia|]. done.
    - destruct (drop_buffer st); [done|].
      apply Forall_singleton. exists (dir_base st). split; [done|].
      split; [exact Hdir'|]. right. exists e. simpl.
      split; [|done]. change (e0 :: rest ++ [e]) with ((e0 :: rest) ++ [e]).
      apply last_snoc. }
  destruct ((RESERVED_TAG_LOW_END <=? tag_number e)
            && (tag_number e <=? RESERVED_TAG_HIGH_END)).
  { simpl. split; [|done]. by eapply Hany. }
  destruct (tag_number e =? FILENAME_TAG).
  { simpl. split; [|done]. by eapply Hany. }
  destruct (tag_number e =? FILEDATA_TAG).
  { simpl. split; [|done]. by eapply Hany. }
  destruct (tag_number e =? LAST_TAG).
  { simpl. split; [by eapply Hany|].
    apply Forall_singleton. exists (dir_base st). split; [done|].
    split; [exact Hdir'|]. by left. }
  simpl. split; [|done]. by eapply Hany.
Qed.

Lemma loop_body_invariant contents F st st' ys :
  scan_invariant contents st → 0 ≤ cursor st →
  loop_body contents F st = inr (st', ys) →
  scan_invariant contents st' ∧ 0 ≤ cursor st'
  ∧ Forall (well_shaped contents) ys.
Proof.
  intros Hinv Hc. unfold loop_body.
  destruct (new_from_raw_data contents (cursor st)) as [e|] eqn:He; [|done].
  destruct (classify_invariant contents F st e Hinv He Hc) as [Hinv1 Hys].
  apply new_from_raw_data_decode in He as Hwf; [|done].
  destruct Hwf as (_ & Hwf & _). apply wf_entry_offset in Hwf.
  destruct Hinv as (Hb & _).
  destruct (classify_nonneg contents F st e Hc Hb ltac:(lia)) as [Hc1 _].
  destruct (classify contents F st e) as [st1 ys1]. simpl in Hinv1, Hys, Hc1.
  destruct (len contents - SIZE <=? cursor st1); intros [= <- <-].
  - split; [exact Hinv1|]. split; [done|].
    apply Forall_app. split; [done|]. apply Forall_singleton.
    destruct Hinv1 as (Hb1 & Hdir1 & _).
    exists (dir_base st1). split; [done|]. split; [done|]. by left.
  - done.
Qed.

Lemma raw_buffers_loop_invariant contents F fuel : ∀ st,
  scan_invariant contents st → 0 ≤ cursor st →
  Forall (well_shaped contents) (raw_buffers_loop fuel contents F st).1.
Proof.
  induction fuel as [|fuel IH]; intros st Hinv Hc; simpl.
  { by destruct (reached_end st). }
  destruct (reached_end st); [done|].
  destruct (loop_body contents F st) as [ex|[st' ys]] eqn:E; [done|].
  apply loop_body_invariant in E as (Hinv' & Hc' & Hys); [|done|done].
  specialize (IH st' Hinv' Hc').
  destruct (raw_buffers_loop fuel contents F st') as [zs o].
  simpl in *. by apply Forall_app.
Qed.

(** X21.  Whatever the file and however long [_raw_buffers] is run,
    everything it yields has the same shape: the directory is empty or
    starts with a record matching the time signature, read at some offset
    [base] of the file, followed by the consecutive 16-byte records from
    [base] on (so that record is listed twice once the scan is past it);
    and the bytes are the file from [base] to its end, or, when the
    directory ends with a NEXT record, to [base] plus that record's data
    offset.  So the first byte of the yielded bytes is the first byte of
    the directory. *)
Theorem yielded_buffers_well_shaped (contents : list byte) (F : filter_dict)
    (fuel : nat) :
  forallb hasattr F.*1 = true →
  Forall (well_shaped contents) (_raw_buffers fuel contents F).1.1.2.
Proof.
  intros Hvalid.
  rewrite raw_buffers_validated by (by apply remove_invalid_filters_valid).
  pose proof (raw_buffers_loop_invariant contents F fuel (initial_state F))
    as H.
  destruct (raw_buffers_loop fuel contents F (initial_state F)) as [ys o].
  apply H; [|simpl; lia].
  unfold scan_invariant. simpl. done.
Qed.

Lemma yielded_buffers_well_shaped_witness :
  Forall (well_shaped (synthetic_file [first_segment] final_segment))
    [emitted first_segment; emitted final_segment].
Proof.
  exact (yielded_buffers_well_shaped
           (synthetic_file [first_segment] final_segment) [] 100 eq_refl).
Defined.

(** ** A whole file, decoded *)

Lemma decode_entries_segment sec s :
  next_segment_ok s = true → segment_decodes sec s = true →
  ∃ w, decode_entries [] sec (segment_bytes s) (segment_entries s)
         Buffer_new false
       = (w, Break [segment_buffer s]).
Proof.
  unfold next_segment_ok, segment_decodes, segment_buffer.
  rewrite !andb_true_iff, !Z.eqb_eq.
  intros [[Hok Hterm] _] [Htime Hrecs].
  apply segment_ok_spec in Hok as (_ & Hsig & _).
  assert (tag_number (seg_first s) = TIME_TAG) as Htag.
  { unfold is_time_signature in Hsig.
    rewrite !andb_true_iff, !Z.eqb_eq in Hsig. tauto. }
  destruct (unpack_seatime (segment_bytes s) (data_offset (seg_first s)))
    as [ex|t] eqn:Et; [done|].
  pose proof (decode_entries_ordinary sec (segment_bytes s) (seg_records s)
                [seg_term s]
                (add_dataset (add_dataset Buffer_new (seg_first s) (DTime t))
                             (seg_first s) (DTime t))
                false Hrecs) as Hrun.
  assert (∀ b', decode_entries [] sec (segment_bytes s) [seg_term s] b' false
                = ([], Break [b'])) as Hnext.
  { intros b'. cbn [decode_entries]. unfold decode_entry.
    rewrite Hterm. reflexivity. }
  rewrite Hnext in Hrun.
  eexists. unfold segment_entries. cbn [decode_entries].
  unfold decode_entry at 1. rewrite Htag, Et. cbn [Z.eqb TIME_TAG].
  unfold decode_entry at 1. rewrite Htag, Et. cbn [Z.eqb TIME_TAG].
  rewrite Hrun. reflexivity.
Qed.

Lemma decode_buffers_segments sec nexts :
  forallb next_segment_ok nexts = true →
  forallb (segment_decodes sec) nexts = true →
  ∃ w, ∀ rest,
    decode_buffers [] sec (map emitted nexts ++ rest)
    = let '(w', zs, r) := decode_buffers [] sec rest in
      (w ++ w', map segment_buffer nexts ++ zs, r).
Proof.
  induction nexts as [|s nexts IH]; intros Hok Hdec.
  { exists []. intros rest. simpl.
    by destruct (decode_buffers [] sec rest) as [[w' zs] r]. }
  simpl in Hok, Hdec.
  apply andb_true_iff in Hok as [Hs Hok].
  apply andb_true_iff in Hdec as [Hd Hdec].
  destruct (IH Hok Hdec) as [w2 IH'].
  destruct (decode_entries_segment sec s Hs Hd) as [w1 H1].
  exists (w1 ++ w2). intros rest.
  cbn [map app emitted decode_buffers]. unfold emitted at 1.
  cbn [nonempty]. rewrite H1, IH'.
  destruct (decode_buffers [] sec rest) as [[w' zs] r].
  by rewrite app_assoc.
Qed.

(** X22.  Scanner and decoder together, without a filter: for a
    synthetic file whose NEXT-terminated segments each hold a time record
    that unpacks and otherwise ordinary data records that decode,
    [iter_buffers] delivers exactly one Buffer per NEXT-terminated
    segment, in file order, each holding the time record and every data
    record of its segment with the decoded values; the final,
    LAST-terminated segment adds nothing, whatever it holds. *)
Theorem whole_file_decoded (sec : gset Z) (nexts : list segment)
    (last : segment) :
  forallb next_segment_ok nexts = true →
  last_segment_ok last = true →
  forallb (segment_decodes sec) nexts = true →
  ∃ k, ∀ fuel,
    (iter_buffers (k + fuel) (synthetic_file nexts last) sec []).1.2
    = map segment_buffer nexts.
Proof.
  intros Hn Hl Hdec.
  destruct (scan_synthetic_file [] nexts last Hn Hl) as [k Hk].
  destruct (decode_buffers_segments sec nexts Hn Hdec) as [w Hw].
  exists k. intros fuel. unfold iter_buffers.
  rewrite raw_buffers_validated by reflexivity.
  rewrite Hk. cbn [nonempty]. rewrite scanned_no_filter. cbn [fst].
  rewrite Hw. cbn [decode_buffers emitted nonempty].
  assert (Forall (fun e => tag_number e ≠ NEXT_TAG) (segment_entries last))
    as Hno.
  { unfold last_segment_ok in Hl. rewrite !andb_true_iff, Z.eqb_eq in Hl.
    destruct Hl as [[Hok Htag] _].
    apply segment_entries_no_next; [done|]. rewrite Htag. done. }
  pose proof (decode_entries_no_next [] sec (segment_bytes last)
                (segment_entries last) Buffer_new false Hno) as Hy.
  destruct (decode_entries [] sec (segment_bytes last) (segment_entries last)
              Buffer_new false) as [w' r].
  destruct r as [b' d'|ys| |ex]; simpl in *;
    try (subst ys); by rewrite app_nil_r.
Qed.

Lemma whole_file_decoded_witness :
  ∃ k, ∀ fuel,
    (iter_buffers (k + fuel)
       (synthetic_file [two_record_segment] final_segment) ∅ []).1.2
    = [segment_buffer two_record_segment].
Proof.
  exact (whole_file_decoded ∅ [two_record_segment] final_segment
           eq_refl eq_refl eq_refl).
Defined.

(** ** Decoding under a filter *)










